(** * hotnote: text anchors and linear histories

    A shallow embedding of [src/utils/text-anchor.js] (the anchor resolver)
    and of the navigation history of [app.js], together with the history
    manager that the change-tracking guide describes.  The other parts of
    [app.js] that keep state (the storage of unsaved changes, the change
    tracking of the editor, the navigation handlers, saving, the autosave
    timer) and its file-name helpers follow.

    JavaScript strings are sequences of code units; they are modelled as
    lists of characters.  Positions are JavaScript integers, modelled as
    [Z]; list operations convert with [Z.to_nat] after clamping.  Scores
    are the doubles 0, 0.5, 1, ... 150, all exactly representable, and are
    modelled as rationals. *)

From Stdlib Require Import ZArith QArith Lqa List Ascii String Bool Lia.
From stdpp Require Import gmap strings.
Import ListNotations.

Open Scope Z_scope.

(** A JavaScript string. *)
Definition jsstring := list ascii.

(** String literals for examples. *)
Definition str (s : string) : jsstring := list_ascii_of_string s.

(** [s.length] *)
Definition len (s : jsstring) : Z := Z.of_nat (length s).

(** * The built-ins of the platform that the module calls *)

Module JS.

(** [String.prototype.substring(start, end)]: both arguments are clamped
    to [0, length] and swapped when [start > end]. *)
Definition clamp (size x : Z) : Z := Z.min (Z.max x 0) size.

Definition substring (s : jsstring) (start end_ : Z) : jsstring :=
  let intStart := clamp (len s) start in
  let intEnd := clamp (len s) end_ in
  let from := Z.min intStart intEnd in
  let to := Z.max intStart intEnd in
  firstn (Z.to_nat (to - from)) (skipn (Z.to_nat from) s).

(** A string is truthy when it is not empty. *)
Definition truthy (s : jsstring) : bool :=
  match s with [] => false | _ :: _ => true end.

(** [s.startsWith(search)] *)
Fixpoint startsWith (s search : jsstring) {struct search} : bool :=
  match search, s with
  | [], _ => true
  | _ :: _, [] => false
  | c :: search', d :: s' => Ascii.eqb c d && startsWith s' search'
  end.

(** [s.endsWith(search)]: the last [search.length] code units of [s]
    are [search]. *)
Definition endsWith (s search : jsstring) : bool :=
  (length search <=? length s)%nat &&
  startsWith (skipn (length s - length search) s) search.

(** [a[i]] for a string or an array: the element at [i], or [undefined]. *)
Definition index {A : Type} (arr : list A) (i : Z) : option A :=
  if i <? 0 then None else nth_error arr (Z.to_nat i).

(** [a === b] on two results of indexing. *)
Definition strictEq (a b : option ascii) : bool :=
  match a, b with
  | Some c, Some d => Ascii.eqb c d
  | None, None => true
  | _, _ => false
  end.

(** ** Regular expressions

    The fragment of ECMAScript patterns (without the [u] flag) that
    matters here: a sequence of atoms, each a pattern character, the
    wildcard [.], or an identity escape of a syntax character.  Any
    other use of a syntax character (quantifiers, groups, classes,
    anchors, alternation, a dangling backslash) and the class escapes
    are outside the fragment: [parsePattern] gives [None] for them. *)

(** SyntaxCharacter :: one of [^ $ \ . * + ? ( ) [ ] { } |] *)
Definition isSyntaxCharacter (c : ascii) : bool :=
  existsb (Ascii.eqb c) (str "^$\.*+?()[]{}|").

Inductive atom :=
| Lit (c : ascii)   (* matches exactly the code unit [c] *)
| Dot.              (* matches any code unit but a line terminator *)

Definition isLineTerminator (c : ascii) : bool :=
  Ascii.eqb c "010"%char || Ascii.eqb c "013"%char.

Fixpoint parsePattern (p : jsstring) : option (list atom) :=
  match p with
  | [] => Some []
  | c :: rest =>
      if Ascii.eqb c "\"%char then
        match rest with
        | d :: rest' =>
            if isSyntaxCharacter d
            then option_map (cons (Lit d)) (parsePattern rest')
            else None
        | [] => None
        end
      else if Ascii.eqb c "."%char then option_map (cons Dot) (parsePattern rest)
      else if isSyntaxCharacter c then None
      else option_map (cons (Lit c)) (parsePattern rest)
  end.

Definition matchAtom (a : atom) (c : ascii) : bool :=
  match a with
  | Lit d => Ascii.eqb d c
  | Dot => negb (isLineTerminator c)
  end.

(** The atoms match the input starting at its first code unit. *)
Fixpoint matchAtoms (atoms : list atom) (input : jsstring) {struct atoms} : bool :=
  match atoms, input with
  | [], _ => true
  | _ :: _, [] => false
  | a :: atoms', c :: input' => matchAtom a c && matchAtoms atoms' input'
  end.

(** A [RegExp] object created with the [g] flag: its pattern and its
    mutable [lastIndex]. *)
Record RegExp := { atoms : list atom; lastIndex : nat }.

(** [new RegExp(pattern, 'g')]; [None] when the pattern is outside the
    fragment (which includes every pattern that is a SyntaxError). *)
Definition newRegExp (pattern : jsstring) : option RegExp :=
  option_map (fun a => {| atoms := a; lastIndex := 0 |}) (parsePattern pattern).

(** The first index [i >= start] at which the atoms match, where [input]
    is the subject from [start] on. *)
Fixpoint searchFrom (a : list atom) (input : jsstring) (start : nat) : option nat :=
  if matchAtoms a input then Some start
  else match input with
       | [] => None
       | _ :: input' => searchFrom a input' (S start)
       end.

(** [re.exec(subject)] for a global regular expression: the search
    starts at [lastIndex]; on a match [lastIndex] becomes the end of the
    match and the index of the match is returned, otherwise [lastIndex]
    is reset to 0 and [null] is returned. *)
Definition exec (re : RegExp) (subject : jsstring) : option nat * RegExp :=
  if (length subject <? lastIndex re)%nat
  then (None, {| atoms := atoms re; lastIndex := 0 |})
  else
    match searchFrom (atoms re) (skipn (lastIndex re) subject) (lastIndex re) with
    | Some index =>
        (Some index, {| atoms := atoms re; lastIndex := index + length (atoms re) |})
    | None => (None, {| atoms := atoms re; lastIndex := 0 |})
    end.

(** ** [Array.prototype.sort(compare)]

    The sort is stable, and [compare] here is consistent, so the result
    is the one of a stable insertion sort: [a] stays before [b] unless
    [compare(a, b) > 0]. *)
Section Sort.
Context {A : Type} (compare : A -> A -> Q).

Fixpoint insertSorted (x : A) (sorted : list A) : list A :=
  match sorted with
  | [] => [x]
  | y :: sorted' =>
      if Qle_bool (compare x y) 0 then x :: sorted
      else y :: insertSorted x sorted'
  end.

Fixpoint sort (l : list A) : list A :=
  match l with
  | [] => []
  | x :: l' => insertSorted x (sort l')
  end.
End Sort.

(** ** Arrays *)

(** [arr.slice(start, end)]: a negative argument counts from the end;
    both are then clamped to [0, length]. *)
Definition relative (size x : Z) : Z :=
  if x <? 0 then Z.max (size + x) 0 else Z.min x size.

Definition slice {A : Type} (arr : list A) (start end_ : Z) : list A :=
  let size := Z.of_nat (length arr) in
  let k := relative size start in
  let final := relative size end_ in
  firstn (Z.to_nat (Z.max (final - k) 0)) (skipn (Z.to_nat k) arr).

(** [arr.push(x)] *)
Definition push {A : Type} (arr : list A) (x : A) : list A := arr ++ [x].

End JS.

(** * src/utils/text-anchor.js *)

Module TextAnchor.

(** Maximum length for prefix and suffix context *)
Definition CONTEXT_LENGTH : Z := 32.

Record Anchor := { prefix : jsstring; exact : jsstring; suffix : jsstring }.

Record Range := { from : Z; to : Z }.

(** [createAnchor(doc, from, to)] *)
Definition createAnchor (doc : jsstring) (from to : Z) : Anchor :=
  let exact := JS.substring doc from to in
  let prefixStart := Z.max 0 (from - CONTEXT_LENGTH) in
  let prefix := JS.substring doc prefixStart from in
  let suffixEnd := Z.min (len doc) (to + CONTEXT_LENGTH) in
  let suffix := JS.substring doc to suffixEnd in
  {| prefix := prefix; exact := exact; suffix := suffix |}.

(** [escapeRegex(str)]: [str.replace(/[.*+?^${}()|[\]\\]/g, '\\$&')] puts
    a backslash before every character of the class. *)
Definition isEscaped (c : ascii) : bool :=
  existsb (Ascii.eqb c) (str ".*+?^${}()|[]\").

Definition escapeRegex (s : jsstring) : jsstring :=
  flat_map (fun c => if isEscaped c then ["\"%char; c] else [c]) s.

(** What a call does: it returns a value, throws, or (in the model) has
    not finished when the fuel of its loop is used up. *)
Inductive outcome (A : Type) :=
| Returns (a : A)
| Throws
| OutOfFuel.
Arguments Returns {A} a.
Arguments Throws {A}.
Arguments OutOfFuel {A}.

(** The loop [while ((match = exactRegex.exec(doc)) !== null) { matches.push(...) }];
    [None] when [fuel] iterations were not enough to leave it. *)
Fixpoint matchLoop (fuel : nat) (exactRegex : JS.RegExp) (doc exact : jsstring)
    (matches : list Range) : option (list Range) :=
  match fuel with
  | O => None
  | S fuel' =>
      match JS.exec exactRegex doc with
      | (None, _) => Some matches
      | (Some index, exactRegex') =>
          matchLoop fuel' exactRegex' doc exact
            (matches ++ [{| from := Z.of_nat index;
                            to := Z.of_nat index + len exact |}])
      end
  end.

(** [for (let i = 0; i < minLen; i++) { if (suffix[i] === actualSuffix[i]) score += 1; else break; }]
    with [n] iterations left. *)
Fixpoint suffixLoop (n : nat) (i : Z) (suffix actualSuffix : jsstring) (score : Q) : Q :=
  match n with
  | O => score
  | S n' =>
      if JS.strictEq (JS.index suffix i) (JS.index actualSuffix i)
      then suffixLoop n' (i + 1) suffix actualSuffix (score + 1)%Q
      else score
  end.

(** [for (let i = 1; i <= minLen; i++) { if (prefix[prefix.length - i] === actualPrefix[actualPrefix.length - i]) score += 0.5; else break; }]
    with [n] iterations left. *)
Fixpoint prefixLoop (n : nat) (i : Z) (prefix actualPrefix : jsstring) (score : Q) : Q :=
  match n with
  | O => score
  | S n' =>
      if JS.strictEq (JS.index prefix (len prefix - i))
                     (JS.index actualPrefix (len actualPrefix - i))
      then prefixLoop n' (i + 1) prefix actualPrefix (score + (1 # 2))%Q
      else score
  end.

(** A match with its score: [{ ...pos, score }]. *)
Record Scored := { pos : Range; score : Q }.

(** The callback of [matches.map]. *)
Definition scoreMatch (doc prefix suffix : jsstring) (pos : Range) : Scored :=
  let score := 0%Q in
  let actualPrefixStart := Z.max 0 (from pos - CONTEXT_LENGTH) in
  let actualPrefix := JS.substring doc actualPrefixStart (from pos) in
  let actualSuffixEnd := Z.min (len doc) (to pos + CONTEXT_LENGTH) in
  let actualSuffix := JS.substring doc (to pos) actualSuffixEnd in
  let score :=
    if JS.truthy suffix && JS.startsWith actualSuffix suffix then (score + 100)%Q
    else if JS.truthy suffix && (0 <? len suffix) then
      let minLen := Z.min (len suffix) (len actualSuffix) in
      suffixLoop (Z.to_nat minLen) 0 suffix actualSuffix score
    else score in
  let score :=
    if JS.truthy prefix && JS.endsWith actualPrefix prefix then (score + 50)%Q
    else if JS.truthy prefix && (0 <? len prefix) then
      let minLen := Z.min (len prefix) (len actualPrefix) in
      prefixLoop (Z.to_nat minLen) 1 prefix actualPrefix score
    else score in
  {| pos := pos; score := score |}.

(** The comparator [(a, b) => b.score - a.score]. *)
Definition byScore (a b : Scored) : Q := (score b - score a)%Q.

(** [findAnchorPosition(doc, anchor)]; [fuel] bounds the iterations of
    the match loop. *)
Definition findAnchorPosition (fuel : nat) (doc : jsstring) (anchor : Anchor)
    : outcome (option Range) :=
  let prefix := prefix anchor in
  let exact := exact anchor in
  let suffix := suffix anchor in
  if negb (JS.truthy doc) || (len doc =? 0) then Returns None
  else
    let escapedExact := escapeRegex exact in
    match JS.newRegExp escapedExact with
    | None => Throws
    | Some exactRegex =>
        match matchLoop fuel exactRegex doc exact [] with
        | None => OutOfFuel
        | Some matches =>
            if (length matches =? 0)%nat then Returns None
            else if (length matches =? 1)%nat then
              match nth_error matches 0 with
              | Some m => Returns (Some m)
              | None => Throws
              end
            else
              let scoredMatches := map (scoreMatch doc prefix suffix) matches in
              let scoredMatches := JS.sort byScore scoredMatches in
              match nth_error scoredMatches 0 with
              | Some bestMatch =>
                  Returns (Some {| from := from (pos bestMatch);
                                   to := to (pos bestMatch) |})
              | None => Throws
              end
        end
    end.

(** Fuel that is enough whenever the loop ends at all. *)
Definition enoughFuel (doc : jsstring) : nat := S (S (length doc)).

End TextAnchor.

(** * app.js: the navigation history *)

Module Navigation.

Section WithHandles.
(** File-system handles are opaque objects of the browser. *)
Context {Handle : Type}.

(** An element of [currentPath]: [{name, handle}]. *)
Record PathItem := { name : jsstring; handle : Handle }.

(** An element of [navigationHistory]. *)
Record Entry := {
  path : list PathItem;
  dirHandle : option Handle;
  fileHandle : option Handle;
  filename : jsstring
}.

(** The module-level variables that the three functions read and write. *)
Record App := {
  navigationHistory : list Entry;
  historyIndex : Z;
  currentPath : list PathItem;
  currentDirHandle : option Handle;
  currentFileHandle : option Handle;
  currentFilename : jsstring
}.

(** The state when the module is loaded. *)
Definition init : App :=
  {| navigationHistory := []; historyIndex := -1;
     currentPath := []; currentDirHandle := None;
     currentFileHandle := None; currentFilename := str "untitled" |}.

(** [addToHistory()]; updating the buttons does not change the state. *)
Definition addToHistory (s : App) : App :=
  let navigationHistory := JS.slice (navigationHistory s) 0 (historyIndex s + 1) in
  let navigationHistory :=
    JS.push navigationHistory
      {| path := currentPath s;
         dirHandle := currentDirHandle s;
         fileHandle := currentFileHandle s;
         filename := currentFilename s |} in
  let historyIndex := Z.of_nat (length navigationHistory) - 1 in
  {| navigationHistory := navigationHistory;
     historyIndex := historyIndex;
     currentPath := currentPath s;
     currentDirHandle := currentDirHandle s;
     currentFileHandle := currentFileHandle s;
     currentFilename := currentFilename s |}.

(** What [goBack] and [goForward] do before they reload the editor:
    they return at the guard, or move the index and load the entry
    [state] it points to; reading [state.path] of a missing entry
    throws. *)
Inductive step :=
| Stayed
| Loaded (state : Entry)
| Faulted.

Definition moveTo (s : App) (i : Z) : step * App :=
  match JS.index (navigationHistory s) i with
  | Some state =>
      (Loaded state,
       {| navigationHistory := navigationHistory s;
          historyIndex := i;
          currentPath := path state;
          currentDirHandle := dirHandle state;
          currentFileHandle := fileHandle state;
          currentFilename := filename state |})
  | None =>
      (Faulted,
       {| navigationHistory := navigationHistory s;
          historyIndex := i;
          currentPath := currentPath s;
          currentDirHandle := currentDirHandle s;
          currentFileHandle := currentFileHandle s;
          currentFilename := currentFilename s |})
  end.

(** [goBack()] up to the assignments from [state] (saving the temporary
    changes of a dirty file does not touch the history). *)
Definition goBack (s : App) : step * App :=
  if historyIndex s <=? 0 then (Stayed, s)
  else moveTo s (historyIndex s - 1).

(** [goForward()] up to the assignments from [state]. *)
Definition goForward (s : App) : step * App :=
  if historyIndex s >=? Z.of_nat (length (navigationHistory s)) - 1 then (Stayed, s)
  else moveTo s (historyIndex s + 1).

(** The user navigates to a location (the current path, handles and
    file name change) and the location is recorded. *)
Definition visit (e : Entry) (s : App) : App :=
  addToHistory
    {| navigationHistory := navigationHistory s;
       historyIndex := historyIndex s;
       currentPath := path e;
       currentDirHandle := dirHandle e;
       currentFileHandle := fileHandle e;
       currentFilename := filename e |}.

(** The invariant of the history pointer. *)
Definition wf (s : App) : Prop :=
  -1 <= historyIndex s < Z.of_nat (length (navigationHistory s)).

End WithHandles.
Arguments PathItem : clear implicits.
Arguments Entry : clear implicits.
Arguments App : clear implicits.
Arguments step : clear implicits.

End Navigation.

(** * The history manager of the change-tracking guide *)

Module HistoryManager.

Record Position := { line : Z; column : Z }.
Record Scroll := { top : Z; left : Z }.

Record Snapshot := {
  content : jsstring;
  timestamp : Z;
  cursor : Position;
  scroll : Scroll
}.

Record FileHistory := { snapshots : list Snapshot; currentIndex : Z }.

(** [new FileHistory()] of the guide: no snapshots, index -1. *)
Definition emptyHistory : FileHistory :=
  {| snapshots := []; currentIndex := -1 |}.

(** The invariant of the data model: [-1 <= currentIndex < snapshots.length]. *)
Definition wf (h : FileHistory) : Prop :=
  -1 <= currentIndex h < Z.of_nat (length (snapshots h)).

(** Modelled from the spec: the body of [createSnapshot] of
    [src/storage/history-manager.js], which is not among the sources, on
    one file's history.  The snapshots after [currentIndex] are
    discarded, the new snapshot is appended, and [currentIndex] is set to
    [snapshots.length - 1]. *)
Definition append (h : FileHistory) (s : Snapshot) : FileHistory :=
  let kept := firstn (Z.to_nat (currentIndex h + 1)) (snapshots h) in
  let snapshots := kept ++ [s] in
  {| snapshots := snapshots;
     currentIndex := Z.of_nat (length snapshots) - 1 |}.

(** Modelled from the spec: the body of [undo] of
    [src/storage/history-manager.js] on one file's history.  If
    [currentIndex <= 0] it returns null; else it decrements
    [currentIndex] and returns the snapshot now pointed to. *)
Definition back (h : FileHistory) : option Snapshot * FileHistory :=
  if currentIndex h <=? 0 then (None, h)
  else
    let i := currentIndex h - 1 in
    (JS.index (snapshots h) i, {| snapshots := snapshots h; currentIndex := i |}).

(** Modelled from the spec: the body of [redo] of
    [src/storage/history-manager.js] on one file's history.  If
    [currentIndex >= snapshots.length - 1] it returns null; else it
    increments [currentIndex] and returns the snapshot now pointed to. *)
Definition forward (h : FileHistory) : option Snapshot * FileHistory :=
  if currentIndex h >=? Z.of_nat (length (snapshots h)) - 1 then (None, h)
  else
    let i := currentIndex h + 1 in
    (JS.index (snapshots h) i, {| snapshots := snapshots h; currentIndex := i |}).

(** The manager: [histories], a map from file-relative path to history.
    A path without an entry behaves as the empty history.  Paths are only
    used as keys and are modelled as [string]. *)
Record Manager := { histories : gmap string FileHistory }.

Definition empty : Manager := {| histories := ∅ |}.

Definition historyOf (m : Manager) (filePath : string) : FileHistory :=
  default emptyHistory (histories m !! filePath).

(** Modelled from the spec: [createSnapshot(filePath, content, cursor, scroll)]
    of [src/storage/history-manager.js]; the history of a file is created
    lazily on its first snapshot, and [now] is the time of the call. *)
Definition createSnapshot (m : Manager) (filePath : string) (now : Z)
    (content : jsstring) (cursor : Position) (scroll : Scroll) : Manager :=
  let s := {| content := content; timestamp := now;
              cursor := cursor; scroll := scroll |} in
  {| histories := <[filePath := append (historyOf m filePath) s]> (histories m) |}.

(** Modelled from the spec: [undo(filePath)] of
    [src/storage/history-manager.js]. *)
Definition undo (m : Manager) (filePath : string) : option Snapshot * Manager :=
  match histories m !! filePath with
  | None => (None, m)
  | Some h =>
      let '(r, h') := back h in
      (r, {| histories := <[filePath := h']> (histories m) |})
  end.

(** Modelled from the spec: [redo(filePath)] of
    [src/storage/history-manager.js]. *)
Definition redo (m : Manager) (filePath : string) : option Snapshot * Manager :=
  match histories m !! filePath with
  | None => (None, m)
  | Some h =>
      let '(r, h') := forward h in
      (r, {| histories := <[filePath := h']> (histories m) |})
  end.

(** Modelled from the spec: [canUndo(filePath)] is [currentIndex > 0]. *)
Definition canUndo (m : Manager) (filePath : string) : bool :=
  0 <? currentIndex (historyOf m filePath).

(** Modelled from the spec: [canRedo(filePath)] is
    [currentIndex < snapshots.length - 1]. *)
Definition canRedo (m : Manager) (filePath : string) : bool :=
  let h := historyOf m filePath in
  currentIndex h <? Z.of_nat (length (snapshots h)) - 1.

(** Modelled from the spec: [clearHistory(filePath)] removes the entry. *)
Definition clearHistory (m : Manager) (filePath : string) : Manager :=
  {| histories := delete filePath (histories m) |}.

(** Modelled from the spec: [clearAllHistories()]. *)
Definition clearAllHistories (m : Manager) : Manager := empty.

End HistoryManager.

(** * Further built-ins of the platform, as [app.js] uses them *)

Module JSLib.

(** [a === b] on two strings. *)
Fixpoint strictEquals (a b : jsstring) : bool :=
  match a, b with
  | [], [] => true
  | c :: a', d :: b' => Ascii.eqb c d && strictEquals a' b'
  | _, _ => false
  end.

(** [arr.join(sep)] on an array of strings. *)
Fixpoint join (sep : jsstring) (arr : list jsstring) : jsstring :=
  match arr with
  | [] => []
  | x :: rest =>
      match rest with
      | [] => x
      | _ :: _ => x ++ sep ++ join sep rest
      end
  end.

(** [s.split(sep)] for a separator of one code unit: the pieces between
    the separators, the empty ones included; there is always one piece
    at least. *)
Fixpoint split (sep : ascii) (s : jsstring) : list jsstring :=
  match s with
  | [] => [[]]
  | c :: s' =>
      if Ascii.eqb c sep then [] :: split sep s'
      else match split sep s' with
           | piece :: pieces => (c :: piece) :: pieces
           | [] => [[c]]
           end
  end.

(** [arr.pop()]: the last element (or [undefined]) and the array without it. *)
Definition pop {A : Type} (arr : list A) : option A * list A :=
  match rev arr with
  | [] => (None, [])
  | x :: front => (Some x, rev front)
  end.

(** [s.toLowerCase()] on the code units below 256: the letters [A-Z] and
    the capital letters of Latin-1 (192-214 and 216-222) move up by 32. *)
Definition toLowerCaseUnit (c : ascii) : ascii :=
  let n := nat_of_ascii c in
  if ((65 <=? n) && (n <=? 90) || (192 <=? n) && (n <=? 214) || (216 <=? n) && (n <=? 222))%nat
  then ascii_of_nat (n + 32)
  else c.

Definition toLowerCase (s : jsstring) : jsstring := map toLowerCaseUnit s.

(** [str.split(sep).pop()]: the piece after the last separator. *)
Definition lastPiece (sep : ascii) (s : jsstring) : option jsstring :=
  fst (pop (split sep s)).

(** The [Storage] object behind [localStorage]: string keys, string
    values; [getItem] gives [null] for a missing key.  The quota is not
    modelled: [setItem] always stores. *)
Definition Storage := gmap jsstring jsstring.

Definition getItem (key : jsstring) (st : Storage) : option jsstring := st !! key.
Definition setItem (key value : jsstring) (st : Storage) : Storage := <[key := value]> st.
Definition removeItem (key : jsstring) (st : Storage) : Storage := delete key st.

(** ['prefix' + key] where [key] is a string or [null]. *)
Definition toString (key : option jsstring) : jsstring :=
  match key with
  | Some k => k
  | None => str "null"
  end.

(** The list of active timers of the window: [setInterval] returns a
    handle that is not in the list, a positive integer. *)
Record Timers := { active : list positive; nextHandle : positive }.

Definition setInterval (t : Timers) : positive * Timers :=
  (nextHandle t,
   {| active := nextHandle t :: active t; nextHandle := Pos.succ (nextHandle t) |}).

Definition clearInterval (h : positive) (t : Timers) : Timers :=
  {| active := List.filter (fun x => negb (Pos.eqb x h)) (active t);
     nextHandle := nextHandle t |}.

End JSLib.

(** * app.js: file names *)

Module FileNames.

(** The values of [langMap], and what [getLanguageExtension] returns
    besides them. *)
Inductive language :=
| JavaScript (jsx typescript : bool)
| Python | Go | Rust | Php | Java | Groovy | Cpp | Xml | Yaml
| Shell | Ruby | Html | Css | Json | Markdown
| NoLanguage                       (* the empty array [[]] *)
| Inherited (key : jsstring).      (* a member of [Object.prototype] *)

Definition langMap : list (jsstring * language) :=
  [ (str "js", JavaScript false false);
    (str "jsx", JavaScript true false);
    (str "ts", JavaScript false true);
    (str "tsx", JavaScript true true);
    (str "py", Python);
    (str "go", Go);
    (str "rs", Rust);
    (str "php", Php);
    (str "java", Java);
    (str "groovy", Groovy);
    (str "c", Cpp);
    (str "cpp", Cpp);
    (str "cc", Cpp);
    (str "cxx", Cpp);
    (str "h", Cpp);
    (str "hpp", Cpp);
    (str "xml", Xml);
    (str "yaml", Yaml);
    (str "yml", Yaml);
    (str "sh", Shell);
    (str "bash", Shell);
    (str "rb", Ruby);
    (str "html", Html);
    (str "htm", Html);
    (str "css", Css);
    (str "scss", Css);
    (str "json", Json);
    (str "md", Markdown);
    (str "markdown", Markdown) ].

(** The properties that an object literal inherits from
    [Object.prototype]; their values are functions or objects, hence
    truthy. *)
Definition objectPrototypeKeys : list jsstring :=
  [ str "constructor"; str "__proto__"; str "hasOwnProperty"; str "isPrototypeOf";
    str "propertyIsEnumerable"; str "toLocaleString"; str "toString"; str "valueOf";
    str "__defineGetter__"; str "__defineSetter__"; str "__lookupGetter__";
    str "__lookupSetter__" ].

(** [langMap[ext]]: an own property, else an inherited one, else
    [undefined]. *)
Fixpoint get (ext : jsstring) (object : list (jsstring * language)) : option language :=
  match object with
  | [] =>
      if existsb (JSLib.strictEquals ext) objectPrototypeKeys
      then Some (Inherited ext) else None
  | (key, value) :: rest =>
      if JSLib.strictEquals ext key then Some value else get ext rest
  end.

(** [filename.split(sep).pop().toLowerCase()]; [split] gives one piece at
    least, so that [pop] never gives [undefined]. *)
Definition lowerLastPiece (sep : ascii) (filename : jsstring) : jsstring :=
  match JSLib.lastPiece sep filename with
  | Some piece => JSLib.toLowerCase piece
  | None => []
  end.

(** [getLanguageExtension(filename)] *)
Definition getLanguageExtension (filename : jsstring) : language :=
  let basename := lowerLastPiece "/" filename in
  if JSLib.strictEquals basename (str "jenkinsfile") then Groovy
  else if JSLib.strictEquals basename (str ".gitignore") || JS.endsWith basename (str "ignore")
  then Shell
  else
    let ext := lowerLastPiece "." filename in
    match get ext langMap with
    | Some l => l
    | None => NoLanguage
    end.

(** [isMarkdownFile(filename)] *)
Definition isMarkdownFile (filename : jsstring) : bool :=
  let ext := lowerLastPiece "." filename in
  JSLib.strictEquals ext (str "md") || JSLib.strictEquals ext (str "markdown").

End FileNames.

(** * app.js: the autosave timer *)

Module Autosave.

(** [autosaveEnabled], [autosaveInterval] and the timers of the window. *)
Record State := {
  autosaveEnabled : bool;
  autosaveInterval : option positive;
  timers : JSLib.Timers
}.

(** The state when the module is loaded, in a window with the timers [t]. *)
Definition init (t : JSLib.Timers) : State :=
  {| autosaveEnabled := false; autosaveInterval := None; timers := t |}.

(** [startAutosave()]; a timer handle is a positive integer, hence truthy. *)
Definition startAutosave (s : State) : State :=
  let timers :=
    match autosaveInterval s with
    | Some h => JSLib.clearInterval h (timers s)
    | None => timers s
    end in
  let (h, timers) := JSLib.setInterval timers in
  {| autosaveEnabled := autosaveEnabled s; autosaveInterval := Some h; timers := timers |}.

(** [stopAutosave()] *)
Definition stopAutosave (s : State) : State :=
  match autosaveInterval s with
  | Some h =>
      {| autosaveEnabled := autosaveEnabled s; autosaveInterval := None;
         timers := JSLib.clearInterval h (timers s) |}
  | None => s
  end.

(** [toggleAutosave(enabled)] *)
Definition toggleAutosave (enabled : bool) (s : State) : State :=
  let s := {| autosaveEnabled := enabled; autosaveInterval := autosaveInterval s;
              timers := timers s |} in
  if enabled then startAutosave s else stopAutosave s.

End Autosave.

(** * app.js: the workspace

    The module-level variables of [app.js] and the handlers that change
    them.  A handler is an [async] function; it is modelled run to its
    end, with the answers of the browser (the text of the editor, the
    folder the user picks, the text of a file) as arguments.  The arrays
    in [navigationHistory] are copies ([[...currentPath]]), so that
    [push] and [pop] on [currentPath] do not reach them: lists model
    them. *)

Module Workspace.
Import Navigation.

Section WithHandles.
(** Handles and their [name]; the [File] that [getFile()] gives for a
    handle has the name of the handle. *)
Context {Handle : Type} (nameOf : Handle -> jsstring).

Record State := {
  app : App Handle;
  isRichMode : bool;
  editorView : bool;            (* whether [editorView] is not [null] *)
  isDirty : bool;
  originalContent : jsstring;
  localStorage : JSLib.Storage
}.

(** Assignments to one variable. *)
Definition setApp (a : App Handle) (s : State) : State :=
  {| app := a; isRichMode := isRichMode s; editorView := editorView s;
     isDirty := isDirty s; originalContent := originalContent s;
     localStorage := localStorage s |}.

Definition setRichMode (b : bool) (s : State) : State :=
  {| app := app s; isRichMode := b; editorView := editorView s;
     isDirty := isDirty s; originalContent := originalContent s;
     localStorage := localStorage s |}.

Definition setEditorView (b : bool) (s : State) : State :=
  {| app := app s; isRichMode := isRichMode s; editorView := b;
     isDirty := isDirty s; originalContent := originalContent s;
     localStorage := localStorage s |}.

Definition setDirty (b : bool) (s : State) : State :=
  {| app := app s; isRichMode := isRichMode s; editorView := editorView s;
     isDirty := b; originalContent := originalContent s;
     localStorage := localStorage s |}.

Definition setOriginalContent (c : jsstring) (s : State) : State :=
  {| app := app s; isRichMode := isRichMode s; editorView := editorView s;
     isDirty := isDirty s; originalContent := c;
     localStorage := localStorage s |}.

Definition setLocalStorage (st : JSLib.Storage) (s : State) : State :=
  {| app := app s; isRichMode := isRichMode s; editorView := editorView s;
     isDirty := isDirty s; originalContent := originalContent s;
     localStorage := st |}.

Definition setCurrentPath (p : list (PathItem Handle)) (s : State) : State :=
  setApp {| navigationHistory := navigationHistory (app s);
            historyIndex := historyIndex (app s);
            currentPath := p;
            currentDirHandle := currentDirHandle (app s);
            currentFileHandle := currentFileHandle (app s);
            currentFilename := currentFilename (app s) |} s.

Definition setCurrentDirHandle (d : option Handle) (s : State) : State :=
  setApp {| navigationHistory := navigationHistory (app s);
            historyIndex := historyIndex (app s);
            currentPath := currentPath (app s);
            currentDirHandle := d;
            currentFileHandle := currentFileHandle (app s);
            currentFilename := currentFilename (app s) |} s.

Definition setCurrentFileHandle (f : option Handle) (s : State) : State :=
  setApp {| navigationHistory := navigationHistory (app s);
            historyIndex := historyIndex (app s);
            currentPath := currentPath (app s);
            currentDirHandle := currentDirHandle (app s);
            currentFileHandle := f;
            currentFilename := currentFilename (app s) |} s.

Definition setCurrentFilename (n : jsstring) (s : State) : State :=
  setApp {| navigationHistory := navigationHistory (app s);
            historyIndex := historyIndex (app s);
            currentPath := currentPath (app s);
            currentDirHandle := currentDirHandle (app s);
            currentFileHandle := currentFileHandle (app s);
            currentFilename := n |} s.

(** How a handler ends: normally, or with a [TypeError] from reading a
    property of [undefined]; the variables keep what was assigned. *)
Inductive completion :=
| Normal (s : State)
| Throw (s : State).

Definition stateOf (c : completion) : State :=
  match c with Normal s => s | Throw s => s end.

Definition TEMP_STORAGE_PREFIX : jsstring := str "fletcher_temp_".

(** Whether a handle, or the result of [getItem], is not [null]. *)
Definition notNull {A : Type} (x : option A) : bool :=
  match x with Some _ => true | None => false end.

(** [getFilePathKey()] *)
Definition getFilePathKey (s : State) : option jsstring :=
  match currentFileHandle (app s) with
  | None => None
  | Some _ =>
      let pathParts := map name (currentPath (app s)) in
      let pathParts := JS.push pathParts (currentFilename (app s)) in
      Some (JSLib.join (str "/") pathParts)
  end.

(** Whether a key (a string or [null]) is truthy. *)
Definition truthyKey (key : option jsstring) : bool :=
  match key with
  | Some k => JS.truthy k
  | None => false
  end.

(** [saveTempChanges()], where [content] is what [getEditorContent()]
    returns. *)
Definition saveTempChanges (content : jsstring) (s : State) : State :=
  let key := getFilePathKey s in
  if negb (truthyKey key) || negb (isDirty s) then s
  else setLocalStorage
         (JSLib.setItem (TEMP_STORAGE_PREFIX ++ JSLib.toString key) content (localStorage s)) s.

(** [loadTempChanges(key)] *)
Definition loadTempChanges (key : option jsstring) (s : State) : option jsstring :=
  JSLib.getItem (TEMP_STORAGE_PREFIX ++ JSLib.toString key) (localStorage s).

(** [clearTempChanges(key)] *)
Definition clearTempChanges (key : option jsstring) (s : State) : State :=
  setLocalStorage
    (JSLib.removeItem (TEMP_STORAGE_PREFIX ++ JSLib.toString key) (localStorage s)) s.

(** [hasTempChanges(key)] *)
Definition hasTempChanges (key : option jsstring) (s : State) : bool :=
  notNull (JSLib.getItem (TEMP_STORAGE_PREFIX ++ JSLib.toString key) (localStorage s)).



(** The listener of document changes, the same in both editors, for the
    new text [currentContent]. *)
Definition onDocChanged (currentContent : jsstring) (s : State) : State :=
  if JSLib.strictEquals currentContent (originalContent s) then
    if isDirty s then
      let s := setDirty false s in
      let key := getFilePathKey s in
      if truthyKey key then clearTempChanges key s else s
    else s
  else
    if negb (isDirty s) then setDirty true s else s.

(** [initEditor(initialContent, filename)], as far as the variables go.
    [milkdown] tells whether the rich editor starts when it is asked
    for; if it does not, the source editor is created instead. *)
Definition initEditor (initialContent filename : jsstring) (milkdown : bool) (s : State) : State :=
  let s := setOriginalContent initialContent s in
  let s := setEditorView false s in
  let shouldUseRichEditor := FileNames.isMarkdownFile filename && isRichMode s in
  let s := if shouldUseRichEditor && milkdown then s else setEditorView true s in
  setDirty false s.

(** The state when the module is loaded: [initEditor()] has run;
    [stored] is what [localStorage] holds from earlier visits. *)
Definition init (stored : JSLib.Storage) : State :=
  initEditor [] (str "untitled") true
    {| app := Navigation.init; isRichMode := false; editorView := false;
       isDirty := false; originalContent := []; localStorage := stored |}.

(** [if (isDirty && currentFileHandle) saveTempChanges()] *)
Definition saveIfDirty (content : jsstring) (s : State) : State :=
  if isDirty s && notNull (currentFileHandle (app s))
  then saveTempChanges content s else s.

(** [toggleRichMode()] *)
Definition toggleRichMode (content : jsstring) (milkdown : bool) (s : State) : State :=
  if negb (FileNames.isMarkdownFile (currentFilename (app s))) then s
  else
    let currentContent := content in
    let s := setRichMode (negb (isRichMode s)) s in
    initEditor currentContent (currentFilename (app s)) milkdown s.

(** [navigateToPathIndex(index)] *)
Definition navigateToPathIndex (index : Z) (content : jsstring) (milkdown : bool)
    (s : State) : completion :=
  if index >=? Z.of_nat (length (currentPath (app s))) then Normal s
  else
    let s := saveIfDirty content s in
    let s := setCurrentPath (JS.slice (currentPath (app s)) 0 (index + 1)) s in
    match JS.index (currentPath (app s)) (Z.of_nat (length (currentPath (app s))) - 1) with
    | None => Throw s
    | Some last =>
        let s := setCurrentDirHandle (Some (handle last)) s in
        let s := setCurrentFileHandle None s in
        let s := setCurrentFilename [] s in
        let s := initEditor [] (str "untitled") milkdown s in
        Normal (setApp (addToHistory (app s)) s)
    end.

(** [openFolder()]; [picked] is the folder that [showDirectoryPicker]
    resolves to, or [None] when it rejects (the user dismisses it). *)
Definition openFolder (supported : bool) (picked : option Handle) (content : jsstring)
    (milkdown : bool) (s : State) : State :=
  if negb supported then s
  else
    let s := saveIfDirty content s in
    match picked with
    | None => s
    | Some dirHandle =>
        let s := setCurrentDirHandle (Some dirHandle) s in
        let s := setCurrentPath [{| name := nameOf dirHandle; handle := dirHandle |}] s in
        let s := setCurrentFileHandle None s in
        let s := setCurrentFilename [] s in
        let s := initEditor [] (str "untitled") milkdown s in
        setApp (addToHistory (app s)) s
    end.

(** [goFolderUp()] *)
Definition goFolderUp (supported : bool) (picked : option Handle) (content : jsstring)
    (milkdown : bool) (s : State) : completion :=
  if (length (currentPath (app s)) =? 0)%nat then Normal s
  else
    let s := saveIfDirty content s in
    if (length (currentPath (app s)) =? 1)%nat
    then Normal (openFolder supported picked content milkdown s)
    else
      let s := setCurrentPath (snd (JSLib.pop (currentPath (app s)))) s in
      match JS.index (currentPath (app s)) (Z.of_nat (length (currentPath (app s))) - 1) with
      | None => Throw s
      | Some last =>
          let s := setCurrentDirHandle (Some (handle last)) s in
          let s := setCurrentFileHandle None s in
          let s := setCurrentFilename [] s in
          let s := initEditor [] (str "untitled") milkdown s in
          Normal (setApp (addToHistory (app s)) s)
      end.

(** [navigateToDirectory(dirHandle)] *)
Definition navigateToDirectory (dirHandle : Handle) (content : jsstring) (milkdown : bool)
    (s : State) : State :=
  let s := saveIfDirty content s in
  let s := setCurrentPath
             (JS.push (currentPath (app s))
                {| name := nameOf dirHandle; handle := dirHandle |}) s in
  let s := setCurrentDirHandle (Some dirHandle) s in
  let s := setCurrentFileHandle None s in
  let s := setCurrentFilename [] s in
  let s := initEditor [] (str "untitled") milkdown s in
  setApp (addToHistory (app s)) s.

(** What [openFileFromPicker], [goBack] and [goForward] do once the file
    is read and the editor is initialised with its text: if there are
    unsaved changes [tempContent], they replace the text of the source
    editor (whose listener runs), the rich editor is started again on
    them where [again] says so, and the file is dirty. *)
Definition applyTempChanges (tempContent : option jsstring) (again : State -> bool)
    (filename : jsstring) (milkdown : bool) (s : State) : State :=
  match tempContent with
  | None => s
  | Some tempContent =>
      let s := if editorView s then onDocChanged tempContent s else s in
      let s := if again s then initEditor tempContent filename milkdown s else s in
      setDirty true s
  end.

(** [openFileFromPicker(fileHandle)] in a run where the file is read:
    [fileContent] is its text. *)
Definition openFileFromPicker (fileHandle : Handle) (fileContent content : jsstring)
    (milkdown milkdown' : bool) (s : State) : State :=
  let s := saveIfDirty content s in
  let s := setCurrentFileHandle (Some fileHandle) s in
  let fileName := nameOf fileHandle in
  let s := setCurrentFilename fileName s in
  let s := setRichMode (FileNames.isMarkdownFile fileName) s in
  let pathKey := getFilePathKey s in
  let tempContent := loadTempChanges pathKey s in
  let s := setDirty (notNull tempContent) s in
  let s := initEditor fileContent fileName milkdown s in
  let s := applyTempChanges tempContent
             (fun s => isRichMode s && FileNames.isMarkdownFile fileName)
             fileName milkdown' s in
  setApp (addToHistory (app s)) s.

(** The end of [goBack] and of [goForward], after the assignments from
    the history entry, in a run where the file (if any) is read. *)
Definition reload (fileContent : jsstring) (milkdown milkdown' : bool) (s : State) : State :=
  match currentFileHandle (app s) with
  | Some fileHandle =>
      let fileName := nameOf fileHandle in
      let s := setCurrentFilename fileName s in
      let pathKey := getFilePathKey s in
      let tempContent := loadTempChanges pathKey s in
      let s := setRichMode (FileNames.isMarkdownFile fileName) s in
      let s := initEditor fileContent fileName milkdown s in
      applyTempChanges tempContent
        (fun s => negb (editorView s) && isRichMode s && FileNames.isMarkdownFile fileName)
        fileName milkdown' s
  | None => initEditor [] (str "untitled") milkdown s
  end.

(** [goBack()] *)
Definition goBack (fileContent content : jsstring) (milkdown milkdown' : bool)
    (s : State) : completion :=
  match Navigation.goBack (app s) with
  | (Stayed, _) => Normal s
  | (Loaded _, a) => Normal (reload fileContent milkdown milkdown' (setApp a (saveIfDirty content s)))
  | (Faulted, a) => Throw (setApp a (saveIfDirty content s))
  end.

(** [goForward()] *)
Definition goForward (fileContent content : jsstring) (milkdown milkdown' : bool)
    (s : State) : completion :=
  match Navigation.goForward (app s) with
  | (Stayed, _) => Normal s
  | (Loaded _, a) => Normal (reload fileContent milkdown milkdown' (setApp a (saveIfDirty content s)))
  | (Faulted, a) => Throw (setApp a (saveIfDirty content s))
  end.

(** [saveFile()]; [picked] is the handle that [showSaveFilePicker]
    resolves to, or [None] when it rejects; [written] tells whether the
    text is written and the stream closed. *)
Definition saveFile (supported : bool) (picked : option Handle) (written : bool)
    (content : jsstring) (s : State) : State :=
  if negb supported then s
  else if negb (isDirty s) && notNull (currentFileHandle (app s)) then s
  else
    let opened :=
      match currentFileHandle (app s) with
      | Some _ => Some s
      | None =>
          match picked with
          | Some fileHandle =>
              Some (setCurrentFilename (nameOf fileHandle)
                      (setCurrentFileHandle (Some fileHandle) s))
          | None => None
          end
      end in
    match opened with
    | None => s
    | Some s =>
        if negb written then s
        else
          let s := setDirty false s in
          let s := setOriginalContent content s in
          let pathKey := getFilePathKey s in
          if truthyKey pathKey then clearTempChanges pathKey s else s
    end.

(** One tick of the autosave timer. *)
Definition autosaveTick (supported : bool) (written : bool) (content : jsstring)
    (s : State) : State :=
  if isDirty s && notNull (currentFileHandle (app s))
  then saveFile supported None written content s else s.

(** [newFile()]; [nonEmpty] tells whether the source editor holds text,
    [confirmed] what the user answers. *)
Definition newFile (nonEmpty confirmed milkdown : bool) (s : State) : State :=
  if editorView s && nonEmpty && negb confirmed then s
  else
    let s := setCurrentFileHandle None s in
    let s := setCurrentFilename (str "untitled") s in
    initEditor [] (str "untitled") milkdown s.


(** What the user and the editor can do to the page.  A breadcrumb
    carries the index of its path item, a row of the file picker its
    handle. *)
Inductive event :=
| EditorChanged (currentContent : jsstring)
| RichToggleClicked (content : jsstring) (milkdown : bool)
| BreadcrumbClicked (index : nat) (content : jsstring) (milkdown : bool)
| FolderUpClicked (supported : bool) (picked : option Handle) (content : jsstring)
    (milkdown : bool)
| OpenFolderClicked (supported : bool) (picked : option Handle) (content : jsstring)
    (milkdown : bool)
| DirectoryClicked (dirHandle : Handle) (content : jsstring) (milkdown : bool)
| FileClicked (fileHandle : Handle) (fileContent content : jsstring) (milkdown milkdown' : bool)
| BackClicked (fileContent content : jsstring) (milkdown milkdown' : bool)
| ForwardClicked (fileContent content : jsstring) (milkdown milkdown' : bool)
| SaveRequested (supported : bool) (picked : option Handle) (written : bool)
    (content : jsstring)
| AutosaveTicked (supported : bool) (written : bool) (content : jsstring)
| NewClicked (nonEmpty confirmed milkdown : bool).

Definition dispatch (e : event) (s : State) : completion :=
  match e with
  | EditorChanged c => Normal (onDocChanged c s)
  | RichToggleClicked c m => Normal (toggleRichMode c m s)
  | BreadcrumbClicked i c m => navigateToPathIndex (Z.of_nat i) c m s
  | FolderUpClicked sup p c m => goFolderUp sup p c m s
  | OpenFolderClicked sup p c m => Normal (openFolder sup p c m s)
  | DirectoryClicked d c m => Normal (navigateToDirectory d c m s)
  | FileClicked f fc c m m' => Normal (openFileFromPicker f fc c m m' s)
  | BackClicked fc c m m' => goBack fc c m m' s
  | ForwardClicked fc c m m' => goForward fc c m m' s
  | SaveRequested sup p w c => Normal (saveFile sup p w c s)
  | AutosaveTicked sup w c => Normal (autosaveTick sup w c s)
  | NewClicked n c m => Normal (newFile n c m s)
  end.

(** The state after a sequence of events. *)
Definition run (events : list event) (s : State) : State :=
  fold_left (fun s e => stateOf (dispatch e s)) events s.

End WithHandles.
Arguments State : clear implicits.
Arguments completion : clear implicits.
Arguments event : clear implicits.

End Workspace.

(** * Notions used to state the properties of the anchors *)

Module AnchorSpec.
Import TextAnchor.

(** The spec's slice notation [document[a:b]] for [0 <= a <= b <= length]:
    the characters at positions [a], ..., [b - 1]. *)
Definition slice (doc : jsstring) (a b : Z) : jsstring :=
  skipn (Z.to_nat a) (firstn (Z.to_nat b) doc).

(** [exact] occurs literally in [doc] at position [p]. *)
Definition occursAt (doc exact : jsstring) (p : Z) : Prop :=
  0 <= p /\ p + len exact <= len doc /\ slice doc p (p + len exact) = exact.

(** The range of an occurrence of [exact] at index [i]. *)
Definition rangeAt (exact : jsstring) (i : nat) : Range :=
  {| from := Z.of_nat i; to := Z.of_nat i + len exact |}.

(** The match loop of [findAnchorPosition(doc, anchor)] ends with the
    array [matches]. *)
Definition collects (doc exact : jsstring) (matches : list Range) : Prop :=
  exists fuel exactRegex,
    JS.newRegExp (escapeRegex exact) = Some exactRegex /\
    matchLoop fuel exactRegex doc exact [] = Some matches.

(** [exact] is found at index [i] of [doc]. *)
Definition hit (doc e : jsstring) (i : nat) : bool :=
  JS.startsWith (skipn i doc) e.

(** The regular expression made from [e], about to search from [L]. *)
Definition literal (e : jsstring) (L : nat) : JS.RegExp :=
  {| JS.atoms := map JS.Lit e; JS.lastIndex := L |}.

(** The indices a left-to-right scan from [L] visits: each is the first
    hit at or after the end of the previous one. *)
Inductive Scan (doc e : jsstring) : nat -> list nat -> Prop :=
| Scan_done (L : nat) :
    (forall j, (L <= j <= length doc)%nat -> hit doc e j = false) ->
    Scan doc e L []
| Scan_hit (L i : nat) (rest : list nat) :
    (L <= i <= length doc)%nat ->
    hit doc e i = true ->
    (forall j, (L <= j < i)%nat -> hit doc e j = false) ->
    Scan doc e (i + length e) rest ->
    Scan doc e L (i :: rest).

(** The number of leading characters on which two strings agree. *)
Fixpoint commonPrefixLength (s t : jsstring) : nat :=
  match s, t with
  | c :: s', d :: t' => if Ascii.eqb c d then S (commonPrefixLength s' t') else 0
  | _, _ => 0
  end.

(** The number of trailing characters on which two strings agree. *)
Definition commonSuffixLength (s t : jsstring) : nat :=
  commonPrefixLength (rev s) (rev t).

(** The context of a candidate in the current document. *)
Definition actualPrefix (doc : jsstring) (m : Range) : jsstring :=
  slice doc (Z.max 0 (from m - 32)) (from m).

Definition actualSuffix (doc : jsstring) (m : Range) : jsstring :=
  slice doc (to m) (Z.min (len doc) (to m + 32)).

(** The score of a candidate in the words of the specification:
    +100 when the actual suffix starts with the stored, non-empty suffix,
    else +1 per character matching from the start of the suffix until
    the first mismatch; +50 when the actual prefix ends with the stored,
    non-empty prefix, else +0.5 per character matching backward from the
    end of the prefix until the first mismatch. *)
Definition suffixScore (suffix actual : jsstring) : Q :=
  if JS.truthy suffix && JS.startsWith actual suffix then 100
  else inject_Z (Z.of_nat (commonPrefixLength suffix actual)).

Definition prefixScore (prefix actual : jsstring) : Q :=
  if JS.truthy prefix && JS.endsWith actual prefix then 50
  else (1 # 2) * inject_Z (Z.of_nat (commonSuffixLength prefix actual)).

Definition specScore (doc : jsstring) (anchor : Anchor) (m : Range) : Q :=
  suffixScore (suffix anchor) (actualSuffix doc m) +
  prefixScore (prefix anchor) (actualPrefix doc m).

(** The context of a candidate matches the stored context in full. *)
Definition sameContext (doc : jsstring) (anchor : Anchor) (m : Range) : Prop :=
  (suffix anchor = [] \/ JS.startsWith (actualSuffix doc m) (suffix anchor) = true) /\
  (prefix anchor = [] \/ JS.endsWith (actualPrefix doc m) (prefix anchor) = true).

End AnchorSpec.

(** * Notions used to state the properties of the histories *)

Module HistorySpec.

(** [arr'] with pointer [i'] is [arr] cut after index [i] with [x]
    appended: the elements up to [i] are kept, [x] is at [i + 1], it is
    the last element, and the pointer is on it. *)
Definition truncatedAppend {A : Type}
    (arr : list A) (i : Z) (x : A) (arr' : list A) (i' : Z) : Prop :=
  Z.of_nat (length arr') = i + 2 /\
  i' = Z.of_nat (length arr') - 1 /\
  JS.index arr' i' = Some x /\
  (forall j, j <= i -> JS.index arr' j = JS.index arr j) /\
  (forall j, i + 1 < j -> JS.index arr' j = None).

End HistorySpec.

(** * Notions used to state the properties of the workspace *)

Module WorkspaceSpec.
Import Navigation Workspace.

(** A string without the code unit [c]. *)
Definition without (c : ascii) (s : jsstring) : Prop := ~ In c s.

(** The timer handles in use are below the next one. *)
Definition fresh (t : JSLib.Timers) : Prop :=
  Forall (fun h => (h < JSLib.nextHandle t)%positive) (JSLib.active t).

Section WithHandles.
Context {Handle : Type} (nameOf : Handle -> jsstring).

(** The directory that a path leads to: the handle of its last item,
    [null] for the empty path. *)
Definition dirOf (path : list (PathItem Handle)) : option Handle :=
  match rev path with
  | [] => None
  | item :: _ => Some (handle item)
  end.




(** Two states of the navigation with the same history, pointer, path
    and directory. *)
Definition samePlace (a a' : App Handle) : Prop :=
  navigationHistory a' = navigationHistory a /\
  historyIndex a' = historyIndex a /\
  currentPath a' = currentPath a /\
  currentDirHandle a' = currentDirHandle a.




End WithHandles.

(** A small workspace for examples: the folder [notes] with the folder
    [drafts] and the files [todo.md] and [main.js]; handles are numbers. *)
Module Samples.

Definition nameOf (h : nat) : jsstring :=
  match h with
  | 0%nat => str "notes"
  | 1%nat => str "drafts"
  | 2%nat => str "todo.md"
  | _ => str "main.js"
  end.

(** The folder [notes] is open. *)
Definition inFolder : State nat :=
  run nameOf [OpenFolderClicked true (Some 0%nat) [] true] (init (empty : JSLib.Storage)).

(** The user has gone on into [drafts]. *)
Definition deep : State nat :=
  run nameOf [DirectoryClicked 1%nat [] true] inFolder.

(** [main.js] is open in [notes]. *)
Definition opened : State nat :=
  run nameOf [FileClicked 3%nat (str "let x = 1;") [] true true] inFolder.

(** The user has changed its text. *)
Definition editing : State nat :=
  run nameOf [EditorChanged (str "let x = 2;")] opened.

(** [todo.md] is open in [notes] and changed. *)
Definition writing : State nat :=
  run nameOf [FileClicked 2%nat (str "# Todo") [] true true;
              EditorChanged (str "# Todo list")] inFolder.

End Samples.

End WorkspaceSpec.

(** * Tactics *)

(** [branch b v] settles the test [b] of a conditional to the boolean [v]
    by linear arithmetic. *)
Ltac branch b v :=
  replace b with v
    by (symmetry;
        first [ apply Z.ltb_ge | apply Z.ltb_lt | apply Z.leb_le | apply Z.leb_gt
              | apply Z.geb_le | apply Z.eqb_neq | apply Nat.ltb_lt | reflexivity ];
        simpl; lia).

(** * Facts about the text anchors *)

Module TextAnchorFacts.
Import TextAnchor AnchorSpec.

(** ** Strings *)

Lemma len_nonneg (s : jsstring) : 0 <= len s.
Proof. unfold len; lia. Qed.

Lemma startsWith_firstn (search s : jsstring) :
  JS.startsWith s search = true <-> firstn (length search) s = search.
Proof.
  revert s; induction search as [|c search IH]; intros s; simpl.
  - split; reflexivity.
  - destruct s as [|d s]; simpl.
    + split; discriminate.
    + rewrite andb_true_iff, Ascii.eqb_eq, IH. split.
      * intros [-> ->]; reflexivity.
      * intros H; injection H as -> H; auto.
Qed.

Lemma startsWith_app (search rest : jsstring) :
  JS.startsWith (search ++ rest) search = true.
Proof.
  apply startsWith_firstn. rewrite firstn_app, Nat.sub_diag, firstn_all.
  simpl. apply app_nil_r.
Qed.

Lemma startsWith_refl (s : jsstring) : JS.startsWith s s = true.
Proof. rewrite <- (app_nil_r s) at 1. apply startsWith_app. Qed.

Lemma startsWith_length (search s : jsstring) :
  JS.startsWith s search = true -> (length search <= length s)%nat.
Proof.
  intros H. apply startsWith_firstn in H.
  rewrite <- H, length_firstn. lia.
Qed.

Lemma endsWith_refl (s : jsstring) : JS.endsWith s s = true.
Proof.
  unfold JS.endsWith. rewrite Nat.sub_diag. simpl.
  rewrite startsWith_refl, Nat.leb_refl. reflexivity.
Qed.

(** ** Escaping makes the pattern literal *)

Lemma isEscaped_syntax (c : ascii) : isEscaped c = JS.isSyntaxCharacter c.
Proof.
  destruct c as [[] [] [] [] [] [] [] []]; reflexivity.
Qed.

Lemma backslash_escaped (c : ascii) :
  isEscaped c = false -> Ascii.eqb c "\"%char = false.
Proof.
  destruct c as [[] [] [] [] [] [] [] []]; try reflexivity; discriminate.
Qed.

Lemma dot_escaped (c : ascii) :
  isEscaped c = false -> Ascii.eqb c "."%char = false.
Proof.
  destruct c as [[] [] [] [] [] [] [] []]; try reflexivity; discriminate.
Qed.

(** The pattern built from an escaped string is the sequence of its
    characters, each matched literally. *)
Lemma parse_escapeRegex (s : jsstring) :
  JS.parsePattern (escapeRegex s) = Some (map JS.Lit s).
Proof.
  induction s as [|c s IH]; [reflexivity|].
  unfold escapeRegex in *. cbn [flat_map].
  destruct (isEscaped c) eqn:E.
  - cbn [app JS.parsePattern]. rewrite Ascii.eqb_refl.
    rewrite <- isEscaped_syntax, E, IH. reflexivity.
  - cbn [app JS.parsePattern].
    rewrite (backslash_escaped c E), (dot_escaped c E).
    rewrite <- isEscaped_syntax, E, IH. reflexivity.
Qed.

Lemma newRegExp_escapeRegex (s : jsstring) :
  JS.newRegExp (escapeRegex s) =
  Some {| JS.atoms := map JS.Lit s; JS.lastIndex := 0 |}.
Proof. unfold JS.newRegExp. rewrite parse_escapeRegex. reflexivity. Qed.

Lemma matchAtoms_literal (e input : jsstring) :
  JS.matchAtoms (map JS.Lit e) input = JS.startsWith input e.
Proof.
  revert input; induction e as [|c e IH]; intros [|d input]; simpl; auto.
  rewrite IH. reflexivity.
Qed.

(** ** One search *)

Lemma searchFrom_Some (e input : jsstring) (start i : nat) :
  JS.searchFrom (map JS.Lit e) input start = Some i ->
  exists k, i = (start + k)%nat /\ (k <= length input)%nat /\
            hit input e k = true /\
            forall j, (j < k)%nat -> hit input e j = false.
Proof.
  revert start; induction input as [|c input IH]; intros start; simpl;
    rewrite matchAtoms_literal.
  - destruct (JS.startsWith [] e) eqn:E; [|discriminate].
    intros [= <-]. exists 0%nat. repeat split; auto; lia.
  - destruct (JS.startsWith (c :: input) e) eqn:E.
    + intros [= <-]. exists 0%nat. repeat split; auto; simpl; lia.
    + intros H. destruct (IH _ H) as (k & -> & Hk & Hh & Hlt).
      exists (S k). repeat split; auto; simpl; try lia.
      intros [|j] Hj; [exact E|]. apply Hlt. lia.
Qed.

Lemma searchFrom_None (e input : jsstring) (start : nat) :
  JS.searchFrom (map JS.Lit e) input start = None ->
  forall j, (j <= length input)%nat -> hit input e j = false.
Proof.
  revert start; induction input as [|c input IH]; intros start; simpl;
    rewrite matchAtoms_literal.
  - destruct (JS.startsWith [] e) eqn:E; [discriminate|].
    intros _ j Hj. unfold hit. replace j with 0%nat by lia. exact E.
  - destruct (JS.startsWith (c :: input) e) eqn:E; [discriminate|].
    intros H [|j] Hj; [exact E|]. apply (IH _ H). lia.
Qed.

Lemma hit_skipn (doc e : jsstring) (L k : nat) :
  hit (skipn L doc) e k = hit doc e (L + k).
Proof. unfold hit. rewrite skipn_skipn. f_equal. f_equal. lia. Qed.

Lemma hit_bound (doc e : jsstring) (i : nat) :
  hit doc e i = true -> e <> [] -> (i + length e <= length doc)%nat.
Proof.
  unfold hit. intros H Hne. apply startsWith_length in H.
  rewrite length_skipn in H.
  destruct e; [congruence|]. simpl in *. lia.
Qed.

Lemma exec_Some (doc e : jsstring) (L i : nat) (re' : JS.RegExp) :
  JS.exec (literal e L) doc = (Some i, re') ->
  re' = literal e (i + length e) /\
  (L <= i <= length doc)%nat /\ hit doc e i = true /\
  forall j, (L <= j < i)%nat -> hit doc e j = false.
Proof.
  unfold JS.exec. cbn [literal JS.atoms JS.lastIndex].
  destruct (Nat.ltb_spec (length doc) L); [discriminate|].
  destruct JS.searchFrom as [i'|] eqn:E; [|discriminate].
  intros [= -> <-].
  apply searchFrom_Some in E as (k & -> & Hk & Hh & Hlt).
  rewrite length_skipn in Hk. rewrite hit_skipn in Hh.
  rewrite length_map. repeat split; auto; try lia.
  intros j Hj. replace j with (L + (j - L))%nat by lia.
  rewrite <- hit_skipn. apply Hlt. lia.
Qed.

Lemma exec_None (doc e : jsstring) (L : nat) (re' : JS.RegExp) :
  JS.exec (literal e L) doc = (None, re') ->
  forall j, (L <= j <= length doc)%nat -> hit doc e j = false.
Proof.
  unfold JS.exec. cbn [literal JS.atoms JS.lastIndex].
  destruct (Nat.ltb_spec (length doc) L); [intros _ j Hj; lia|].
  destruct JS.searchFrom as [i'|] eqn:E; [discriminate|].
  intros _ j Hj. replace j with (L + (j - L))%nat by lia.
  rewrite <- hit_skipn. apply (searchFrom_None _ _ _ E).
  rewrite length_skipn. lia.
Qed.

(** ** The match loop *)

Lemma matchLoop_Scan (doc e : jsstring) (fuel : nat) :
  forall (L : nat) (acc ms : list Range),
    matchLoop fuel (literal e L) doc e acc = Some ms ->
    exists idxs, Scan doc e L idxs /\ ms = acc ++ map (rangeAt e) idxs.
Proof.
  induction fuel as [|fuel IH]; intros L acc ms; simpl; [discriminate|].
  destruct (JS.exec (literal e L) doc) as [[i|] re'] eqn:E.
  - apply exec_Some in E as (-> & Hi & Hh & Hlt). intros H.
    apply IH in H as (idxs & HS & ->).
    exists (i :: idxs). split; [constructor; auto|].
    rewrite <- app_assoc. reflexivity.
  - intros [= <-]. exists []. split; [|symmetry; apply app_nil_r].
    constructor. eapply exec_None; eauto.
Qed.

(** With a non-empty [exact] every match moves [lastIndex] forward, so
    the loop ends. *)
Lemma matchLoop_ends (doc e : jsstring) (fuel : nat) :
  e <> [] ->
  forall (L : nat) (acc : list Range),
    (S (length doc) - L < fuel)%nat ->
    exists ms, matchLoop fuel (literal e L) doc e acc = Some ms.
Proof.
  intros Hne. induction fuel as [|fuel IH]; intros L acc Hf; [lia|]. simpl.
  destruct (JS.exec (literal e L) doc) as [[i|] re'] eqn:E; [|eauto].
  apply exec_Some in E as (-> & Hi & Hh & _).
  apply IH. destruct e; [congruence|]. simpl. lia.
Qed.

(** With an empty [exact] every call of [exec] matches the empty string
    at [lastIndex] and leaves [lastIndex] where it is. *)
Lemma exec_empty (doc : jsstring) (L : nat) :
  (L <= length doc)%nat ->
  JS.exec (literal [] L) doc = (Some L, literal [] L).
Proof.
  intros HL. unfold JS.exec. cbn [literal JS.atoms JS.lastIndex map].
  destruct (Nat.ltb_spec (length doc) L); [lia|].
  destruct (skipn L doc); simpl; rewrite Nat.add_0_r; reflexivity.
Qed.

Lemma matchLoop_empty (doc : jsstring) (L : nat) (fuel : nat) :
  (L <= length doc)%nat ->
  forall acc, matchLoop fuel (literal [] L) doc [] acc = None.
Proof.
  intros HL. induction fuel as [|fuel IH]; intros acc; simpl; [reflexivity|].
  rewrite exec_empty by assumption. apply IH.
Qed.

Lemma matchLoop_more_fuel (doc e : jsstring) (fuel : nat) :
  forall (re : JS.RegExp) (acc ms : list Range) (fuel' : nat),
    matchLoop fuel re doc e acc = Some ms ->
    (fuel <= fuel')%nat ->
    matchLoop fuel' re doc e acc = Some ms.
Proof.
  induction fuel as [|fuel IH]; intros re acc ms fuel'; simpl; [discriminate|].
  intros H Hf. destruct fuel' as [|fuel']; [lia|]. simpl.
  destruct (JS.exec re doc) as [[i|] re']; auto.
  apply IH; auto. lia.
Qed.

(** What the loop collects, when it ends: the scan from index 0. *)
Lemma collects_Scan (doc e : jsstring) (ms : list Range) :
  collects doc e ms ->
  e <> [] /\ exists idxs, Scan doc e 0 idxs /\ ms = map (rangeAt e) idxs.
Proof.
  intros (fuel & re & Hre & H).
  rewrite newRegExp_escapeRegex in Hre. injection Hre as <-.
  fold (literal e 0) in H. split.
  - intros ->. rewrite matchLoop_empty in H by lia. discriminate.
  - apply matchLoop_Scan in H. exact H.
Qed.

Lemma collects_fuel (doc e : jsstring) (ms : list Range) (fuel : nat) :
  collects doc e ms ->
  (enoughFuel doc <= fuel)%nat ->
  matchLoop fuel (literal e 0) doc e [] = Some ms.
Proof.
  intros Hc Hf. destruct (collects_Scan _ _ _ Hc) as [Hne _].
  destruct Hc as (fuel0 & re & Hre & H).
  rewrite newRegExp_escapeRegex in Hre. injection Hre as <-.
  fold (literal e 0) in H.
  destruct (matchLoop_ends doc e fuel Hne 0 []) as [ms' Hms'].
  { unfold enoughFuel in Hf. lia. }
  rewrite Hms'. f_equal.
  assert (H1 := matchLoop_more_fuel _ _ _ _ _ _ _ H (Nat.le_max_r fuel fuel0)).
  assert (H2 := matchLoop_more_fuel _ _ _ _ _ _ _ Hms' (Nat.le_max_l fuel fuel0)).
  congruence.
Qed.

Lemma collects_exists (doc e : jsstring) :
  e <> [] -> exists ms, collects doc e ms.
Proof.
  intros Hne.
  destruct (matchLoop_ends doc e (enoughFuel doc) Hne 0 []) as [ms Hms].
  { unfold enoughFuel. lia. }
  exists ms, (enoughFuel doc), (literal e 0). split; auto.
  apply newRegExp_escapeRegex.
Qed.

(** ** The scan *)

Lemma Scan_hits (doc e : jsstring) (L : nat) (idxs : list nat) :
  Scan doc e L idxs ->
  forall i, In i idxs -> (L <= i <= length doc)%nat /\ hit doc e i = true.
Proof.
  induction 1 as [L H|L i rest Hi Hh Hlt HS IH]; intros k; simpl; [tauto|].
  intros [<-|Hin]; [auto|].
  destruct (IH k Hin). split; auto. lia.
Qed.

Lemma Scan_none (doc e : jsstring) (L : nat) (idxs : list nat) :
  Scan doc e L idxs ->
  (forall j, (L <= j <= length doc)%nat -> hit doc e j = false) ->
  idxs = [].
Proof.
  destruct 1 as [L H|L i rest Hi Hh Hlt HS]; intros Hno; [reflexivity|].
  rewrite Hno in Hh by lia. discriminate.
Qed.

(** The scan visits its indices in increasing order, without overlap. *)
Lemma Scan_sorted (doc e : jsstring) (L : nat) (idxs : list nat) :
  Scan doc e L idxs ->
  forall l1 i l2, idxs = l1 ++ i :: l2 ->
    forall k, In k l2 -> (i + length e <= k)%nat.
Proof.
  induction 1 as [L H|L i rest Hi Hh Hlt HS IH]; intros l1 x l2 Heq k Hk.
  - destruct l1; discriminate.
  - destruct l1 as [|y l1]; simpl in Heq; injection Heq as -> ->.
    + apply (Scan_hits _ _ _ _ HS) in Hk. lia.
    + eapply IH; eauto.
Qed.

(** A hit that no earlier hit overlaps is visited. *)
Lemma Scan_visits (doc e : jsstring) (L : nat) (idxs : list nat) :
  Scan doc e L idxs ->
  forall p, (L <= p <= length doc)%nat -> hit doc e p = true ->
    (forall j, (j < p)%nat -> (p < j + length e)%nat -> hit doc e j = false) ->
    In p idxs.
Proof.
  induction 1 as [L H|L i rest Hi Hh Hlt HS IH]; intros p Hp Hhit Hfree.
  - rewrite H in Hhit by lia. discriminate.
  - destruct (Nat.eq_dec i p) as [->|Hne]; [left; reflexivity|right].
    assert (i < p)%nat.
    { destruct (Nat.lt_ge_cases p i); [|lia].
      rewrite Hlt in Hhit by lia. discriminate. }
    apply IH; auto.
    destruct (Nat.le_gt_cases (i + length e) p); [lia|].
    rewrite Hfree in Hh by lia. discriminate.
Qed.

(** The only hit of the document is the only index visited. *)
Lemma Scan_unique (doc e : jsstring) (idxs : list nat) (p : nat) :
  e <> [] ->
  Scan doc e 0 idxs ->
  (p <= length doc)%nat -> hit doc e p = true ->
  (forall j, (j <= length doc)%nat -> hit doc e j = true -> j = p) ->
  idxs = [p].
Proof.
  intros Hne HS Hp Hh Huniq.
  inversion HS as [L H|L i rest Hi Hhi Hlt HS']; subst.
  - rewrite H in Hh by lia. discriminate.
  - assert (i = p) as -> by (apply Huniq; auto; lia).
    f_equal. eapply Scan_none; eauto.
    intros j Hj. destruct (hit doc e j) eqn:E; auto.
    apply Huniq in E; [|lia]. destruct e; [congruence|]. simpl in *. lia.
Qed.

(** ** Slices, substrings and occurrences *)

Lemma slice_length (doc : jsstring) (a b : Z) :
  0 <= a <= b -> b <= len doc -> len (slice doc a b) = b - a.
Proof.
  unfold slice, len. intros Hab Hb.
  rewrite length_skipn, length_firstn. lia.
Qed.

Lemma substring_slice (doc : jsstring) (a b : Z) :
  0 <= a <= b -> b <= len doc -> JS.substring doc a b = slice doc a b.
Proof.
  unfold JS.substring, JS.clamp, slice, len. intros Hab Hb.
  rewrite firstn_skipn_comm. f_equal. f_equal. lia. f_equal. lia.
Qed.

Lemma slice_firstn_skipn (doc : jsstring) (i n : nat) :
  slice doc (Z.of_nat i) (Z.of_nat i + Z.of_nat n) = firstn n (skipn i doc).
Proof.
  unfold slice. rewrite firstn_skipn_comm. f_equal. lia. f_equal. lia.
Qed.

Lemma hit_occursAt (doc e : jsstring) (i : nat) :
  (i <= length doc)%nat ->
  hit doc e i = true <-> occursAt doc e (Z.of_nat i).
Proof.
  intros Hi. unfold hit, occursAt, len.
  rewrite startsWith_firstn, slice_firstn_skipn. split.
  - intros H. repeat split; auto; try lia.
    apply (f_equal (@length ascii)) in H.
    rewrite length_firstn, length_skipn in H. lia.
  - tauto.
Qed.

Lemma occursAt_hit (doc e : jsstring) (p : Z) :
  occursAt doc e p ->
  (Z.to_nat p <= length doc)%nat /\ hit doc e (Z.to_nat p) = true.
Proof.
  intros H. assert (Hb := H). destruct Hb as (H0 & Hb & _).
  pose proof (len_nonneg e). unfold len in *.
  split; [lia|]. apply hit_occursAt; [lia|].
  rewrite Z2Nat.id by lia. exact H.
Qed.

Lemma rangeAt_occurs (doc e : jsstring) (i : nat) :
  (i <= length doc)%nat -> hit doc e i = true ->
  occursAt doc e (from (rangeAt e i)) /\
  to (rangeAt e i) = from (rangeAt e i) + len e.
Proof.
  intros Hi Hh. split; [|reflexivity]. simpl. apply hit_occursAt; auto.
Qed.

(** ** The cases of [findAnchorPosition] *)

Lemma find_empty (fuel : nat) (anchor : Anchor) :
  findAnchorPosition fuel [] anchor = Returns None.
Proof. reflexivity. Qed.

Lemma find_loop (fuel : nat) (doc : jsstring) (anchor : Anchor) :
  doc <> [] ->
  findAnchorPosition fuel doc anchor =
  match matchLoop fuel (literal (exact anchor) 0) doc (exact anchor) [] with
  | None => OutOfFuel
  | Some [] => Returns None
  | Some [m] => Returns (Some m)
  | Some matches =>
      match JS.sort byScore
              (map (scoreMatch doc (prefix anchor) (suffix anchor)) matches) with
      | bestMatch :: _ => Returns (Some (pos bestMatch))
      | [] => Throws
      end
  end.
Proof.
  intros Hne. destruct doc as [|c doc]; [congruence|].
  unfold findAnchorPosition. rewrite newRegExp_escapeRegex.
  cbn [JS.truthy negb orb]. unfold len at 1.
  branch (Z.of_nat (length (c :: doc)) =? 0) false.
  fold (literal (exact anchor) 0).
  destruct matchLoop as [[|m [|m' ms]]|]; try reflexivity.
  cbn [length Nat.eqb].
  destruct (JS.sort _ _) as [|[[f t] sc] l]; reflexivity.
Qed.

Lemma insertSorted_cons {A : Type} (compare : A -> A -> Q) (x : A) (l : list A) :
  exists h t, JS.insertSorted compare x l = h :: t.
Proof. destruct l; simpl; [|destruct Qle_bool]; eauto. Qed.

(** More fuel does not change what a call returns. *)
Lemma find_more_fuel (fuel fuel' : nat) (doc : jsstring) (anchor : Anchor)
    (r : option Range) :
  findAnchorPosition fuel doc anchor = Returns r ->
  (fuel <= fuel')%nat ->
  findAnchorPosition fuel' doc anchor = Returns r.
Proof.
  destruct doc as [|c doc]; [intros H _; exact H|].
  rewrite !find_loop by discriminate.
  destruct (matchLoop fuel _ _ _ _) as [ms|] eqn:E; [|discriminate].
  intros H Hf. rewrite (matchLoop_more_fuel _ _ _ _ _ _ _ E Hf). exact H.
Qed.

(** The call never throws. *)
Lemma find_no_throw (fuel : nat) (doc : jsstring) (anchor : Anchor) :
  findAnchorPosition fuel doc anchor <> Throws.
Proof.
  destruct doc as [|c doc]; [discriminate|].
  rewrite find_loop by discriminate.
  set (doc0 := c :: doc).
  destruct matchLoop as [[|m [|m' ms]]|]; try discriminate.
  cbn [map JS.sort].
  destruct (insertSorted_cons byScore
              (scoreMatch doc0 (prefix anchor) (suffix anchor) m)
              (JS.insertSorted byScore
                 (scoreMatch doc0 (prefix anchor) (suffix anchor) m')
                 (JS.sort byScore
                    (map (scoreMatch doc0 (prefix anchor) (suffix anchor)) ms))))
    as (h & t & ->).
  discriminate.
Qed.

(** ** The two counting loops *)

Lemma nth_error_skipn_cons (l : jsstring) (i : nat) :
  (i < length l)%nat ->
  exists c, nth_error l i = Some c /\ skipn i l = c :: skipn (S i) l.
Proof.
  revert i; induction l as [|d l IH]; intros [|i] H; simpl in *; try lia.
  - eauto.
  - apply IH. lia.
Qed.

Lemma commonPrefixLength_nil_r (s : jsstring) : commonPrefixLength s [] = 0%nat.
Proof. destruct s; reflexivity. Qed.

Lemma commonPrefixLength_le (s t : jsstring) :
  (commonPrefixLength s t <= Nat.min (length s) (length t))%nat.
Proof.
  revert t; induction s as [|c s IH]; intros [|d t]; simpl; try lia.
  destruct (Ascii.eqb c d); [|lia]. specialize (IH t). lia.
Qed.

Lemma inject_succ (k : nat) :
  inject_Z (Z.of_nat (S k)) == 1 + inject_Z (Z.of_nat k).
Proof.
  rewrite Nat2Z.inj_succ. unfold Z.succ. rewrite inject_Z_plus.
  change (inject_Z 1) with 1%Q. lra.
Qed.

Lemma suffixLoop_count (s t : jsstring) (n : nat) :
  forall (i : nat) (q : Q),
    (n + i = Nat.min (length s) (length t))%nat ->
    suffixLoop n (Z.of_nat i) s t q ==
    q + inject_Z (Z.of_nat (commonPrefixLength (skipn i s) (skipn i t))).
Proof.
  induction n as [|n IH]; intros i q Hn; simpl.
  - assert (skipn i s = [] \/ skipn i t = []) as [-> | ->].
    { destruct (Nat.min_spec (length s) (length t)) as [[_ E]|[_ E]];
        [left|right]; apply skipn_all2; lia. }
    + simpl. change (inject_Z (Z.of_nat 0)) with 0%Q. lra.
    + rewrite commonPrefixLength_nil_r. change (inject_Z (Z.of_nat 0)) with 0%Q. lra.
  - destruct (nth_error_skipn_cons s i) as (c & Hc & ->); [lia|].
    destruct (nth_error_skipn_cons t i) as (d & Hd & ->); [lia|].
    unfold JS.index.
    branch (Z.of_nat i <? 0) false.
    rewrite Nat2Z.id, Hc, Hd. cbn [JS.strictEq commonPrefixLength].
    destruct (Ascii.eqb c d).
    + replace (Z.of_nat i + 1) with (Z.of_nat (S i)) by lia.
      rewrite IH by lia. rewrite inject_succ. lra.
    + change (inject_Z (Z.of_nat 0)) with 0%Q. lra.
Qed.

Lemma index_from_end (p : jsstring) (i : nat) :
  (i < length p)%nat ->
  JS.index p (len p - (Z.of_nat i + 1)) = nth_error (rev p) i.
Proof.
  intros Hi. unfold JS.index, len.
  branch (Z.of_nat (length p) - (Z.of_nat i + 1) <? 0) false.
  rewrite nth_error_rev.
  branch (i <? length p)%nat true.
  f_equal. lia.
Qed.

Lemma prefixLoop_count (p t : jsstring) (n : nat) :
  forall (i : nat) (q : Q),
    (n + i = Nat.min (length p) (length t))%nat ->
    prefixLoop n (Z.of_nat i + 1) p t q ==
    q + (1 # 2) * inject_Z (Z.of_nat (commonPrefixLength (skipn i (rev p))
                                                         (skipn i (rev t)))).
Proof.
  induction n as [|n IH]; intros i q Hn; simpl.
  - assert (skipn i (rev p) = [] \/ skipn i (rev t) = []) as [-> | ->].
    { destruct (Nat.min_spec (length p) (length t)) as [[_ E]|[_ E]];
        [left|right]; apply skipn_all2; rewrite length_rev; lia. }
    + simpl. change (inject_Z (Z.of_nat 0)) with 0%Q. lra.
    + rewrite commonPrefixLength_nil_r. change (inject_Z (Z.of_nat 0)) with 0%Q. lra.
  - rewrite !index_from_end by lia.
    destruct (nth_error_skipn_cons (rev p) i) as (c & Hc & ->);
      [rewrite length_rev; lia|].
    destruct (nth_error_skipn_cons (rev t) i) as (d & Hd & ->);
      [rewrite length_rev; lia|].
    rewrite Hc, Hd. cbn [JS.strictEq commonPrefixLength].
    destruct (Ascii.eqb c d).
    + replace (Z.of_nat i + 1 + 1) with (Z.of_nat (S i) + 1) by lia.
      rewrite IH by lia. rewrite inject_succ. lra.
    + change (inject_Z (Z.of_nat 0)) with 0%Q. lra.
Qed.

Lemma truthy_len (s : jsstring) : JS.truthy s = true -> (0 <? len s) = true.
Proof. destruct s; [discriminate|]. intros _. apply Z.ltb_lt. unfold len. simpl. lia. Qed.

(** The score that the code gives a candidate is the score of the
    specification. *)
Lemma scoreMatch_spec (doc : jsstring) (anchor : Anchor) (m : Range) :
  0 <= from m <= to m -> to m <= len doc ->
  pos (scoreMatch doc (prefix anchor) (suffix anchor) m) = m /\
  score (scoreMatch doc (prefix anchor) (suffix anchor) m) == specScore doc anchor m.
Proof.
  intros Hft Ht. split; [reflexivity|].
  unfold scoreMatch, specScore, suffixScore, prefixScore, actualPrefix, actualSuffix.
  cbn [score]. unfold CONTEXT_LENGTH.
  rewrite !substring_slice by lia.
  set (aS := slice doc (to m) (Z.min (len doc) (to m + 32))).
  set (aP := slice doc (Z.max 0 (from m - 32)) (from m)).
  assert (forall q, (if JS.truthy (suffix anchor) && JS.startsWith aS (suffix anchor)
           then (q + 100)%Q
           else if JS.truthy (suffix anchor) && (0 <? len (suffix anchor))
                then suffixLoop (Z.to_nat (Z.min (len (suffix anchor)) (len aS)))
                       0 (suffix anchor) aS q
                else q) ==
          q + (if JS.truthy (suffix anchor) && JS.startsWith aS (suffix anchor)
               then 100
               else inject_Z (Z.of_nat (commonPrefixLength (suffix anchor) aS)))) as HS.
  { intros q. destruct (JS.truthy (suffix anchor)) eqn:T; cbn [andb].
    - destruct (JS.startsWith aS (suffix anchor)); [reflexivity|].
      rewrite (truthy_len _ T).
      rewrite (suffixLoop_count _ _ _ 0%nat) by (unfold len; lia).
      reflexivity.
    - destruct (suffix anchor); [|discriminate]. simpl.
      change (inject_Z (Z.of_nat 0)) with 0%Q. lra. }
  assert (forall q, (if JS.truthy (prefix anchor) && JS.endsWith aP (prefix anchor)
           then (q + 50)%Q
           else if JS.truthy (prefix anchor) && (0 <? len (prefix anchor))
                then prefixLoop (Z.to_nat (Z.min (len (prefix anchor)) (len aP)))
                       1 (prefix anchor) aP q
                else q) ==
          q + (if JS.truthy (prefix anchor) && JS.endsWith aP (prefix anchor)
               then 50
               else (1 # 2) * inject_Z (Z.of_nat (commonSuffixLength (prefix anchor) aP)))) as HP.
  { intros q. destruct (JS.truthy (prefix anchor)) eqn:T; cbn [andb].
    - destruct (JS.endsWith aP (prefix anchor)); [reflexivity|].
      rewrite (truthy_len _ T).
      change 1 with (Z.of_nat 0 + 1).
      rewrite (prefixLoop_count _ _ _ 0%nat) by (unfold len; lia).
      reflexivity.
    - destruct (prefix anchor); [|discriminate].
      unfold commonSuffixLength. simpl.
      change (inject_Z (Z.of_nat 0)) with 0%Q. lra. }
  rewrite HP, HS. lra.
Qed.

(** ** The stable sort puts the first best element in front *)

Lemma sort_head (l : list Scored) :
  l <> [] ->
  exists l1 h l2 t,
    l = l1 ++ h :: l2 /\ JS.sort byScore l = h :: t /\
    (forall y, In y l1 -> (score y < score h)%Q) /\
    (forall y, In y l2 -> (score y <= score h)%Q).
Proof.
  induction l as [|x l IH]; [congruence|intros _].
  destruct l as [|x' l'].
  - exists [], x, [], []. simpl. repeat split; auto; tauto.
  - destruct IH as (l1 & h & l2 & t & Heq & Hs & H1 & H2); [discriminate|].
    cbn [JS.sort] in *. rewrite Hs. cbn [JS.insertSorted].
    unfold byScore at 1.
    destruct (Qle_bool (score h - score x) 0) eqn:E.
    + apply Qle_bool_iff in E.
      exists [], x, (x' :: l'), (h :: t). repeat split; auto.
      * simpl; tauto.
      * intros y Hy. rewrite Heq in Hy. apply in_app_or in Hy.
        destruct Hy as [Hy|[<-|Hy]].
        -- apply H1 in Hy. lra.
        -- lra.
        -- apply H2 in Hy. lra.
    + assert (~ (score h - score x <= 0)%Q) as E'
        by (intros C; apply Qle_bool_iff in C; congruence).
      exists (x :: l1), h, l2, (JS.insertSorted byScore x t).
      repeat split; auto.
      * rewrite Heq. reflexivity.
      * intros y [<-|Hy]; [lra|auto].
Qed.

(** ** What the loop hands to the rest of the function *)

Lemma loop_candidates (doc e : jsstring) (fuel : nat) (ms : list Range) :
  matchLoop fuel (literal e 0) doc e [] = Some ms ->
  e <> [] /\ exists idxs, Scan doc e 0 idxs /\ ms = map (rangeAt e) idxs.
Proof.
  intros H. apply collects_Scan. exists fuel, (literal e 0).
  split; [apply newRegExp_escapeRegex|exact H].
Qed.

Lemma candidate_occurs (doc e : jsstring) (idxs : list nat) (m : Range) :
  e <> [] -> Scan doc e 0 idxs -> In m (map (rangeAt e) idxs) ->
  occursAt doc e (from m) /\ to m = from m + len e.
Proof.
  intros Hne HS Hin. apply in_map_iff in Hin as (i & <- & Hi).
  destruct (Scan_hits _ _ _ _ HS i Hi) as [Hb Hh].
  apply rangeAt_occurs; auto. lia.
Qed.

Lemma occursAt_bounds (doc e : jsstring) (m : Range) :
  occursAt doc e (from m) -> to m = from m + len e ->
  0 <= from m <= to m /\ to m <= len doc.
Proof.
  intros (H0 & Hb & _) ->. pose proof (len_nonneg e). lia.
Qed.

(** A returned range is one of the collected candidates. *)
Lemma find_returns_candidate (fuel : nat) (doc : jsstring) (anchor : Anchor) (r : Range) :
  findAnchorPosition fuel doc anchor = Returns (Some r) ->
  exists ms, matchLoop fuel (literal (exact anchor) 0) doc (exact anchor) [] = Some ms /\
             In r ms.
Proof.
  destruct doc as [|c doc]; [discriminate|].
  rewrite find_loop by discriminate.
  destruct matchLoop as [ms|]; [|discriminate].
  intros H. exists ms. split; [reflexivity|].
  destruct ms as [|m [|m' ms]]; [discriminate| |].
  - injection H as <-. left; reflexivity.
  - destruct (sort_head (map (scoreMatch (c :: doc) (prefix anchor) (suffix anchor))
                             (m :: m' :: ms)))
      as (l1 & h & l2 & t & Heq & Hs & _); [discriminate|].
    rewrite Hs in H. injection H as <-.
    apply map_eq_app in Heq as (ms1 & ms2 & -> & _ & Heq).
    apply map_eq_cons in Heq as (x & ms3 & -> & <- & _).
    apply in_or_app. right. left. reflexivity.
Qed.

(** ** The choice among several candidates *)

Lemma Scan_in_bounds (doc e : jsstring) (idxs : list nat) (k : nat) :
  e <> [] -> Scan doc e 0 idxs -> In k idxs ->
  0 <= from (rangeAt e k) <= to (rangeAt e k) /\ to (rangeAt e k) <= len doc.
Proof.
  intros Hne HS Hk. apply (occursAt_bounds doc e); [|reflexivity].
  destruct (Scan_hits _ _ _ _ HS k Hk) as [Hb Hh].
  apply rangeAt_occurs; auto. lia.
Qed.

Lemma choose_best (fuel : nat) (doc : jsstring) (anchor : Anchor) (idxs : list nat) :
  doc <> [] -> exact anchor <> [] ->
  Scan doc (exact anchor) 0 idxs ->
  (1 < length idxs)%nat ->
  matchLoop fuel (literal (exact anchor) 0) doc (exact anchor) [] =
    Some (map (rangeAt (exact anchor)) idxs) ->
  exists i1 i i2,
    idxs = i1 ++ i :: i2 /\
    findAnchorPosition fuel doc anchor = Returns (Some (rangeAt (exact anchor) i)) /\
    (forall k, In k i1 ->
       (specScore doc anchor (rangeAt (exact anchor) k) <
        specScore doc anchor (rangeAt (exact anchor) i))%Q) /\
    (forall k, In k i2 ->
       (specScore doc anchor (rangeAt (exact anchor) k) <=
        specScore doc anchor (rangeAt (exact anchor) i))%Q).
Proof.
  intros Hdoc Hne HS Hlen Hloop.
  rewrite find_loop, Hloop by assumption.
  set (f := scoreMatch doc (prefix anchor) (suffix anchor)).
  set (g := rangeAt (exact anchor)) in *.
  destruct (sort_head (map f (map g idxs))) as (l1 & h & l2 & t & Heq & Hs & H1 & H2).
  { destruct idxs; [simpl in Hlen; lia|discriminate]. }
  rewrite Hs.
  apply map_eq_app in Heq as (ms1 & ms2 & Heq & <- & Heq2).
  apply map_eq_cons in Heq2 as (m & ms3 & -> & <- & <-).
  apply map_eq_app in Heq as (i1 & i2' & -> & <- & Heq2).
  apply map_eq_cons in Heq2 as (i & i2 & -> & <- & <-).
  assert (forall k, In k (i1 ++ i :: i2) ->
            score (f (g k)) == specScore doc anchor (g k)) as Hsc.
  { intros k Hk. apply scoreMatch_spec;
      destruct (Scan_in_bounds _ _ _ k Hne HS Hk); auto. }
  exists i1, i, i2. split; [reflexivity|]. split.
  - destruct i1 as [|a [|b i1]]; [destruct i2; [simpl in Hlen; lia|] | |];
      reflexivity.
  - split; intros k Hk.
    + rewrite <- (Hsc k), <- (Hsc i) by (apply in_or_app; simpl; auto).
      apply H1, in_map, in_map, Hk.
    + rewrite <- (Hsc k), <- (Hsc i) by (apply in_or_app; simpl; auto).
      apply H2, in_map, in_map, Hk.
Qed.

Lemma exact_nonempty_length (e : jsstring) : e <> [] -> (1 <= length e)%nat.
Proof. destruct e; [congruence|]. simpl. lia. Qed.

(** ** A full match of the context beats every partial match *)

Lemma inject_nat_le (k n : nat) :
  (k <= n)%nat -> (inject_Z (Z.of_nat k) <= inject_Z (Z.of_nat n))%Q.
Proof. intros H. rewrite <- Zle_Qle. lia. Qed.

Lemma truthy_nonempty (s : jsstring) : JS.truthy s = true <-> s <> [].
Proof. destruct s; simpl; split; congruence. Qed.

Lemma suffixScore_cases (sfx actual : jsstring) :
  (length actual <= 32)%nat ->
  (sfx = [] /\ suffixScore sfx actual == 0) \/
  (sfx <> [] /\ JS.startsWith actual sfx = true /\ suffixScore sfx actual == 100) \/
  (sfx <> [] /\ JS.startsWith actual sfx = false /\ (suffixScore sfx actual <= 32)%Q).
Proof.
  intros Hlen. unfold suffixScore.
  destruct sfx as [|c sfx]; [left; split; reflexivity|right].
  cbn [JS.truthy andb].
  destruct (JS.startsWith actual (c :: sfx)); [left|right];
    repeat split; try discriminate; try reflexivity.
  change 32%Q with (inject_Z (Z.of_nat 32)). apply inject_nat_le.
  pose proof (commonPrefixLength_le (c :: sfx) actual). lia.
Qed.

Lemma prefixScore_cases (pfx actual : jsstring) :
  (length actual <= 32)%nat ->
  (pfx = [] /\ prefixScore pfx actual == 0) \/
  (pfx <> [] /\ JS.endsWith actual pfx = true /\ prefixScore pfx actual == 50) \/
  (pfx <> [] /\ JS.endsWith actual pfx = false /\ (prefixScore pfx actual <= 16)%Q).
Proof.
  intros Hlen. unfold prefixScore.
  destruct pfx as [|c pfx].
  - left; split; [reflexivity|]. unfold commonSuffixLength. simpl.
    change (inject_Z (Z.of_nat 0)) with 0%Q. lra.
  - right. cbn [JS.truthy andb].
    destruct (JS.endsWith actual (c :: pfx)); [left|right];
      repeat split; try discriminate; try reflexivity.
    assert (inject_Z (Z.of_nat (commonSuffixLength (c :: pfx) actual)) <= 32)%Q.
    { change 32%Q with (inject_Z (Z.of_nat 32)). apply inject_nat_le.
      unfold commonSuffixLength.
      pose proof (commonPrefixLength_le (rev (c :: pfx)) (rev actual)) as H.
      rewrite !length_rev in H. lia. }
    lra.
Qed.

Lemma actual_context_length (doc : jsstring) (m : Range) :
  0 <= from m <= to m -> to m <= len doc ->
  (length (actualSuffix doc m) <= 32)%nat /\ (length (actualPrefix doc m) <= 32)%nat.
Proof.
  intros Hft Ht. unfold actualSuffix, actualPrefix. split.
  - pose proof (slice_length doc (to m) (Z.min (len doc) (to m + 32))) as H.
    unfold len in *. lia.
  - pose proof (slice_length doc (Z.max 0 (from m - 32)) (from m)) as H.
    unfold len in *. lia.
Qed.

(** A candidate whose context matches in full has the highest score
    there is, and only such candidates reach it. *)
Lemma full_context_is_best (doc : jsstring) (anchor : Anchor) (m0 m : Range) :
  0 <= from m0 <= to m0 -> to m0 <= len doc ->
  0 <= from m <= to m -> to m <= len doc ->
  sameContext doc anchor m0 ->
  (specScore doc anchor m <= specScore doc anchor m0)%Q /\
  ((specScore doc anchor m0 <= specScore doc anchor m)%Q -> sameContext doc anchor m).
Proof.
  intros H0 H0' Hm Hm' [Hs0 Hp0].
  destruct (actual_context_length doc m0 H0 H0') as [Ls0 Lp0].
  destruct (actual_context_length doc m Hm Hm') as [Ls Lp].
  unfold specScore, sameContext.
  destruct (suffixScore_cases (suffix anchor) (actualSuffix doc m0) Ls0)
    as [[E0 S0]|[(E0 & B0 & S0)|(E0 & B0 & S0)]];
  destruct (suffixScore_cases (suffix anchor) (actualSuffix doc m) Ls)
    as [[E1 S1]|[(E1 & B1 & S1)|(E1 & B1 & S1)]];
  destruct (prefixScore_cases (prefix anchor) (actualPrefix doc m0) Lp0)
    as [[F0 P0]|[(F0 & C0 & P0)|(F0 & C0 & P0)]];
  destruct (prefixScore_cases (prefix anchor) (actualPrefix doc m) Lp)
    as [[F1 P1]|[(F1 & C1 & P1)|(F1 & C1 & P1)]];
  try congruence;
  try (destruct Hs0; congruence);
  try (destruct Hp0; congruence);
  (split; [lra|]); intros Hle;
  solve [ split; auto | exfalso; lra ].
Qed.

(** Every occurrence starts inside a collected candidate: the scan
    leaves out only occurrences that overlap an earlier candidate. *)
Lemma Scan_covers (doc e : jsstring) (L : nat) (idxs : list nat) :
  Scan doc e L idxs ->
  forall p, (L <= p <= length doc)%nat -> hit doc e p = true ->
    exists i, In i idxs /\ (i <= p < i + length e)%nat.
Proof.
  induction 1 as [L H|L i rest Hi Hh Hlt HS IH]; intros p Hp Hhit.
  - rewrite H in Hhit by lia. discriminate.
  - assert (i <= p)%nat.
    { destruct (Nat.le_gt_cases i p); auto.
      rewrite Hlt in Hhit by lia. discriminate. }
    destruct (Nat.lt_ge_cases p (i + length e)).
    + exists i. split; [left; reflexivity|lia].
    + destruct (IH p) as (k & Hk & Hkp); auto; [lia|].
      exists k. split; [right; exact Hk|exact Hkp].
Qed.

(** For an in-bounds range the three substrings of [createAnchor] are the
    slices of the specification. *)
Lemma createAnchor_slices (doc : jsstring) (from to : Z) :
  0 <= from <= to -> to <= len doc ->
  exact (createAnchor doc from to) = slice doc from to /\
  prefix (createAnchor doc from to) = slice doc (Z.max 0 (from - 32)) from /\
  suffix (createAnchor doc from to) = slice doc to (Z.min (len doc) (to + 32)).
Proof.
  intros Hft Ht. unfold createAnchor, CONTEXT_LENGTH.
  cbn [exact prefix suffix].
  rewrite !substring_slice by lia. repeat split.
Qed.

End TextAnchorFacts.

(** * The unit tests of the repository, run on the model *)

Module UnitTests.
Import TextAnchor.

(** should capture context before and after selection *)
Example capture_context :
  createAnchor (str "The quick brown fox jumps over the lazy dog.") 16 19 =
  {| prefix := str "The quick brown "; exact := str "fox";
     suffix := str " jumps over the lazy dog." |}.
Proof. reflexivity. Qed.

(** should handle selections at start of document *)
Example selection_at_start :
  createAnchor (str "Start of document with more text.") 0 5 =
  {| prefix := str ""; exact := str "Start";
     suffix := str " of document with more text." |}.
Proof. reflexivity. Qed.

(** should handle selections at end of document *)
Example selection_at_end :
  let a := createAnchor (str "Some text at the end.") 17 21 in
  exact a = str "end." /\ suffix a = str "".
Proof. split; reflexivity. Qed.

(** should limit prefix and suffix to reasonable length *)
Example long_context :
  let longText := repeat "A"%char 100 ++ str "target" ++ repeat "B"%char 100 in
  let a := createAnchor longText 100 106 in
  exact a = str "target" /\ len (prefix a) = 32 /\ len (suffix a) = 32.
Proof. vm_compute. repeat split. Qed.

(** should handle empty selections *)
Example empty_selection :
  exact (createAnchor (str "Some text here.") 5 5) = str "".
Proof. reflexivity. Qed.

(** should find exact match in unchanged document *)
Example find_unchanged :
  findAnchorPosition 50 (str "Hello world, this is a test document.")
    {| prefix := str "world, "; exact := str "this"; suffix := str " is a" |} =
  Returns (Some {| from := 13; to := 17 |}).
Proof. vm_compute. reflexivity. Qed.

(** should handle case where exact text appears multiple times *)
Example find_among_several :
  findAnchorPosition 50 (str "test one test two test three")
    {| prefix := str "one "; exact := str "test"; suffix := str " two" |} =
  Returns (Some {| from := 9; to := 13 |}).
Proof. vm_compute. reflexivity. Qed.

(** should return null if exact text not found *)
Example find_missing :
  findAnchorPosition 50 (str "This text has been completely rewritten.")
    {| prefix := str "Hello "; exact := str "original content";
       suffix := str " more text" |} =
  Returns None.
Proof. vm_compute. reflexivity. Qed.

(** should prioritize matches with matching context *)
Example find_by_context :
  findAnchorPosition 80
    (str "prefix1 foo suffix1, prefix2 foo suffix2, prefix3 foo suffix3")
    {| prefix := str "prefix2 "; exact := str "foo"; suffix := str " suffix2" |} =
  Returns (Some {| from := 29; to := 32 |}).
Proof. vm_compute. reflexivity. Qed.

(** should return null for empty document *)
Example find_in_empty_document :
  findAnchorPosition 50 (str "")
    {| prefix := str "some"; exact := str "text"; suffix := str "here" |} =
  Returns None.
Proof. reflexivity. Qed.

(** should handle special regex characters in text *)
Example find_special_characters :
  findAnchorPosition 50 (str "function test() { return [1, 2, 3]; }")
    {| prefix := str "{ "; exact := str "return [1, 2, 3];"; suffix := str " }" |} =
  Returns (Some {| from := 18; to := 35 |}).
Proof. vm_compute. reflexivity. Qed.

(** The pattern [a.c] itself would match [abc]; after escaping, the
    anchor text [a.c] is found only where it stands literally. *)
Example dot_is_literal :
  option_map (fun re => fst (JS.exec re (str "abc a.c"))) (JS.newRegExp (str "a.c")) =
    Some (Some 0%nat) /\
  findAnchorPosition 50 (str "abc a.c")
    {| prefix := str ""; exact := str "a.c"; suffix := str "" |} =
  Returns (Some {| from := 4; to := 7 |}).
Proof. split; vm_compute; reflexivity. Qed.

(** should handle create and find cycle *)
Example create_and_find :
  let originalDoc := str "The quick brown fox jumps over the lazy dog." in
  findAnchorPosition 50 originalDoc (createAnchor originalDoc 16 19) =
  Returns (Some {| from := 16; to := 19 |}).
Proof. vm_compute. reflexivity. Qed.

(** should survive text insertions before selection *)
Example survive_insertion :
  findAnchorPosition 50 (str "INSERTED TEXT The quick brown fox jumps.")
    (createAnchor (str "The quick brown fox jumps.") 16 19) =
  Returns (Some {| from := 30; to := 33 |}).
Proof. vm_compute. reflexivity. Qed.

End UnitTests.

(** * The properties of the anchor resolver *)

Module AnchorProperties.
Import TextAnchor AnchorSpec TextAnchorFacts.

(** C5.  For an in-bounds range, [createAnchor] returns
    [exact = document[from:to]], [prefix = document[max(0,from-32):from]]
    and [suffix = document[to:min(len,to+32)]]; hence prefix and suffix
    have at most 32 characters, the prefix is empty when [from = 0], the
    suffix is empty when [to = document.length], and an empty selection
    gives the empty [exact].  The function is total: every call returns
    an anchor. *)
Theorem createAnchor_clips (doc : jsstring) (from to : Z) :
  0 <= from <= to -> to <= len doc ->
  let a := createAnchor doc from to in
  exact a = slice doc from to /\
  prefix a = slice doc (Z.max 0 (from - 32)) from /\
  suffix a = slice doc to (Z.min (len doc) (to + 32)) /\
  len (prefix a) <= 32 /\ len (suffix a) <= 32 /\
  (from = 0 -> prefix a = []) /\
  (to = len doc -> suffix a = []) /\
  (from = to -> exact a = []).
Proof.
  intros Hft Ht a. subst a.
  destruct (createAnchor_slices doc from to Hft Ht) as (He & Hp & Hs).
  rewrite He, Hp, Hs.
  assert (forall a b, 0 <= a <= b -> b <= len doc -> b - a <= 0 -> slice doc a b = [])
    as Hnil.
  { intros a b Hab Hb Hz. apply length_zero_iff_nil.
    pose proof (slice_length doc a b Hab Hb). unfold len in *. lia. }
  repeat split.
  - rewrite slice_length; lia.
  - rewrite slice_length; lia.
  - intros ->. apply Hnil; lia.
  - intros ->. apply Hnil; lia.
  - intros ->. apply Hnil; lia.
Qed.

Lemma createAnchor_clips_witness :
  let a := createAnchor (str "Hello world, this is a test document.") 13 17 in
  exact a = str "this" /\ prefix a = str "Hello world, " /\
  suffix a = str " is a test document.".
Proof.
  destruct (createAnchor_clips (str "Hello world, this is a test document.") 13 17)
    as (He & Hp & Hs & _); [lia | vm_compute; discriminate |].
  cbv zeta. rewrite He, Hp, Hs. repeat split.
Defined.

(** C10.  A non-null result [{from, to}] of [findAnchorPosition] is an
    in-bounds range of the document: [0 <= from <= to <= doc.length],
    [to - from = anchor.exact.length] and [doc[from:to]] is
    [anchor.exact]. *)
Theorem result_in_bounds (fuel : nat) (doc : jsstring) (anchor : Anchor) (r : Range) :
  findAnchorPosition fuel doc anchor = Returns (Some r) ->
  0 <= from r <= to r /\ to r <= len doc /\
  to r - from r = len (exact anchor) /\
  slice doc (from r) (to r) = exact anchor /\
  JS.substring doc (from r) (to r) = exact anchor.
Proof.
  intros H. apply find_returns_candidate in H as (ms & Hms & Hin).
  apply loop_candidates in Hms as (Hne & idxs & HS & ->).
  destruct (candidate_occurs _ _ _ _ Hne HS Hin) as [Hocc Hto].
  destruct (occursAt_bounds _ _ _ Hocc Hto) as [Hb1 Hb2].
  destruct Hocc as (_ & _ & Hsl). rewrite <- Hto in Hsl.
  repeat split; try lia; auto.
  rewrite substring_slice by lia. exact Hsl.
Qed.

Lemma result_in_bounds_witness :
  slice (str "test one test two test three") 9 13 = str "test".
Proof.
  apply (result_in_bounds 30 (str "test one test two test three")
           {| prefix := str "one "; exact := str "test"; suffix := str " two" |}
           {| from := 9; to := 13 |}).
  vm_compute. reflexivity.
Defined.

(** The empty string occurs at every position of a document. *)
Lemma empty_occurs (doc : jsstring) (p : Z) :
  0 <= p <= len doc -> occursAt doc [] p.
Proof.
  intros Hp. unfold occursAt. change (len []) with 0.
  rewrite Z.add_0_r. repeat split; try lia.
  apply length_zero_iff_nil.
  pose proof (slice_length doc p p). unfold len in *. lia.
Qed.

Lemma nonempty_len (doc : jsstring) : doc <> [] -> 1 <= len doc.
Proof. destruct doc; [congruence|]. unfold len. simpl. lia. Qed.

(** C4.  [findAnchorPosition] returns null exactly in the no-match
    cases: for every anchor it returns null (and does not throw) when
    the document is empty; for a non-empty document it returns null (and
    does not throw) when [anchor.exact] occurs nowhere in it; and it
    returns null in no other case. *)
Theorem null_exactly_when_no_match :
  (forall fuel anchor, findAnchorPosition fuel [] anchor = Returns None) /\
  (forall fuel doc anchor,
      doc <> [] ->
      (forall p, ~ occursAt doc (exact anchor) p) ->
      (enoughFuel doc <= fuel)%nat ->
      findAnchorPosition fuel doc anchor = Returns None) /\
  (forall fuel doc anchor,
      findAnchorPosition fuel doc anchor = Returns None ->
      doc = [] \/ forall p, ~ occursAt doc (exact anchor) p).
Proof.
  split; [reflexivity|]. split.
  - intros fuel doc anchor Hdoc Hno Hf.
    assert (exact anchor <> []) as Hne.
    { intros E. apply (Hno 0). rewrite E. apply empty_occurs.
      pose proof (len_nonneg doc). lia. }
    rewrite find_loop by assumption.
    destruct (matchLoop_ends doc (exact anchor) fuel Hne 0 []) as [ms Hms].
    { unfold enoughFuel in Hf. lia. }
    rewrite Hms. apply loop_candidates in Hms as (_ & idxs & HS & ->).
    rewrite (Scan_none _ _ _ _ HS); [reflexivity|].
    intros j Hj. destruct (hit doc (exact anchor) j) eqn:E; auto.
    apply hit_occursAt in E; [|lia]. destruct (Hno _ E).
  - intros fuel doc anchor H.
    destruct doc as [|c doc]; [left; reflexivity|right].
    rewrite find_loop in H by discriminate.
    destruct matchLoop as [ms|] eqn:Hms; [|discriminate].
    apply loop_candidates in Hms as (_ & idxs & HS & ->).
    destruct idxs as [|i [|i' idxs]]; cbn [map] in H.
    + inversion HS as [L Hno|]; subst. intros p Hp.
      apply occursAt_hit in Hp as [Hb Hh]. rewrite Hno in Hh by lia.
      discriminate.
    + discriminate.
    + destruct (JS.sort _ _); discriminate.
Qed.

Lemma null_exactly_when_no_match_witness :
  findAnchorPosition 5 (str "abc") {| prefix := []; exact := str "x"; suffix := [] |}
  = Returns None.
Proof.
  apply (proj1 (proj2 null_exactly_when_no_match)).
  - discriminate.
  - intros p (H0 & Hb & Hs).
    change (p + 1 <= 3) in Hb.
    assert (p = 0 \/ p = 1 \/ p = 2) as [->|[->| ->]] by lia; discriminate.
  - vm_compute. lia.
Defined.

(** C3 (as amended).  When [anchor.exact] occurs exactly once in a
    non-empty document, [findAnchorPosition] returns that occurrence,
    whatever the stored prefix and suffix are. *)
Theorem single_occurrence_returned (fuel : nat) (doc : jsstring) (anchor : Anchor) (p : Z) :
  doc <> [] ->
  occursAt doc (exact anchor) p ->
  (forall q, occursAt doc (exact anchor) q -> q = p) ->
  (enoughFuel doc <= fuel)%nat ->
  findAnchorPosition fuel doc anchor =
  Returns (Some {| from := p; to := p + len (exact anchor) |}).
Proof.
  intros Hdoc Hocc Huniq Hf.
  assert (exact anchor <> []) as Hne.
  { intros E. rewrite E in Huniq. pose proof (nonempty_len doc Hdoc).
    assert (0 = p) by (apply Huniq, empty_occurs; lia).
    assert (1 = p) by (apply Huniq, empty_occurs; lia). lia. }
  rewrite find_loop by assumption.
  destruct (matchLoop_ends doc (exact anchor) fuel Hne 0 []) as [ms Hms].
  { unfold enoughFuel in Hf. lia. }
  rewrite Hms. apply loop_candidates in Hms as (_ & idxs & HS & ->).
  destruct (occursAt_hit _ _ _ Hocc) as [Hb Hh].
  rewrite (Scan_unique doc (exact anchor) idxs (Z.to_nat p)); auto.
  - cbn [map]. unfold rangeAt. destruct Hocc as (H0 & _).
    rewrite Z2Nat.id by lia. reflexivity.
  - intros j Hj Hhj. apply hit_occursAt in Hhj; [|lia].
    apply Huniq in Hhj. lia.
Qed.

Lemma single_occurrence_returned_witness :
  findAnchorPosition 50 (str "Greetings world, this is a test.")
    {| prefix := str "Hello world, "; exact := str "this"; suffix := str " was" |}
  = Returns (Some {| from := 17; to := 21 |}).
Proof.
  apply (single_occurrence_returned 50 (str "Greetings world, this is a test.")
           {| prefix := str "Hello world, "; exact := str "this"; suffix := str " was" |}
           17).
  - discriminate.
  - vm_compute. repeat split; discriminate.
  - intros q (H0 & Hb & Hs).
    change (q + 4 <= 32) in Hb. change (len (exact _)) with 4 in Hs.
    assert (0 <= q <= 28) as Hq by lia.
    assert (exists n, q = Z.of_nat n /\ (n <= 28)%nat) as (n & -> & Hn)
      by (exists (Z.to_nat q); lia).
    do 29 (destruct n as [|n]; [try reflexivity; vm_compute in Hs; discriminate|]).
    lia.
  - vm_compute. lia.
Defined.

(** C3, counterexample.  The empty string occurs exactly once in the
    empty document, and the guard on the empty document returns null. *)
Lemma single_occurrence_empty_document :
  let doc := str "" in
  let anchor := {| prefix := str ""; exact := str ""; suffix := str "" |} in
  occursAt doc (exact anchor) 0 /\
  (forall q, occursAt doc (exact anchor) q -> q = 0) /\
  (forall fuel, findAnchorPosition fuel doc anchor = Returns None) /\
  (forall fuel, findAnchorPosition fuel doc anchor <>
                Returns (Some {| from := 0; to := 0 + len (exact anchor) |})).
Proof.
  cbv zeta. split; [|split; [|split]].
  - apply empty_occurs. change (0 <= 0 <= 0). lia.
  - intros q (H0 & Hb & _). change (q + 0 <= 0) in Hb. lia.
  - reflexivity.
  - discriminate.
Qed.

Lemma collects_nonempty_doc (doc e : jsstring) (ms : list Range) :
  collects doc e ms -> ms <> [] -> doc <> [].
Proof.
  intros Hc Hms ->. apply collects_Scan in Hc as (Hne & idxs & HS & ->).
  destruct idxs as [|i idxs]; [simpl in Hms; congruence|].
  destruct (Scan_hits _ _ _ _ HS i (or_introl eq_refl)) as [_ Hh].
  apply hit_bound in Hh; auto.
  pose proof (exact_nonempty_length e Hne). simpl in Hh. lia.
Qed.

(** On the occurrences that the match loop has collected,
    [findAnchorPosition] computes the score of the specification (+100 for
    a stored, non-empty suffix that the actual suffix starts with, else +1
    per character matching from the start of the suffix up to the first
    mismatch; +50 for a stored, non-empty prefix that the actual prefix
    ends with, else +0.5 per character matching backward from the end of
    the prefix up to the first mismatch); when there are several it
    returns the one with the highest score, and among those with that
    score the earliest in the document. *)
Lemma highest_score_earliest_wins
    (fuel : nat) (doc : jsstring) (anchor : Anchor) (ms : list Range) :
  collects doc (exact anchor) ms ->
  (1 < length ms)%nat ->
  (enoughFuel doc <= fuel)%nat ->
  (forall m', In m' ms ->
     score (scoreMatch doc (prefix anchor) (suffix anchor) m') ==
     specScore doc anchor m') /\
  exists m,
    In m ms /\
    findAnchorPosition fuel doc anchor = Returns (Some m) /\
    (forall m', In m' ms -> (specScore doc anchor m' <= specScore doc anchor m)%Q) /\
    (forall m', In m' ms ->
       specScore doc anchor m' == specScore doc anchor m -> from m <= from m').
Proof.
  intros Hc Hlen Hf.
  assert (doc <> []) as Hdoc.
  { apply (collects_nonempty_doc _ _ _ Hc). destruct ms; [simpl in Hlen; lia|discriminate]. }
  pose proof (collects_fuel _ _ _ fuel Hc Hf) as Hloop.
  apply collects_Scan in Hc as (Hne & idxs & HS & ->).
  rewrite length_map in Hlen. split.
  - intros m' Hm'. apply in_map_iff in Hm' as (k & <- & Hk).
    apply scoreMatch_spec; destruct (Scan_in_bounds _ _ _ k Hne HS Hk); auto.
  - destruct (choose_best fuel doc anchor idxs Hdoc Hne HS Hlen Hloop)
      as (i1 & i & i2 & -> & Hfind & H1 & H2).
    exists (rangeAt (exact anchor) i). split; [|split; [exact Hfind|split]].
    + apply in_map, in_or_app. simpl; auto.
    + intros m' Hm'. apply in_map_iff in Hm' as (k & <- & Hk).
      apply in_app_or in Hk as [Hk|[<-|Hk]].
      * apply Qlt_le_weak, H1, Hk.
      * apply Qle_refl.
      * apply H2, Hk.
    + intros m' Hm' Heq. apply in_map_iff in Hm' as (k & <- & Hk).
      apply in_app_or in Hk as [Hk|[<-|Hk]].
      * apply H1 in Hk. rewrite Heq in Hk. destruct (Qlt_irrefl _ Hk).
      * lia.
      * pose proof (Scan_sorted _ _ _ _ HS i1 i i2 eq_refl k Hk). simpl. lia.
Qed.

(** With a non-empty [exact] the loop ends, and the call returns the
    best of what it has collected. *)
Lemma best_candidate_returned (fuel : nat) (doc : jsstring) (anchor : Anchor) :
  exact anchor <> [] ->
  (enoughFuel doc <= fuel)%nat ->
  exists ms,
    collects doc (exact anchor) ms /\
    ((1 < length ms)%nat ->
     exists m,
       In m ms /\
       findAnchorPosition fuel doc anchor = Returns (Some m) /\
       (forall m', In m' ms -> (specScore doc anchor m' <= specScore doc anchor m)%Q) /\
       (forall m', In m' ms ->
          specScore doc anchor m' == specScore doc anchor m -> from m <= from m')).
Proof.
  intros Hne Hf. destruct (collects_exists doc (exact anchor) Hne) as [ms Hc].
  exists ms. split; [exact Hc|]. intros Hlen.
  apply (highest_score_earliest_wins fuel doc anchor ms Hc Hlen Hf).
Qed.

(** C2.  In the document [aaa aa] the text [aa] occurs at 0, 1 and 4.
    For the anchor of the range [1, 3) the occurrence at 1 has the score
    150 of a full match and the other two have the score 0, but the
    occurrence at 1 overlaps the match at 0 and is never scored:
    [findAnchorPosition] returns [{0, 2}], which is not the occurrence
    with the highest score. *)
Theorem best_occurrence_not_scored :
  let doc := str "aaa aa" in
  let anchor := createAnchor doc 1 3 in
  anchor = {| prefix := str "a"; exact := str "aa"; suffix := str " aa" |} /\
  occursAt doc (exact anchor) 0 /\
  occursAt doc (exact anchor) 1 /\
  occursAt doc (exact anchor) 4 /\
  specScore doc anchor {| from := 0; to := 2 |} == 0 /\
  specScore doc anchor {| from := 1; to := 3 |} == 150 /\
  specScore doc anchor {| from := 4; to := 6 |} == 0 /\
  collects doc (exact anchor) [ {| from := 0; to := 2 |}; {| from := 4; to := 6 |} ] /\
  findAnchorPosition (enoughFuel doc) doc anchor =
    Returns (Some {| from := 0; to := 2 |}) /\
  (forall fuel, findAnchorPosition fuel doc anchor <>
                Returns (Some {| from := 1; to := 3 |})).
Proof.
  cbv zeta. repeat split; try (vm_compute; discriminate); try reflexivity.
  - exists 8%nat, (literal (str "aa") 0). split; reflexivity.
  - intros fuel H.
    pose proof (find_more_fuel _ (Nat.max fuel 8) _ _ _ H (Nat.le_max_l _ _)) as H1.
    assert (findAnchorPosition 8 (str "aaa aa") (createAnchor (str "aaa aa") 1 3) =
            Returns (Some {| from := 0; to := 2 |})) as E by reflexivity.
    pose proof (find_more_fuel _ (Nat.max fuel 8) _ _ _ E (Nat.le_max_r _ _)) as H2.
    rewrite H1 in H2. discriminate.
Qed.

(** C1 (as amended).  For a document D and a non-empty in-bounds range
    [from, to), if every occurrence of D[from:to] that starts before
    [from] ends at or before [from] and has a context that differs from
    the stored one, then [findAnchorPosition(D, createAnchor(D, from, to))]
    returns exactly [{from, to}]. *)
Theorem round_trip_when_unambiguous (fuel : nat) (doc : jsstring) (from to : Z) :
  0 <= from < to -> to <= len doc ->
  (forall p, p < from ->
     occursAt doc (exact (createAnchor doc from to)) p ->
     p + (to - from) <= from /\
     ~ sameContext doc (createAnchor doc from to)
         {| TextAnchor.from := p; TextAnchor.to := p + (to - from) |}) ->
  (enoughFuel doc <= fuel)%nat ->
  findAnchorPosition fuel doc (createAnchor doc from to) =
  Returns (Some {| TextAnchor.from := from; TextAnchor.to := to |}).
Proof.
  intros Hft Ht Hearlier Hf.
  set (a := createAnchor doc from to) in *.
  destruct (createAnchor_slices doc from to) as (He & Hp & Hs); [lia|lia|].
  fold a in He, Hp, Hs.
  set (m0 := {| TextAnchor.from := from; TextAnchor.to := to |}).
  assert (len (exact a) = to - from) as Hlen
    by (rewrite He; apply slice_length; lia).
  assert (exact a <> []) as Hne
    by (intros E; rewrite E in Hlen; change (len []) with 0 in Hlen; lia).
  assert (doc <> []) as Hdoc
    by (intros E; rewrite E in Ht; change (len []) with 0 in Ht; lia).
  assert (occursAt doc (exact a) from) as Hocc.
  { unfold occursAt. rewrite Hlen.
    replace (from + (to - from)) with to by lia. repeat split; auto; lia. }
  assert (sameContext doc a m0) as Hsame.
  { unfold sameContext, actualSuffix, actualPrefix. cbn [m0 TextAnchor.from TextAnchor.to].
    rewrite <- Hs, <- Hp. split; right.
    - apply startsWith_refl.
    - apply endsWith_refl. }
  destruct (matchLoop_ends doc (exact a) fuel Hne 0 []) as [ms Hms].
  { unfold enoughFuel in Hf. lia. }
  destruct (loop_candidates _ _ _ _ Hms) as (_ & idxs & HS & ->).
  destruct (occursAt_hit _ _ _ Hocc) as [Hb Hh].
  set (p := Z.to_nat from) in *.
  assert (rangeAt (exact a) p = m0) as Hp0.
  { unfold rangeAt, m0, p. rewrite Hlen, Z2Nat.id by lia. f_equal. lia. }
  assert (forall j, (j < p)%nat -> hit doc (exact a) j = true ->
            (j + length (exact a) <= p)%nat /\
            ~ sameContext doc a (rangeAt (exact a) j)) as Hbefore.
  { intros j Hj Hhj. apply hit_occursAt in Hhj; [|lia].
    destruct (Hearlier (Z.of_nat j)) as [H1 H2]; [lia|exact Hhj|].
    unfold rangeAt. rewrite Hlen. split; [unfold len in Hlen; lia|exact H2]. }
  assert (In p idxs) as Hin.
  { apply (Scan_visits _ _ _ _ HS); auto; [lia|].
    intros j Hj Hover. destruct (hit doc (exact a) j) eqn:E; auto.
    destruct (Hbefore j Hj E). lia. }
  destruct idxs as [|i [|i' idxs]].
  - destruct Hin.
  - destruct Hin as [->|[]]. rewrite find_loop, Hms by assumption.
    cbn [map]. rewrite Hp0. reflexivity.
  - destruct (choose_best fuel doc a _ Hdoc Hne HS) as (i1 & k & i2 & Heq & Hfind & H1 & H2);
      [simpl; lia|exact Hms|].
    rewrite Hfind. rewrite Heq in Hin, HS.
    assert (0 <= TextAnchor.from m0 <= TextAnchor.to m0 /\ TextAnchor.to m0 <= len doc)
      as [B0 B0'] by (cbn; lia).
    destruct (Scan_in_bounds doc (exact a) _ k Hne HS) as [Bk Bk'];
      [apply in_or_app; simpl; auto|].
    destruct (full_context_is_best doc a m0 _ B0 B0' Bk Bk' Hsame) as [Hmax Honly].
    apply in_app_or in Hin as [Hin|[->|Hin]].
    + apply H1 in Hin. rewrite Hp0 in Hin. lra.
    + rewrite Hp0. reflexivity.
    + exfalso. pose proof (H2 _ Hin) as Hle. rewrite Hp0 in Hle.
      pose proof (Scan_sorted _ _ _ _ HS i1 k i2 eq_refl p Hin) as Hord.
      pose proof (exact_nonempty_length _ Hne).
      destruct (Scan_hits _ _ _ _ HS k) as [_ Hhk]; [apply in_or_app; simpl; auto|].
      assert (k < p)%nat as Hkp by lia.
      destruct (Hbefore k Hkp Hhk) as [_ Hdiff].
      apply Hdiff, Honly, Hle.
Qed.

Lemma round_trip_when_unambiguous_witness :
  findAnchorPosition 50 (str "The quick brown fox jumps over the lazy dog.")
    (createAnchor (str "The quick brown fox jumps over the lazy dog.") 16 19)
  = Returns (Some {| from := 16; to := 19 |}).
Proof.
  apply (round_trip_when_unambiguous 50
           (str "The quick brown fox jumps over the lazy dog.") 16 19).
  - lia.
  - vm_compute. discriminate.
  - intros p Hp (H0 & Hb & Hsl). exfalso.
    change (len (exact _)) with 3 in Hsl.
    assert (exists n, p = Z.of_nat n /\ (n < 16)%nat) as (n & -> & Hn)
      by (exists (Z.to_nat p); lia).
    do 16 (destruct n as [|n]; [vm_compute in Hsl; discriminate|]).
    lia.
  - vm_compute. lia.
Defined.

(** C1, counterexample.  The round trip fails on a document that repeats
    itself beyond the 32 characters of context: in 34 letters [a], the
    anchor of the last one resolves to the one before it. *)
Lemma round_trip_fails_on_repetition :
  let doc := repeat "a"%char 34 in
  0 <= 33 <= 34 /\ 34 <= len doc /\
  (forall fuel, (enoughFuel doc <= fuel)%nat ->
     findAnchorPosition fuel doc (createAnchor doc 33 34) =
     Returns (Some {| from := 32; to := 33 |})) /\
  (forall fuel,
     findAnchorPosition fuel doc (createAnchor doc 33 34) <>
     Returns (Some {| from := 33; to := 34 |})).
Proof.
  cbv zeta.
  assert (findAnchorPosition (enoughFuel (repeat "a"%char 34)) (repeat "a"%char 34)
            (createAnchor (repeat "a"%char 34) 33 34) =
          Returns (Some {| from := 32; to := 33 |})) as E
    by (vm_compute; reflexivity).
  split; [lia|]. split; [vm_compute; discriminate|]. split.
  - intros fuel Hf. apply (find_more_fuel _ _ _ _ _ E Hf).
  - intros fuel H.
    pose proof (find_more_fuel _ _ _ _ _ H (Nat.le_max_l fuel (enoughFuel (repeat "a"%char 34)))) as H1.
    pose proof (find_more_fuel _ _ _ _ _ E (Nat.le_max_r fuel (enoughFuel (repeat "a"%char 34)))) as H2.
    rewrite H1 in H2. discriminate.
Qed.

(** Every collected candidate is a literal occurrence of [exact]. *)
Lemma collected_are_occurrences (doc e : jsstring) (ms : list Range) (m : Range) :
  collects doc e ms -> In m ms ->
  occursAt doc e (from m) /\ to m = from m + len e.
Proof.
  intros Hc Hin. apply collects_Scan in Hc as (Hne & idxs & HS & ->).
  eapply candidate_occurs; eauto.
Qed.

(** Every literal occurrence of [exact] starts inside a collected
    candidate: it is a candidate itself, or a candidate that starts before
    it overlaps it. *)
Lemma occurrences_are_covered (doc e : jsstring) (ms : list Range) (p : Z) :
  collects doc e ms -> occursAt doc e p ->
  exists m, In m ms /\ from m <= p < to m.
Proof.
  intros Hc Hocc. apply collects_Scan in Hc as (Hne & idxs & HS & ->).
  destruct (occursAt_hit _ _ _ Hocc) as [Hb Hh]. destruct Hocc as (H0 & _).
  destruct (Scan_covers _ _ _ _ HS (Z.to_nat p)) as (i & Hi & Hcov); auto; [lia|].
  exists (rangeAt e i). split; [apply in_map, Hi|].
  unfold rangeAt, len. simpl. lia.
Qed.

(** C6.  In the document [aaa] the text [aa] occurs at 0 and at 1; the
    match loop collects the occurrence at 0 only, so the occurrence at 1
    is not among the candidates, and the anchor of the range [1, 3)
    resolves to [{0, 2}]. *)
Theorem overlapping_occurrence_omitted :
  let doc := str "aaa" in
  let e := str "aa" in
  occursAt doc e 0 /\ occursAt doc e 1 /\
  collects doc e [ {| from := 0; to := 2 |} ] /\
  (forall ms, collects doc e ms -> ms = [ {| from := 0; to := 2 |} ]) /\
  findAnchorPosition (enoughFuel doc) doc (createAnchor doc 1 3) =
    Returns (Some {| from := 0; to := 2 |}) /\
  (forall fuel, findAnchorPosition fuel doc (createAnchor doc 1 3) <>
                Returns (Some {| from := 1; to := 3 |})).
Proof.
  cbv zeta. split; [|split; [|split; [|split; [|split]]]].
  - vm_compute. repeat split; discriminate.
  - vm_compute. repeat split; discriminate.
  - exists 5%nat, (literal (str "aa") 0). split; reflexivity.
  - intros ms Hc.
    pose proof (collects_fuel _ _ _ (enoughFuel (str "aaa")) Hc (Nat.le_refl _)) as H.
    vm_compute in H. injection H as <-. reflexivity.
  - reflexivity.
  - intros fuel H.
    pose proof (find_more_fuel _ (Nat.max fuel 5) _ _ _ H (Nat.le_max_l _ _)) as H1.
    assert (findAnchorPosition 5 (str "aaa") (createAnchor (str "aaa") 1 3) =
            Returns (Some {| from := 0; to := 2 |})) as E by reflexivity.
    pose proof (find_more_fuel _ (Nat.max fuel 5) _ _ _ E (Nat.le_max_r _ _)) as H2.
    rewrite H1 in H2. discriminate.
Qed.

(** With an empty [exact] and a non-empty document the match loop never
    ends: no amount of fuel lets the call return. *)
Lemma empty_exact_diverges (fuel : nat) (doc : jsstring) (anchor : Anchor) :
  doc <> [] -> exact anchor = [] ->
  findAnchorPosition fuel doc anchor = OutOfFuel.
Proof.
  intros Hdoc He. rewrite find_loop by assumption.
  rewrite He, matchLoop_empty by lia. reflexivity.
Qed.

(** The call returns exactly when the document is empty or [exact] is not. *)
Lemma returns_iff (doc : jsstring) (anchor : Anchor) :
  (exists fuel r, findAnchorPosition fuel doc anchor = Returns r) <->
  doc = [] \/ exact anchor <> [].
Proof.
  split.
  - intros (fuel & r & H).
    destruct doc as [|c doc]; [left; reflexivity|right].
    intros E. rewrite empty_exact_diverges in H by (auto; discriminate).
    discriminate.
  - intros [->|Hne]; [exists 0%nat, None; reflexivity|].
    destruct doc as [|c doc]; [exists 0%nat, None; reflexivity|].
    exists (enoughFuel (c :: doc)).
    destruct (findAnchorPosition (enoughFuel (c :: doc)) (c :: doc) anchor) as [r| |] eqn:E.
    + exists r. reflexivity.
    + destruct (find_no_throw _ _ _ E).
    + rewrite find_loop in E by discriminate.
      destruct (matchLoop_ends (c :: doc) (exact anchor) (enoughFuel (c :: doc)) Hne 0 [])
        as [ms Hms]; [unfold enoughFuel; lia|].
      rewrite Hms in E. destruct ms as [|m [|m' ms]]; try discriminate.
      destruct (JS.sort _ _); discriminate.
Qed.

(** C7.  For the document [a] and the anchor of the empty selection at
    its start, [findAnchorPosition] does not return, whatever the number
    of iterations allowed. *)
Theorem empty_selection_never_returns :
  forall fuel,
    findAnchorPosition fuel (str "a") (createAnchor (str "a") 0 0) = OutOfFuel.
Proof.
  intros fuel. apply empty_exact_diverges; [discriminate|reflexivity].
Qed.

End AnchorProperties.

(** * Facts about the two histories *)

Module HistoryFacts.

(** ** Arrays *)

Lemma slice_prefix {A : Type} (arr : list A) (k : Z) :
  0 <= k -> JS.slice arr 0 k = firstn (Z.to_nat k) arr.
Proof.
  intros Hk. unfold JS.slice, JS.relative.
  branch (0 <? 0) false.
  branch (k <? 0) false.
  rewrite (Z.min_l 0) by lia. change (Z.to_nat 0) with 0%nat.
  change (skipn 0 arr) with arr. rewrite Z.sub_0_r.
  destruct (Z.le_gt_cases k (Z.of_nat (length arr))).
  - replace (Z.max (Z.min k (Z.of_nat (length arr))) 0) with k by lia.
    reflexivity.
  - replace (Z.max (Z.min k (Z.of_nat (length arr))) 0)
      with (Z.of_nat (length arr)) by lia.
    rewrite Nat2Z.id, firstn_all.
    symmetry. apply firstn_all2. lia.
Qed.

Lemma index_Some {A : Type} (arr : list A) (i : Z) :
  0 <= i < Z.of_nat (length arr) -> exists x, JS.index arr i = Some x.
Proof.
  intros Hi. unfold JS.index.
  branch (i <? 0) false.
  destruct (nth_error arr (Z.to_nat i)) as [x|] eqn:E; [eauto|].
  apply nth_error_None in E. lia.
Qed.

Lemma index_firstn {A : Type} (arr : list A) (n : nat) (i : Z) :
  i < Z.of_nat n -> JS.index (firstn n arr) i = JS.index arr i.
Proof.
  intros Hi. unfold JS.index. destruct (i <? 0) eqn:E; [reflexivity|].
  apply Z.ltb_ge in E. rewrite nth_error_firstn.
  branch (Z.to_nat i <? n)%nat true.
  reflexivity.
Qed.

Lemma index_app_l {A : Type} (l1 l2 : list A) (i : Z) :
  i < Z.of_nat (length l1) -> JS.index (l1 ++ l2) i = JS.index l1 i.
Proof.
  intros Hi. unfold JS.index. destruct (i <? 0) eqn:E; [reflexivity|].
  apply Z.ltb_ge in E. apply nth_error_app1. lia.
Qed.

Lemma index_app_last {A : Type} (l : list A) (x : A) :
  JS.index (l ++ [x]) (Z.of_nat (length l)) = Some x.
Proof.
  unfold JS.index.
  branch (Z.of_nat (length l) <? 0) false.
  rewrite Nat2Z.id, nth_error_app2, Nat.sub_diag by lia. reflexivity.
Qed.

(** Truncating after index [i] and appending [x]: the elements up to [i]
    stay, [x] is at [i + 1] and is the last one. *)
Lemma truncate_append {A : Type} (arr : list A) (i : Z) (x : A) :
  -1 <= i < Z.of_nat (length arr) ->
  let arr' := firstn (Z.to_nat (i + 1)) arr ++ [x] in
  Z.of_nat (length arr') = i + 2 /\
  JS.index arr' (i + 1) = Some x /\
  (forall j, j <= i -> JS.index arr' j = JS.index arr j) /\
  (forall j, i + 1 < j -> JS.index arr' j = None).
Proof.
  intros Hi arr'. subst arr'.
  assert (length (firstn (Z.to_nat (i + 1)) arr) = Z.to_nat (i + 1)) as Hl
    by (rewrite length_firstn; lia).
  repeat split.
  - rewrite length_app, Hl. simpl. lia.
  - replace (i + 1) with (Z.of_nat (length (firstn (Z.to_nat (i + 1)) arr))) at 2
      by (rewrite Hl; lia).
    apply index_app_last.
  - intros j Hj. rewrite index_app_l by (rewrite Hl; lia).
    apply index_firstn. lia.
  - intros j Hj. unfold JS.index.
    branch (j <? 0) false.
    apply nth_error_None. rewrite length_app, Hl. simpl. lia.
Qed.

(** ** The navigation history of app.js *)

Section NavigationFacts.
Import Navigation.
Context {Handle : Type}.
Implicit Types s : App Handle.

Lemma wf_init : wf (init (Handle := Handle)).
Proof. unfold wf. simpl. lia. Qed.

Lemma addToHistory_history s :
  -1 <= historyIndex s ->
  navigationHistory (addToHistory s) =
  firstn (Z.to_nat (historyIndex s + 1)) (navigationHistory s) ++
  [ {| path := currentPath s; dirHandle := currentDirHandle s;
       fileHandle := currentFileHandle s; filename := currentFilename s |} ].
Proof.
  intros H. unfold addToHistory. cbn [navigationHistory].
  rewrite slice_prefix by lia. reflexivity.
Qed.

Lemma addToHistory_index s :
  historyIndex (addToHistory s) =
  Z.of_nat (length (navigationHistory (addToHistory s))) - 1.
Proof. reflexivity. Qed.

Lemma wf_addToHistory s : wf (addToHistory s).
Proof.
  unfold wf. rewrite addToHistory_index.
  unfold addToHistory, JS.push. cbn [navigationHistory].
  rewrite length_app. simpl. lia.
Qed.

Lemma wf_visit (e : Entry Handle) s : wf (visit e s).
Proof. apply wf_addToHistory. Qed.

Lemma moveTo_Load s (i : Z) :
  0 <= i < Z.of_nat (length (navigationHistory s)) ->
  exists state s',
    moveTo s i = (Loaded state, s') /\
    JS.index (navigationHistory s) i = Some state /\
    navigationHistory s' = navigationHistory s /\
    historyIndex s' = i.
Proof.
  intros Hi. destruct (index_Some (navigationHistory s) i Hi) as [state E].
  unfold moveTo. rewrite E. eexists _, _. repeat split.
Qed.

Lemma wf_goBack s : wf s -> wf (snd (goBack s)).
Proof.
  unfold wf, goBack. intros H.
  destruct (Z.leb_spec (historyIndex s) 0); [exact H|].
  destruct (moveTo_Load s (historyIndex s - 1)) as (st & s' & -> & _ & E1 & E2); [lia|].
  cbn [snd]. rewrite E1, E2. lia.
Qed.

Lemma wf_goForward s : wf s -> wf (snd (goForward s)).
Proof.
  unfold wf, goForward. intros H.
  destruct (Z.geb_spec (historyIndex s) (Z.of_nat (length (navigationHistory s)) - 1));
    [exact H|].
  destruct (moveTo_Load s (historyIndex s + 1)) as (st & s' & -> & _ & E1 & E2); [lia|].
  cbn [snd]. rewrite E1, E2. lia.
Qed.
End NavigationFacts.

(** ** The history manager *)

Import HistoryManager.

Lemma wf_emptyHistory : wf emptyHistory.
Proof. unfold wf. simpl. lia. Qed.

Lemma wf_append (h : FileHistory) (s : Snapshot) : wf (append h s).
Proof. unfold wf, append. cbn [snapshots currentIndex]. rewrite length_app. simpl. lia. Qed.

Lemma wf_back (h : FileHistory) : wf h -> wf (snd (back h)).
Proof.
  unfold wf, back. intros H.
  destruct (Z.leb_spec (currentIndex h) 0); cbn [snd snapshots currentIndex]; lia.
Qed.

Lemma wf_forward (h : FileHistory) : wf h -> wf (snd (forward h)).
Proof.
  unfold wf, forward. intros H.
  destruct (Z.geb_spec (currentIndex h) (Z.of_nat (length (snapshots h)) - 1));
    cbn [snd snapshots currentIndex]; lia.
Qed.

Lemma historyOf_createSnapshot (m : Manager) (filePath : string) (now : Z)
    (content : jsstring) (cursor : Position) (scroll : Scroll) :
  historyOf (createSnapshot m filePath now content cursor scroll) filePath =
  append (historyOf m filePath)
    {| content := content; timestamp := now; cursor := cursor; scroll := scroll |}.
Proof.
  unfold historyOf at 1, createSnapshot. cbn [histories].
  rewrite lookup_insert_eq. reflexivity.
Qed.

Lemma historyOf_createSnapshot_other (m : Manager) (filePath other : string) (now : Z)
    (content : jsstring) (cursor : Position) (scroll : Scroll) :
  filePath <> other ->
  historyOf (createSnapshot m filePath now content cursor scroll) other =
  historyOf m other.
Proof.
  intros Hne. unfold historyOf, createSnapshot. cbn [histories].
  rewrite lookup_insert_ne by assumption. reflexivity.
Qed.

Lemma undo_back (m : Manager) (filePath : string) :
  fst (undo m filePath) = fst (back (historyOf m filePath)) /\
  historyOf (snd (undo m filePath)) filePath = snd (back (historyOf m filePath)).
Proof.
  unfold undo, historyOf. destruct (histories m !! filePath) as [h|] eqn:E.
  - simpl. destruct (back h) as [r h']. simpl.
    rewrite lookup_insert_eq. split; reflexivity.
  - simpl. rewrite E. split; reflexivity.
Qed.

Lemma redo_forward (m : Manager) (filePath : string) :
  fst (redo m filePath) = fst (forward (historyOf m filePath)) /\
  historyOf (snd (redo m filePath)) filePath = snd (forward (historyOf m filePath)).
Proof.
  unfold redo, historyOf. destruct (histories m !! filePath) as [h|] eqn:E.
  - simpl. destruct (forward h) as [r h']. simpl.
    rewrite lookup_insert_eq. split; reflexivity.
  - simpl. rewrite E. split; reflexivity.
Qed.

(** At a boundary nothing in the manager changes. *)
Lemma undo_at_start (m : Manager) (filePath : string) :
  currentIndex (historyOf m filePath) <= 0 -> undo m filePath = (None, m).
Proof.
  unfold undo, historyOf. destruct (histories m !! filePath) as [h|] eqn:E;
    simpl; [|reflexivity].
  intros H. unfold back.
  branch (currentIndex h <=? 0) true.
  rewrite insert_id by assumption. destruct m; reflexivity.
Qed.

Lemma redo_at_end (m : Manager) (filePath : string) :
  currentIndex (historyOf m filePath) >=
    Z.of_nat (length (snapshots (historyOf m filePath))) - 1 ->
  redo m filePath = (None, m).
Proof.
  unfold redo, historyOf. destruct (histories m !! filePath) as [h|] eqn:E;
    simpl; [|reflexivity].
  intros H. unfold forward.
  branch (currentIndex h >=? Z.of_nat (length (snapshots h)) - 1) true.
  rewrite insert_id by assumption. destruct m; reflexivity.
Qed.

End HistoryFacts.

(** * The properties of the histories *)

Module HistoryProperties.
Import HistorySpec HistoryFacts.

(** C8.  Creating a snapshot discards the snapshots after
    [currentIndex], appends the new one and leaves [currentIndex] at
    [snapshots.length - 1]; the sequence createSnapshot x3, undo, undo,
    createSnapshot leaves two snapshots and [currentIndex = 1].  The
    same holds of [addToHistory], [goBack] and [goForward] of app.js. *)
Theorem snapshot_truncates_branch :
  (forall m filePath now content cursor scroll,
      let h := HistoryManager.historyOf m filePath in
      let h' := HistoryManager.historyOf
                  (HistoryManager.createSnapshot m filePath now content cursor scroll)
                  filePath in
      HistoryManager.wf h ->
      truncatedAppend
        (HistoryManager.snapshots h) (HistoryManager.currentIndex h)
        {| HistoryManager.content := content; HistoryManager.timestamp := now;
           HistoryManager.cursor := cursor; HistoryManager.scroll := scroll |}
        (HistoryManager.snapshots h') (HistoryManager.currentIndex h')) /\
  (forall filePath t1 t2 t3 t4 c1 c2 c3 c4 p1 p2 p3 p4 s1 s2 s3 s4,
      let m1 := HistoryManager.createSnapshot HistoryManager.empty filePath t1 c1 p1 s1 in
      let m2 := HistoryManager.createSnapshot m1 filePath t2 c2 p2 s2 in
      let m3 := HistoryManager.createSnapshot m2 filePath t3 c3 p3 s3 in
      let m4 := snd (HistoryManager.undo m3 filePath) in
      let m5 := snd (HistoryManager.undo m4 filePath) in
      let m6 := HistoryManager.createSnapshot m5 filePath t4 c4 p4 s4 in
      length (HistoryManager.snapshots (HistoryManager.historyOf m6 filePath)) = 2%nat /\
      HistoryManager.currentIndex (HistoryManager.historyOf m6 filePath) = 1) /\
  (forall (Handle : Type) (s : Navigation.App Handle),
      Navigation.wf s ->
      truncatedAppend
        (Navigation.navigationHistory s) (Navigation.historyIndex s)
        {| Navigation.path := Navigation.currentPath s;
           Navigation.dirHandle := Navigation.currentDirHandle s;
           Navigation.fileHandle := Navigation.currentFileHandle s;
           Navigation.filename := Navigation.currentFilename s |}
        (Navigation.navigationHistory (Navigation.addToHistory s))
        (Navigation.historyIndex (Navigation.addToHistory s))) /\
  (forall (Handle : Type) (e1 e2 e3 e4 : Navigation.Entry Handle),
      let s3 := Navigation.visit e3 (Navigation.visit e2 (Navigation.visit e1 Navigation.init)) in
      let s5 := snd (Navigation.goBack (snd (Navigation.goBack s3))) in
      let s6 := Navigation.visit e4 s5 in
      length (Navigation.navigationHistory s6) = 2%nat /\
      Navigation.historyIndex s6 = 1).
Proof.
  split; [|split; [|split]].
  - intros m filePath now content cursor scroll h h' Hwf. subst h h'.
    rewrite historyOf_createSnapshot.
    set (h := HistoryManager.historyOf m filePath) in *.
    unfold HistoryManager.append.
    cbn [HistoryManager.snapshots HistoryManager.currentIndex].
    destruct (truncate_append (HistoryManager.snapshots h) (HistoryManager.currentIndex h)
                {| HistoryManager.content := content; HistoryManager.timestamp := now;
                   HistoryManager.cursor := cursor; HistoryManager.scroll := scroll |} Hwf)
      as (Hl & Hx & Hkeep & Hcut).
    unfold truncatedAppend. rewrite Hl.
    replace (HistoryManager.currentIndex h + 2 - 1)
      with (HistoryManager.currentIndex h + 1) by lia.
    repeat split; auto.
  - intros. subst m1 m2 m3 m4 m5 m6.
    rewrite historyOf_createSnapshot.
    rewrite (proj2 (undo_back _ _)), (proj2 (undo_back _ _)).
    rewrite !historyOf_createSnapshot.
    split; reflexivity.
  - intros Handle s Hwf. unfold Navigation.wf in Hwf.
    rewrite addToHistory_index, addToHistory_history by lia.
    destruct (truncate_append (Navigation.navigationHistory s) (Navigation.historyIndex s)
                {| Navigation.path := Navigation.currentPath s;
                   Navigation.dirHandle := Navigation.currentDirHandle s;
                   Navigation.fileHandle := Navigation.currentFileHandle s;
                   Navigation.filename := Navigation.currentFilename s |} Hwf)
      as (Hl & Hx & Hkeep & Hcut).
    unfold truncatedAppend. rewrite Hl.
    replace (Navigation.historyIndex s + 2 - 1)
      with (Navigation.historyIndex s + 1) by lia.
    repeat split; auto.
  - intros. subst s3 s5 s6. split; reflexivity.
Qed.

Lemma snapshot_truncates_branch_witness :
  let h := {| HistoryManager.snapshots :=
                [ {| HistoryManager.content := str "a"; HistoryManager.timestamp := 1;
                     HistoryManager.cursor := {| HistoryManager.line := 0; HistoryManager.column := 0 |};
                     HistoryManager.scroll := {| HistoryManager.top := 0; HistoryManager.left := 0 |} |};
                  {| HistoryManager.content := str "ab"; HistoryManager.timestamp := 2;
                     HistoryManager.cursor := {| HistoryManager.line := 0; HistoryManager.column := 1 |};
                     HistoryManager.scroll := {| HistoryManager.top := 0; HistoryManager.left := 0 |} |} ];
              HistoryManager.currentIndex := 0 |} in
  let m := {| HistoryManager.histories := {[ "notes.md"%string := h ]} |} in
  let m' := HistoryManager.createSnapshot m "notes.md" 3 (str "ac")
              {| HistoryManager.line := 0; HistoryManager.column := 1 |}
              {| HistoryManager.top := 0; HistoryManager.left := 0 |} in
  Z.of_nat (length (HistoryManager.snapshots (HistoryManager.historyOf m' "notes.md"))) = 2 /\
  HistoryManager.currentIndex (HistoryManager.historyOf m' "notes.md") = 1.
Proof.
  intros h m m'.
  destruct (proj1 snapshot_truncates_branch m "notes.md"%string 3 (str "ac")
              {| HistoryManager.line := 0; HistoryManager.column := 1 |}
              {| HistoryManager.top := 0; HistoryManager.left := 0 |})
    as (Hl & Hi & _).
  - vm_compute. split; [discriminate|reflexivity].
  - fold m' in Hl, Hi. rewrite Hi, Hl. split; reflexivity.
Defined.

(** C9.  [undo] with [currentIndex <= 0] returns null and leaves the
    manager unchanged; otherwise it decrements [currentIndex] by one,
    keeps the snapshots and returns the snapshot now pointed to.  [redo]
    with [currentIndex >= snapshots.length - 1] returns null and leaves
    the manager unchanged; otherwise it increments [currentIndex] by
    one, keeps the snapshots and returns the snapshot now pointed to.
    The same holds of [goBack] and [goForward] of app.js, which load the
    entry they point to. *)
Theorem undo_redo_boundaries :
  (forall m filePath,
      let h := HistoryManager.historyOf m filePath in
      HistoryManager.wf h ->
      (HistoryManager.currentIndex h <= 0 ->
       HistoryManager.undo m filePath = (None, m)) /\
      (0 < HistoryManager.currentIndex h ->
       exists s,
         fst (HistoryManager.undo m filePath) = Some s /\
         JS.index (HistoryManager.snapshots h) (HistoryManager.currentIndex h - 1) = Some s /\
         HistoryManager.historyOf (snd (HistoryManager.undo m filePath)) filePath =
         {| HistoryManager.snapshots := HistoryManager.snapshots h;
            HistoryManager.currentIndex := HistoryManager.currentIndex h - 1 |}) /\
      (HistoryManager.currentIndex h >= Z.of_nat (length (HistoryManager.snapshots h)) - 1 ->
       HistoryManager.redo m filePath = (None, m)) /\
      (HistoryManager.currentIndex h < Z.of_nat (length (HistoryManager.snapshots h)) - 1 ->
       exists s,
         fst (HistoryManager.redo m filePath) = Some s /\
         JS.index (HistoryManager.snapshots h) (HistoryManager.currentIndex h + 1) = Some s /\
         HistoryManager.historyOf (snd (HistoryManager.redo m filePath)) filePath =
         {| HistoryManager.snapshots := HistoryManager.snapshots h;
            HistoryManager.currentIndex := HistoryManager.currentIndex h + 1 |})) /\
  (forall (Handle : Type) (s : Navigation.App Handle),
      Navigation.wf s ->
      (Navigation.historyIndex s <= 0 ->
       Navigation.goBack s = (Navigation.Stayed, s)) /\
      (0 < Navigation.historyIndex s ->
       exists state s',
         Navigation.goBack s = (Navigation.Loaded state, s') /\
         JS.index (Navigation.navigationHistory s) (Navigation.historyIndex s - 1) = Some state /\
         Navigation.navigationHistory s' = Navigation.navigationHistory s /\
         Navigation.historyIndex s' = Navigation.historyIndex s - 1) /\
      (Navigation.historyIndex s >= Z.of_nat (length (Navigation.navigationHistory s)) - 1 ->
       Navigation.goForward s = (Navigation.Stayed, s)) /\
      (Navigation.historyIndex s < Z.of_nat (length (Navigation.navigationHistory s)) - 1 ->
       exists state s',
         Navigation.goForward s = (Navigation.Loaded state, s') /\
         JS.index (Navigation.navigationHistory s) (Navigation.historyIndex s + 1) = Some state /\
         Navigation.navigationHistory s' = Navigation.navigationHistory s /\
         Navigation.historyIndex s' = Navigation.historyIndex s + 1)).
Proof.
  split.
  - intros m filePath h Hwf. unfold HistoryManager.wf in Hwf.
    split; [|split; [|split]].
    + apply undo_at_start.
    + intros Hpos. destruct (undo_back m filePath) as [E1 E2]. fold h in E1, E2.
      destruct (index_Some (HistoryManager.snapshots h) (HistoryManager.currentIndex h - 1))
        as [s Hs]; [lia|].
      exists s. rewrite E1, E2. unfold HistoryManager.back.
      branch (HistoryManager.currentIndex h <=? 0) false.
      cbn [fst snd]. auto.
    + apply redo_at_end.
    + intros Hlt. destruct (redo_forward m filePath) as [E1 E2]. fold h in E1, E2.
      destruct (index_Some (HistoryManager.snapshots h) (HistoryManager.currentIndex h + 1))
        as [s Hs]; [lia|].
      exists s. rewrite E1, E2. unfold HistoryManager.forward.
      destruct (Z.geb_spec (HistoryManager.currentIndex h)
                  (Z.of_nat (length (HistoryManager.snapshots h)) - 1)); [lia|].
      cbn [fst snd]. auto.
  - intros Handle s Hwf. unfold Navigation.wf in Hwf.
    split; [|split; [|split]].
    + intros H. unfold Navigation.goBack.
      branch (Navigation.historyIndex s <=? 0) true.
      reflexivity.
    + intros H. unfold Navigation.goBack.
      branch (Navigation.historyIndex s <=? 0) false.
      apply moveTo_Load. lia.
    + intros H. unfold Navigation.goForward.
      destruct (Z.geb_spec (Navigation.historyIndex s)
                  (Z.of_nat (length (Navigation.navigationHistory s)) - 1)); [|lia].
      reflexivity.
    + intros H. unfold Navigation.goForward.
      destruct (Z.geb_spec (Navigation.historyIndex s)
                  (Z.of_nat (length (Navigation.navigationHistory s)) - 1)); [lia|].
      apply moveTo_Load. lia.
Qed.

Lemma undo_redo_boundaries_witness :
  let s1 := {| HistoryManager.content := str "a"; HistoryManager.timestamp := 1;
               HistoryManager.cursor := {| HistoryManager.line := 0; HistoryManager.column := 0 |};
               HistoryManager.scroll := {| HistoryManager.top := 0; HistoryManager.left := 0 |} |} in
  let s2 := {| HistoryManager.content := str "ab"; HistoryManager.timestamp := 2;
               HistoryManager.cursor := {| HistoryManager.line := 0; HistoryManager.column := 1 |};
               HistoryManager.scroll := {| HistoryManager.top := 0; HistoryManager.left := 0 |} |} in
  let m := {| HistoryManager.histories :=
                {[ "notes.md"%string :=
                     {| HistoryManager.snapshots := [s1; s2];
                        HistoryManager.currentIndex := 1 |} ]} |} in
  fst (HistoryManager.undo m "notes.md") = Some s1 /\
  HistoryManager.redo m "notes.md" = (None, m).
Proof.
  intros s1 s2 m.
  destruct (proj1 undo_redo_boundaries m "notes.md"%string)
    as (_ & Hundo & Hredo & _).
  - vm_compute. split; [discriminate|reflexivity].
  - split.
    + destruct Hundo as (s & Hs & Hidx & _); [reflexivity|].
      rewrite Hs. rewrite <- Hidx. reflexivity.
    + apply Hredo. vm_compute. discriminate.
Defined.

End HistoryProperties.

(** * Further facts about the text anchors *)

Module AnchorMoreFacts.
Import TextAnchor AnchorSpec TextAnchorFacts.

(** The range of an occurrence of [exact] that starts at [p]. *)
Lemma rangeAt_to_nat (e : jsstring) (p : Z) :
  0 <= p ->
  rangeAt e (Z.to_nat p) = {| from := p; to := p + len e |}.
Proof. intros Hp. unfold rangeAt. rewrite Z2Nat.id by lia. reflexivity. Qed.

(** The earliest occurrence whose context matches in full is the one that
    is returned, provided that no earlier occurrence overlaps it. *)
Lemma first_full_match (fuel : nat) (doc : jsstring) (anchor : Anchor) (p : Z) :
  exact anchor <> [] ->
  occursAt doc (exact anchor) p ->
  sameContext doc anchor {| from := p; to := p + len (exact anchor) |} ->
  (forall q, q < p -> occursAt doc (exact anchor) q ->
     q + len (exact anchor) <= p /\
     ~ sameContext doc anchor {| from := q; to := q + len (exact anchor) |}) ->
  (enoughFuel doc <= fuel)%nat ->
  findAnchorPosition fuel doc anchor =
  Returns (Some {| from := p; to := p + len (exact anchor) |}).
Proof.
  intros Hne Hocc Hsame Hearlier Hf.
  set (e := exact anchor) in *.
  set (m0 := {| from := p; to := p + len e |}) in *.
  pose proof (exact_nonempty_length _ Hne) as Hlen.
  assert (doc <> []) as Hdoc.
  { intros E. destruct Hocc as (H0 & H1 & _). rewrite E in H1.
    change (len []) with 0 in H1. unfold len in H1. lia. }
  destruct (matchLoop_ends doc e fuel Hne 0 []) as [ms Hms].
  { unfold enoughFuel in Hf. lia. }
  destruct (loop_candidates _ _ _ _ Hms) as (_ & idxs & HS & ->).
  destruct (occursAt_hit _ _ _ Hocc) as [Hb Hh].
  assert (0 <= p) as Hp by (destruct Hocc; lia).
  set (n := Z.to_nat p) in *.
  assert (rangeAt e n = m0) as Hp0 by (apply rangeAt_to_nat; exact Hp).
  assert (forall j, (j < n)%nat -> hit doc e j = true ->
            (j + length e <= n)%nat /\ ~ sameContext doc anchor (rangeAt e j)) as Hbefore.
  { intros j Hj Hhj. apply hit_occursAt in Hhj; [|lia].
    destruct (Hearlier (Z.of_nat j)) as [H1 H2]; [lia|exact Hhj|].
    split; [unfold len in H1; lia|exact H2]. }
  assert (In n idxs) as Hin.
  { apply (Scan_visits _ _ _ _ HS); auto; [lia|].
    intros j Hj Hover. destruct (hit doc e j) eqn:E; auto.
    destruct (Hbefore j Hj E). lia. }
  destruct idxs as [|i [|i' idxs]].
  - destruct Hin.
  - destruct Hin as [->|[]]. rewrite find_loop by assumption. fold e. rewrite Hms.
    cbn [map]. rewrite Hp0. reflexivity.
  - destruct (choose_best fuel doc anchor _ Hdoc Hne HS) as (i1 & k & i2 & Heq & Hfind & H1 & H2);
      [simpl; lia|exact Hms|].
    rewrite Hfind. fold e in Hfind, H1, H2 |- *. rewrite Heq in Hin, HS.
    assert (0 <= from m0 <= to m0 /\ to m0 <= len doc) as [B0 B0'].
    { destruct Hocc as (? & ? & _). pose proof (len_nonneg e). cbn. lia. }
    destruct (Scan_in_bounds doc e _ k Hne HS) as [Bk Bk'];
      [apply in_or_app; simpl; auto|].
    destruct (full_context_is_best doc anchor m0 _ B0 B0' Bk Bk' Hsame) as [Hmax Honly].
    apply in_app_or in Hin as [Hin|[->|Hin]].
    + apply H1 in Hin. rewrite Hp0 in Hin. lra.
    + rewrite Hp0. reflexivity.
    + exfalso. pose proof (H2 _ Hin) as Hle. rewrite Hp0 in Hle.
      pose proof (Scan_sorted _ _ _ _ HS i1 k i2 eq_refl n Hin) as Hord.
      destruct (Scan_hits _ _ _ _ HS k) as [_ Hhk]; [apply in_or_app; simpl; auto|].
      assert (k < n)%nat as Hkp by lia.
      destruct (Hbefore k Hkp Hhk) as [_ Hdiff].
      apply Hdiff, Honly, Hle.
Qed.

(** ** Slices of documents that share text *)

Lemma slice_agree (d d' : jsstring) (k : nat) (a b : Z) :
  firstn k d' = firstn k d -> b <= Z.of_nat k ->
  slice d' a b = slice d a b.
Proof.
  intros Hk Hb. unfold slice.
  assert (Z.to_nat b <= k)%nat as Hle by lia.
  rewrite <- (Nat.min_l _ _ Hle), <- !firstn_firstn, Hk. reflexivity.
Qed.

Lemma slice_shift (pre rest : jsstring) (a b : Z) :
  0 <= a -> 0 <= b ->
  slice (pre ++ rest) (len pre + a) (len pre + b) = slice rest a b.
Proof.
  intros Ha Hb. unfold slice, len.
  replace (Z.to_nat (Z.of_nat (length pre) + b)) with (length pre + Z.to_nat b)%nat by lia.
  replace (Z.to_nat (Z.of_nat (length pre) + a)) with (length pre + Z.to_nat a)%nat by lia.
  rewrite firstn_app_2, skipn_app, skipn_all2 by lia.
  replace (length pre + Z.to_nat a - length pre)%nat with (Z.to_nat a) by lia.
  reflexivity.
Qed.

(** A slice starts with [s] exactly when [s] fits and is the text there. *)
Lemma startsWith_slice (d s : jsstring) (t u : Z) :
  0 <= t <= u -> u <= len d ->
  JS.startsWith (slice d t u) s = true <->
  t + len s <= u /\ slice d t (t + len s) = s.
Proof.
  intros Ht Hu. rewrite startsWith_firstn. unfold slice, len in *. split.
  - intros H.
    assert (length s <= Z.to_nat u - Z.to_nat t)%nat as Hl.
    { rewrite <- H at 1. rewrite length_firstn, length_skipn, length_firstn. lia. }
    split; [lia|].
    rewrite <- H at 2. rewrite firstn_skipn_comm, firstn_firstn.
    f_equal. f_equal. lia.
  - intros [Hl H]. rewrite <- H at 2.
    rewrite firstn_skipn_comm, firstn_firstn. f_equal. f_equal. lia.
Qed.

(** ** Bounds of the score *)

Lemma suffixScore_nonneg (sfx actual : jsstring) : (0 <= suffixScore sfx actual)%Q.
Proof.
  unfold suffixScore. destruct (JS.truthy sfx && JS.startsWith actual sfx); [lra|].
  change 0%Q with (inject_Z 0). rewrite <- Zle_Qle. lia.
Qed.

Lemma prefixScore_nonneg (pfx actual : jsstring) : (0 <= prefixScore pfx actual)%Q.
Proof.
  unfold prefixScore. destruct (JS.truthy pfx && JS.endsWith actual pfx); [lra|].
  assert (0 <= inject_Z (Z.of_nat (commonSuffixLength pfx actual)))%Q.
  { change 0%Q with (inject_Z 0). rewrite <- Zle_Qle. lia. }
  lra.
Qed.

(** A candidate whose text after the match does not start with the
    suffix scores at most 82; one whose text does scores at least 100. *)
Lemma score_without_suffix (doc : jsstring) (anchor : Anchor) (m : Range) :
  0 <= from m <= to m -> to m <= len doc ->
  suffix anchor <> [] ->
  JS.startsWith (actualSuffix doc m) (suffix anchor) = false ->
  (specScore doc anchor m <= 82)%Q.
Proof.
  intros Hm Hm' Hne Hs.
  destruct (actual_context_length doc m Hm Hm') as [Ls Lp].
  unfold specScore.
  destruct (suffixScore_cases (suffix anchor) (actualSuffix doc m) Ls)
    as [[E _]|[(_ & E & _)|(_ & _ & S1)]]; [contradiction|congruence|].
  destruct (prefixScore_cases (prefix anchor) (actualPrefix doc m) Lp)
    as [[_ P1]|[(_ & _ & P1)|(_ & _ & P1)]]; lra.
Qed.

Lemma score_with_suffix (doc : jsstring) (anchor : Anchor) (m : Range) :
  suffix anchor <> [] ->
  JS.startsWith (actualSuffix doc m) (suffix anchor) = true ->
  (100 <= specScore doc anchor m)%Q.
Proof.
  intros Hne Hs. unfold specScore.
  pose proof (prefixScore_nonneg (prefix anchor) (actualPrefix doc m)).
  unfold suffixScore at 1. apply truthy_nonempty in Hne. rewrite Hne, Hs. simpl. lra.
Qed.

(** ** [substring] on arbitrary integers *)

Lemma substring_length (s : jsstring) (a b : Z) :
  len (JS.substring s a b) =
  Z.max (JS.clamp (len s) a) (JS.clamp (len s) b) -
  Z.min (JS.clamp (len s) a) (JS.clamp (len s) b).
Proof.
  unfold JS.substring, JS.clamp, len. cbv zeta.
  rewrite length_firstn, length_skipn. lia.
Qed.

Lemma substring_swap (s : jsstring) (a b : Z) :
  JS.substring s a b = JS.substring s b a.
Proof.
  unfold JS.substring. cbv zeta.
  rewrite (Z.min_comm (JS.clamp (len s) b)), (Z.max_comm (JS.clamp (len s) b)).
  reflexivity.
Qed.

Lemma slice_app (d : jsstring) (a k b : Z) :
  0 <= a <= k -> k <= b ->
  slice d a b = slice d a k ++ slice d k b.
Proof.
  intros Ha Hb. unfold slice.
  rewrite <- (firstn_skipn (Z.to_nat k - Z.to_nat a) (skipn (Z.to_nat a) (firstn (Z.to_nat b) d))).
  f_equal.
  - rewrite firstn_skipn_comm, firstn_firstn. f_equal. f_equal. lia.
  - rewrite skipn_skipn. f_equal. lia.
Qed.

End AnchorMoreFacts.

(** * Further properties of the anchor resolver *)

Module AnchorExtras.
Import TextAnchor AnchorSpec TextAnchorFacts AnchorMoreFacts.

(** X1.  Whatever characters a text has, the pattern [escapeRegex] makes
    of it is accepted by the [RegExp] constructor, and [exec] with that
    pattern finds the text itself: started at [lastIndex], it returns the
    first position at or after [lastIndex] where the text stands in the
    subject and moves [lastIndex] to the end of that occurrence; it
    returns [null] and resets [lastIndex] to 0 exactly when the text does
    not stand anywhere from [lastIndex] on. *)
Theorem escapeRegex_matches_literally (e doc : jsstring) :
  exists re,
    JS.newRegExp (escapeRegex e) = Some re /\
    JS.lastIndex re = 0%nat /\
    forall L, (L <= length doc)%nat ->
      match JS.exec {| JS.atoms := JS.atoms re; JS.lastIndex := L |} doc with
      | (Some i, re') =>
          (L <= i)%nat /\ occursAt doc e (Z.of_nat i) /\
          (forall j, (L <= j < i)%nat -> ~ occursAt doc e (Z.of_nat j)) /\
          JS.lastIndex re' = (i + length e)%nat
      | (None, re') =>
          (forall j, (L <= j)%nat -> ~ occursAt doc e (Z.of_nat j)) /\
          JS.lastIndex re' = 0%nat
      end.
Proof.
  exists {| JS.atoms := map JS.Lit e; JS.lastIndex := 0 |}.
  split; [apply newRegExp_escapeRegex|]. split; [reflexivity|].
  intros L HL. cbn [JS.atoms].
  change {| JS.atoms := map JS.Lit e; JS.lastIndex := L |} with (literal e L).
  destruct (JS.exec (literal e L) doc) as [[i|] re'] eqn:E.
  - destruct (exec_Some _ _ _ _ _ E) as (-> & Hi & Hh & Hfirst).
    split; [lia|]. split; [apply hit_occursAt; [lia|exact Hh]|]. split.
    + intros j Hj Hocc. apply hit_occursAt in Hocc; [|lia].
      rewrite Hfirst in Hocc by lia. discriminate.
    + reflexivity.
  - split.
    + intros j Hj Hocc. destruct (occursAt_hit _ _ _ Hocc) as [Hb Hh].
      rewrite Nat2Z.id in Hb, Hh.
      rewrite (exec_None _ _ _ _ E j) in Hh by lia. discriminate.
    + unfold JS.exec in E. cbn [literal JS.lastIndex JS.atoms] in E.
      destruct (length doc <? L)%nat; [inversion E; reflexivity|].
      destruct (JS.searchFrom _ _ _); inversion E; reflexivity.
Qed.

(** X2.  The candidates that the match loop collects are occurrences of
    [exact], each [exact.length] long, listed from left to right without
    overlap; and every occurrence of [exact] in the document starts
    inside one of them (an occurrence that is not collected overlaps a
    collected one). *)
Theorem candidates_cover_without_overlap (doc e : jsstring) (ms : list Range) :
  collects doc e ms ->
  (forall m, In m ms -> occursAt doc e (from m) /\ to m = from m + len e) /\
  (forall l1 m l2, ms = l1 ++ m :: l2 -> forall m', In m' l2 -> to m <= from m') /\
  (forall p, occursAt doc e p -> exists m, In m ms /\ from m <= p < to m).
Proof.
  intros Hc. destruct (collects_Scan _ _ _ Hc) as (Hne & idxs & HS & ->).
  split; [|split].
  - intros m Hm. apply (candidate_occurs doc e idxs); assumption.
  - intros l1 m l2 Heq m' Hm'.
    apply map_eq_app in Heq as (i1 & r & -> & <- & Heq).
    destruct r as [|i i2]; [discriminate|]. cbn [map] in Heq.
    injection Heq as <- <-.
    apply in_map_iff in Hm' as (k & <- & Hk).
    pose proof (Scan_sorted _ _ _ _ HS i1 i i2 eq_refl k Hk).
    unfold rangeAt, len. cbn. lia.
  - intros p Hp. destruct (occursAt_hit _ _ _ Hp) as [Hb Hh].
    destruct (Scan_covers _ _ _ _ HS (Z.to_nat p)) as (i & Hi & Hr); [lia|exact Hh|].
    exists (rangeAt e i). split; [apply in_map; exact Hi|].
    destruct Hp as (H0 & _). unfold rangeAt, len. cbn. lia.
Qed.

Lemma candidates_cover_without_overlap_witness :
  collects (str "aaa") (str "aa") [{| from := 0; to := 2 |}] /\
  (forall p, occursAt (str "aaa") (str "aa") p ->
     exists m, In m [{| from := 0; to := 2 |}] /\ from m <= p < to m).
Proof.
  assert (collects (str "aaa") (str "aa") [{| from := 0; to := 2 |}]) as Hc.
  { exists 5%nat, {| JS.atoms := map JS.Lit (str "aa"); JS.lastIndex := 0 |}.
    split; reflexivity. }
  split; [exact Hc|].
  exact (proj2 (proj2 (candidates_cover_without_overlap _ _ _ Hc))).
Defined.

(** X3.  A call never throws.  With an empty document it returns [null];
    with a non-empty [exact] it returns after at most [doc.length + 1]
    passes of the match loop, with the same result however many more are
    allowed; with an empty [exact] and a non-empty document it never
    returns. *)
Theorem call_returns_or_diverges (doc : jsstring) (anchor : Anchor) :
  (forall fuel, findAnchorPosition fuel doc anchor <> Throws) /\
  (doc = [] -> forall fuel, findAnchorPosition fuel doc anchor = Returns None) /\
  (exact anchor <> [] ->
   exists r, forall fuel, (enoughFuel doc <= fuel)%nat ->
     findAnchorPosition fuel doc anchor = Returns r) /\
  (doc <> [] -> exact anchor = [] ->
   forall fuel, findAnchorPosition fuel doc anchor = OutOfFuel).
Proof.
  split; [|split; [|split]].
  - intros fuel. apply find_no_throw.
  - intros -> fuel. apply find_empty.
  - intros Hne.
    destruct doc as [|c doc].
    { exists None. intros fuel _. apply find_empty. }
    destruct (findAnchorPosition (enoughFuel (c :: doc)) (c :: doc) anchor) as [r| |] eqn:E.
    + exists r. intros fuel Hf. apply (find_more_fuel _ _ _ _ _ E Hf).
    + destruct (find_no_throw _ _ _ E).
    + rewrite find_loop in E by discriminate.
      destruct (matchLoop_ends (c :: doc) (exact anchor) (enoughFuel (c :: doc)) Hne 0 [])
        as [ms Hms]; [unfold enoughFuel; lia|].
      rewrite Hms in E. destruct ms as [|m [|m' ms]]; try discriminate.
      destruct (JS.sort _ _); discriminate.
  - intros Hdoc He fuel. rewrite find_loop by assumption.
    rewrite He, matchLoop_empty by lia. reflexivity.
Qed.

Lemma call_returns_or_diverges_witness :
  exists r, forall fuel, (enoughFuel (str "abc abc") <= fuel)%nat ->
    findAnchorPosition fuel (str "abc abc")
      {| prefix := []; exact := str "abc"; suffix := [] |} = Returns r.
Proof.
  apply (proj1 (proj2 (proj2 (call_returns_or_diverges (str "abc abc")
           {| prefix := []; exact := str "abc"; suffix := [] |})))).
  discriminate.
Defined.

(** X4.  When several candidates are collected, the one returned has the
    highest score, and among those with the highest score it is the
    leftmost. *)
Theorem best_score_leftmost_returned (fuel : nat) (doc : jsstring) (anchor : Anchor)
    (ms : list Range) :
  collects doc (exact anchor) ms ->
  (1 < length ms)%nat ->
  (enoughFuel doc <= fuel)%nat ->
  exists m,
    In m ms /\
    findAnchorPosition fuel doc anchor = Returns (Some m) /\
    (score (scoreMatch doc (prefix anchor) (suffix anchor) m) == specScore doc anchor m) /\
    (forall m', In m' ms ->
       (score (scoreMatch doc (prefix anchor) (suffix anchor) m') <=
        score (scoreMatch doc (prefix anchor) (suffix anchor) m))%Q) /\
    (forall m', In m' ms ->
       score (scoreMatch doc (prefix anchor) (suffix anchor) m') ==
       score (scoreMatch doc (prefix anchor) (suffix anchor) m) ->
       from m <= from m').
Proof.
  intros Hc Hlen Hf.
  pose proof (collects_fuel _ _ _ fuel Hc Hf) as Hms.
  destruct (collects_Scan _ _ _ Hc) as (Hne & idxs & HS & ->).
  assert (doc <> []) as Hdoc.
  { intros ->. rewrite (Scan_none _ _ _ _ HS) in Hlen; [simpl in Hlen; lia|].
    intros j Hj. simpl in Hj. assert (j = 0)%nat as -> by lia.
    unfold hit. simpl. destruct (exact anchor); [congruence|reflexivity]. }
  rewrite length_map in Hlen.
  destruct (choose_best fuel doc anchor _ Hdoc Hne HS Hlen Hms)
    as (i1 & i & i2 & Heq & Hfind & H1 & H2).
  assert (forall k, In k idxs ->
            score (scoreMatch doc (prefix anchor) (suffix anchor) (rangeAt (exact anchor) k)) ==
            specScore doc anchor (rangeAt (exact anchor) k)) as Hsc.
  { intros k Hk. destruct (Scan_in_bounds doc (exact anchor) _ k Hne HS Hk) as [B B'].
    apply (scoreMatch_spec doc anchor _ B B'). }
  assert (In i idxs) as Hi by (rewrite Heq; apply in_or_app; simpl; auto).
  exists (rangeAt (exact anchor) i). split; [apply in_map; exact Hi|].
  split; [exact Hfind|]. split; [apply Hsc; exact Hi|]. split.
  - intros m' Hm'. apply in_map_iff in Hm' as (k & <- & Hk).
    rewrite (Hsc k Hk), (Hsc i Hi). rewrite Heq in Hk.
    apply in_app_or in Hk as [Hk|[<-|Hk]].
    + apply Qlt_le_weak, H1, Hk.
    + apply Qle_refl.
    + apply H2, Hk.
  - intros m' Hm' Hsame. apply in_map_iff in Hm' as (k & <- & Hk).
    rewrite (Hsc k Hk), (Hsc i Hi) in Hsame. rewrite Heq in Hk.
    apply in_app_or in Hk as [Hk|[<-|Hk]].
    + apply H1 in Hk. rewrite Hsame in Hk. destruct (Qlt_irrefl _ Hk).
    + lia.
    + pose proof (Scan_sorted _ _ _ _ HS i1 i i2 Heq k Hk). simpl. lia.
Qed.

Lemma best_score_leftmost_returned_witness :
  exists m,
    In m [{| from := 0; to := 3 |}; {| from := 4; to := 7 |}] /\
    findAnchorPosition 20 (str "abc abc!")
      {| prefix := []; exact := str "abc"; suffix := str "!" |} = Returns (Some m).
Proof.
  destruct (best_score_leftmost_returned 20 (str "abc abc!")
              {| prefix := []; exact := str "abc"; suffix := str "!" |}
              [{| from := 0; to := 3 |}; {| from := 4; to := 7 |}])
    as (m & Hin & Hfind & _).
  - exists 20%nat, {| JS.atoms := map JS.Lit (str "abc"); JS.lastIndex := 0 |}.
    split; reflexivity.
  - simpl. lia.
  - vm_compute. lia.
  - exists m. split; assumption.
Defined.

(** X5.  The earliest occurrence of [exact] whose surroundings contain the
    whole prefix and the whole suffix of the anchor is the range that is
    returned, provided that no earlier occurrence overlaps it. *)
Theorem earliest_full_context_match_returned (fuel : nat) (doc : jsstring)
    (anchor : Anchor) (p : Z) :
  exact anchor <> [] ->
  occursAt doc (exact anchor) p ->
  sameContext doc anchor {| from := p; to := p + len (exact anchor) |} ->
  (forall q, q < p -> occursAt doc (exact anchor) q ->
     q + len (exact anchor) <= p /\
     ~ sameContext doc anchor {| from := q; to := q + len (exact anchor) |}) ->
  (enoughFuel doc <= fuel)%nat ->
  findAnchorPosition fuel doc anchor =
  Returns (Some {| from := p; to := p + len (exact anchor) |}).
Proof. apply first_full_match. Qed.

Lemma earliest_full_context_match_returned_witness :
  findAnchorPosition 20 (str "cat hat cat mat")
    {| prefix := str "hat "; exact := str "cat"; suffix := str " mat" |} =
  Returns (Some {| from := 8; to := 11 |}).
Proof.
  apply (earliest_full_context_match_returned 20 (str "cat hat cat mat")
           {| prefix := str "hat "; exact := str "cat"; suffix := str " mat" |} 8).
  - discriminate.
  - vm_compute. repeat split; discriminate.
  - vm_compute. split; right; reflexivity.
  - intros q Hq (H0 & Hb & Hsl).
    change (len (exact _)) with 3 in *.
    assert (exists n, q = Z.of_nat n /\ (n < 8)%nat) as (n & -> & Hn)
      by (exists (Z.to_nat q); lia).
    destruct n as [|n].
    + split; [lia|]. vm_compute. intros [[H|H] _]; discriminate.
    + exfalso. do 7 (destruct n as [|n]; [vm_compute in Hsl; discriminate|]). lia.
  - vm_compute. lia.
Defined.

(** X6.  An anchor survives edits behind its context.  Let the anchor of
    an in-bounds, non-empty selection [from, to) be made on [doc], where
    no earlier occurrence of the selected text overlaps the selection or
    has the same context.  In every document that agrees with [doc] up to
    the end of the suffix context, [min(doc.length, to + 32)], the anchor
    resolves to [from, to) again. *)
Theorem anchor_survives_edits_after_context (fuel : nat) (doc doc' : jsstring)
    (from to : Z) :
  0 <= from < to -> to <= len doc ->
  firstn (Z.to_nat (Z.min (len doc) (to + 32))) doc' =
  firstn (Z.to_nat (Z.min (len doc) (to + 32))) doc ->
  (forall q, q < from ->
     occursAt doc (exact (createAnchor doc from to)) q ->
     q + (to - from) <= from /\
     ~ sameContext doc (createAnchor doc from to)
         {| TextAnchor.from := q; TextAnchor.to := q + (to - from) |}) ->
  (enoughFuel doc' <= fuel)%nat ->
  findAnchorPosition fuel doc' (createAnchor doc from to) =
  Returns (Some {| TextAnchor.from := from; TextAnchor.to := to |}).
Proof.
  intros Hft Ht Hk Hearlier Hf.
  set (a := createAnchor doc from to) in *.
  destruct (createAnchor_slices doc from to) as (He & Hp & Hs); [lia|lia|].
  fold a in He, Hp, Hs.
  set (k := Z.min (len doc) (to + 32)) in *.
  assert (to <= k <= len doc) as Hkb by (unfold k; lia).
  assert (len (exact a) = to - from) as Hlen
    by (rewrite He; apply slice_length; lia).
  assert (len (suffix a) = k - to) as Hslen
    by (rewrite Hs; apply slice_length; lia).
  assert (k <= len doc') as Hk'.
  { apply (f_equal (@length ascii)) in Hk. rewrite !length_firstn in Hk.
    unfold len in *. lia. }
  assert (forall x y, y <= k -> slice doc' x y = slice doc x y) as Hagree.
  { intros x y Hy. apply (slice_agree doc doc' (Z.to_nat k)); [exact Hk|lia]. }
  replace {| TextAnchor.from := from; TextAnchor.to := to |}
    with {| TextAnchor.from := from; TextAnchor.to := from + len (exact a) |}
    by (f_equal; lia).
  apply first_full_match.
  - intros E. rewrite E in Hlen. change (len []) with 0 in Hlen. lia.
  - unfold occursAt. rewrite Hlen.
    replace (from + (to - from)) with to by lia.
    rewrite Hagree by lia. repeat split; auto; lia.
  - rewrite Hlen. replace (from + (to - from)) with to by lia.
    unfold sameContext, actualSuffix, actualPrefix.
    cbn [TextAnchor.from TextAnchor.to]. split; right.
    + apply startsWith_slice; [lia|lia|]. rewrite Hslen.
      replace (to + (k - to)) with k by lia.
      split; [lia|]. rewrite Hagree by lia. symmetry. exact Hs.
    + rewrite Hagree by lia. rewrite <- Hp. apply endsWith_refl.
  - intros q Hq (H0 & Hb & Hsl). rewrite Hlen in *.
    assert (occursAt doc (exact a) q) as Hocc.
    { unfold occursAt. rewrite Hlen. rewrite Hagree in Hsl by lia.
      repeat split; auto; lia. }
    destruct (Hearlier q Hq Hocc) as [Hno Hdiff].
    split; [exact Hno|]. intros [Hsfx Hpfx]. apply Hdiff.
    unfold sameContext, actualSuffix, actualPrefix in *.
    cbn [TextAnchor.from TextAnchor.to] in *. split.
    + destruct Hsfx as [E|H]; [left; exact E|right].
      apply startsWith_slice in H; [|lia|lia].
      destruct H as [H1 H2]. rewrite Hslen in *.
      apply startsWith_slice; [lia|lia|]. rewrite Hslen.
      split; [lia|]. rewrite <- Hagree by lia. exact H2.
    + rewrite Hagree in Hpfx by lia. exact Hpfx.
  - exact Hf.
Qed.

Lemma anchor_survives_edits_after_context_witness :
  findAnchorPosition 60 (str "The quick brown fox jumps over the lazy duck.")
    (createAnchor (str "The quick brown fox jumps over the lazy dog and runs.") 4 9)
  = Returns (Some {| from := 4; to := 9 |}).
Proof.
  apply (anchor_survives_edits_after_context 60
           (str "The quick brown fox jumps over the lazy dog and runs.")
           (str "The quick brown fox jumps over the lazy duck.") 4 9).
  - lia.
  - vm_compute. discriminate.
  - vm_compute. reflexivity.
  - intros q Hq (H0 & Hb & Hsl). exfalso.
    change (len (exact _)) with 5 in Hsl.
    assert (exists n, q = Z.of_nat n /\ (n < 4)%nat) as (n & -> & Hn)
      by (exists (Z.to_nat q); lia).
    do 4 (destruct n as [|n]; [vm_compute in Hsl; discriminate|]).
    lia.
  - vm_compute. lia.
Defined.

(** X7.  An anchor follows edits in front of its context.  Let the anchor
    of a non-empty selection [from, to) be made on [before ++ rest], with
    the selection and its 32 characters of prefix context inside [rest].
    When [before] is replaced by [before'], and the new document has no
    earlier occurrence of the selected text that overlaps the moved
    selection or has the same context, the anchor resolves to the
    selection moved by the change of length. *)
Theorem anchor_follows_edits_before_context (fuel : nat) (before before' rest : jsstring)
    (from to : Z) :
  len before + 32 <= from -> from < to -> to <= len (before ++ rest) ->
  (forall q, q < from + (len before' - len before) ->
     occursAt (before' ++ rest) (exact (createAnchor (before ++ rest) from to)) q ->
     q + (to - from) <= from + (len before' - len before) /\
     ~ sameContext (before' ++ rest) (createAnchor (before ++ rest) from to)
         {| TextAnchor.from := q; TextAnchor.to := q + (to - from) |}) ->
  (enoughFuel (before' ++ rest) <= fuel)%nat ->
  findAnchorPosition fuel (before' ++ rest) (createAnchor (before ++ rest) from to) =
  Returns (Some {| TextAnchor.from := from + (len before' - len before);
                   TextAnchor.to := to + (len before' - len before) |}).
Proof.
  intros Hfrom Hft Ht Hearlier Hf.
  set (doc := before ++ rest) in *. set (doc' := before' ++ rest) in *.
  set (a := createAnchor doc from to) in *.
  pose proof (len_nonneg before) as Lb. pose proof (len_nonneg before') as Lb'.
  assert (len doc = len before + len rest) as Ld
    by (unfold doc, len; rewrite length_app; lia).
  assert (len doc' = len before' + len rest) as Ld'
    by (unfold doc', len; rewrite length_app; lia).
  destruct (createAnchor_slices doc from to) as (He & Hp & Hs); [lia|lia|].
  fold a in He, Hp, Hs.
  assert (len (exact a) = to - from) as Hlen
    by (rewrite He; apply slice_length; lia).
  set (f := from - len before) in *. set (t := to - len before) in *.
  assert (forall x y, 0 <= x -> 0 <= y ->
            slice doc' (len before' + x) (len before' + y) =
            slice doc (len before + x) (len before + y)) as Hmove.
  { intros x y Hx Hy. unfold doc, doc'. rewrite !slice_shift by lia. reflexivity. }
  replace (from + (len before' - len before)) with (len before' + f) in * by (unfold f; lia).
  replace (to + (len before' - len before)) with (len before' + f + len (exact a))
    by (unfold f; lia).
  apply (first_full_match fuel doc' a (len before' + f)).
  - intros E. rewrite E in Hlen. change (len []) with 0 in Hlen. lia.
  - unfold occursAt. rewrite Hlen.
    replace (len before' + f + (to - from)) with (len before' + t) by (unfold f, t; lia).
    rewrite Hmove by (unfold f, t; lia).
    replace (len before + f) with from by (unfold f; lia).
    replace (len before + t) with to by (unfold t; lia).
    repeat split; auto; unfold t; lia.
  - rewrite Hlen.
    replace (len before' + f + (to - from)) with (len before' + t) by (unfold f, t; lia).
    unfold sameContext, actualSuffix, actualPrefix.
    cbn [TextAnchor.from TextAnchor.to]. split; right.
    + replace (Z.min (len doc') (len before' + t + 32))
        with (len before' + Z.min (len rest) (t + 32)) by lia.
      rewrite Hmove by (unfold t; lia).
      replace (len before + t) with to by (unfold t; lia).
      replace (len before + Z.min (len rest) (t + 32))
        with (Z.min (len doc) (to + 32)) by (unfold t; lia).
      rewrite <- Hs. apply startsWith_refl.
    + replace (Z.max 0 (len before' + f - 32)) with (len before' + (f - 32))
        by (unfold f; lia).
      rewrite Hmove by (unfold f; lia).
      replace (len before + (f - 32)) with (Z.max 0 (from - 32)) by (unfold f; lia).
      replace (len before + f) with from by (unfold f; lia).
      rewrite <- Hp. apply endsWith_refl.
  - rewrite Hlen. exact Hearlier.
  - exact Hf.
Qed.

Lemma anchor_follows_edits_before_context_witness :
  findAnchorPosition 80
    (str "Hello! " ++ str "0123456789012345678901234567890123 the fox runs")
    (createAnchor (str "Hi " ++ str "0123456789012345678901234567890123 the fox runs") 42 45)
  = Returns (Some {| from := 46; to := 49 |}).
Proof.
  apply (anchor_follows_edits_before_context 80 (str "Hi ") (str "Hello! ")
           (str "0123456789012345678901234567890123 the fox runs") 42 45).
  - vm_compute. discriminate.
  - lia.
  - vm_compute. discriminate.
  - intros q Hq (H0 & Hb & Hsl). exfalso.
    change (len (exact _)) with 3 in Hsl.
    change (42 + (len (str "Hello! ") - len (str "Hi "))) with 46 in Hq.
    assert (exists n, q = Z.of_nat n /\ (n < 46)%nat) as (n & -> & Hn)
      by (exists (Z.to_nat q); lia).
    do 46 (destruct n as [|n]; [vm_compute in Hsl; discriminate|]).
    lia.
  - vm_compute. lia.
Defined.

(** X8.  The suffix decides before anything else: when the anchor has a
    suffix and the text after some collected candidate starts with it,
    the text after the returned range starts with it too, whatever the
    prefixes are. *)
Theorem exact_suffix_match_preferred (fuel : nat) (doc : jsstring) (anchor : Anchor)
    (ms : list Range) (m r : Range) :
  findAnchorPosition fuel doc anchor = Returns (Some r) ->
  suffix anchor <> [] ->
  collects doc (exact anchor) ms -> In m ms ->
  JS.startsWith (actualSuffix doc m) (suffix anchor) = true ->
  JS.startsWith (actualSuffix doc r) (suffix anchor) = true.
Proof.
  intros Hfind Hsfx Hc Hm Hstart.
  assert (doc <> []) as Hdoc.
  { intros ->. rewrite find_empty in Hfind. discriminate. }
  destruct (collects_Scan _ _ _ Hc) as (Hne & idxs & HS & ->).
  destruct (find_returns_candidate _ _ _ _ Hfind) as (ms' & Hms' & _).
  destruct Hc as (fuel0 & re & Hre & Hms).
  rewrite newRegExp_escapeRegex in Hre. injection Hre as <-.
  change {| JS.atoms := map JS.Lit (exact anchor); JS.lastIndex := 0 |}
    with (literal (exact anchor) 0) in Hms.
  pose proof (matchLoop_more_fuel _ _ _ _ _ _ (Nat.max fuel fuel0) Hms (Nat.le_max_r _ _)) as E1.
  pose proof (matchLoop_more_fuel _ _ _ _ _ _ (Nat.max fuel fuel0) Hms' (Nat.le_max_l _ _)) as E2.
  rewrite E1 in E2. injection E2 as <-.
  destruct idxs as [|i0 [|i0' idxs]].
  - destruct Hm.
  - rewrite find_loop, Hms' in Hfind by assumption. cbn [map] in Hfind, Hm.
    injection Hfind as <-. destruct Hm as [<-|[]]. exact Hstart.
  - destruct (choose_best fuel doc anchor _ Hdoc Hne HS) as (i1 & i & i2 & Heq & Hf & H1 & H2);
      [simpl; lia|exact Hms'|].
    rewrite Hf in Hfind. injection Hfind as <-.
    apply in_map_iff in Hm as (k & <- & Hk).
    pose proof (score_with_suffix doc anchor _ Hsfx Hstart) as Hhigh.
    assert (specScore doc anchor (rangeAt (exact anchor) k) <=
            specScore doc anchor (rangeAt (exact anchor) i))%Q as Hle.
    { rewrite Heq in Hk. apply in_app_or in Hk as [Hk|[<-|Hk]].
      - apply Qlt_le_weak, H1, Hk.
      - apply Qle_refl.
      - apply H2, Hk. }
    destruct (JS.startsWith (actualSuffix doc (rangeAt (exact anchor) i)) (suffix anchor))
      eqn:E; [reflexivity|exfalso].
    destruct (Scan_in_bounds doc (exact anchor) _ i Hne HS) as [B B'].
    { rewrite Heq. apply in_or_app; simpl; auto. }
    pose proof (score_without_suffix doc anchor _ B B' Hsfx E). lra.
Qed.

Lemma exact_suffix_match_preferred_witness :
  JS.startsWith (actualSuffix (str "xab-ab+") {| from := 4; to := 6 |}) (str "+") = true.
Proof.
  apply (exact_suffix_match_preferred 20 (str "xab-ab+")
           {| prefix := str "x"; exact := str "ab"; suffix := str "+" |}
           [{| from := 1; to := 3 |}; {| from := 4; to := 6 |}]
           {| from := 4; to := 6 |} {| from := 4; to := 6 |}).
  - reflexivity.
  - discriminate.
  - exists 20%nat, {| JS.atoms := map JS.Lit (str "ab"); JS.lastIndex := 0 |}.
    split; reflexivity.
  - simpl. auto.
  - reflexivity.
Defined.

(** X9.  [createAnchor] accepts any integers.  Whatever [from] and [to]
    are (negative, beyond the document, or in the wrong order), the
    prefix and the suffix have at most 32 characters, [exact] has at most
    [|to - from|] characters and no more than the document, and swapping
    [from] and [to] gives the same [exact]. *)
Theorem createAnchor_any_integers (doc : jsstring) (from to : Z) :
  len (prefix (createAnchor doc from to)) <= 32 /\
  len (suffix (createAnchor doc from to)) <= 32 /\
  len (exact (createAnchor doc from to)) <= Z.abs (to - from) /\
  len (exact (createAnchor doc from to)) <= len doc /\
  exact (createAnchor doc to from) = exact (createAnchor doc from to).
Proof.
  unfold createAnchor, CONTEXT_LENGTH. cbv zeta. cbn [prefix suffix exact].
  rewrite !substring_length. pose proof (len_nonneg doc).
  repeat split; try (unfold JS.clamp; lia).
  apply substring_swap.
Qed.

(** X10.  For an in-bounds range the three parts of the anchor are one
    window of the document: prefix, exact and suffix put together are
    [doc.substring(from - 32, to + 32)]. *)
Theorem anchor_is_window (doc : jsstring) (from to : Z) :
  0 <= from <= to -> to <= len doc ->
  prefix (createAnchor doc from to) ++ exact (createAnchor doc from to) ++
  suffix (createAnchor doc from to) =
  JS.substring doc (from - 32) (to + 32).
Proof.
  intros Hft Ht.
  destruct (createAnchor_slices doc from to) as (-> & -> & ->); [lia|lia|].
  rewrite <- !slice_app by lia.
  rewrite <- substring_slice by lia.
  unfold JS.substring, JS.clamp. cbv zeta.
  f_equal; [f_equal; lia|f_equal; f_equal; lia].
Qed.

Lemma anchor_is_window_witness :
  prefix (createAnchor (str "Hello world") 6 8) ++
  exact (createAnchor (str "Hello world") 6 8) ++
  suffix (createAnchor (str "Hello world") 6 8) = str "Hello world".
Proof.
  apply (anchor_is_window (str "Hello world") 6 8).
  - lia.
  - vm_compute. discriminate.
Defined.

End AnchorExtras.

(** * Facts about file names and timers *)

Module NamesFacts.
Import FileNames WorkspaceSpec.

(** ** Strings *)

Lemma strictEquals_eq (a b : jsstring) : JSLib.strictEquals a b = true <-> a = b.
Proof.
  revert b. induction a as [|c a IH]; intros [|d b]; simpl; split;
    try congruence; try discriminate.
  - intros H. apply andb_true_iff in H as [H1 H2].
    apply Ascii.eqb_eq in H1. apply IH in H2. congruence.
  - intros H. injection H as -> ->. rewrite Ascii.eqb_refl. simpl. apply IH. reflexivity.
Qed.

Lemma strictEquals_refl (a : jsstring) : JSLib.strictEquals a a = true.
Proof. apply strictEquals_eq. reflexivity. Qed.

Lemma strictEquals_neq (a b : jsstring) : JSLib.strictEquals a b = false <-> a <> b.
Proof.
  rewrite <- strictEquals_eq. destruct (JSLib.strictEquals a b); split; congruence.
Qed.

Lemma endsWith_app (s t : jsstring) :
  JS.endsWith s t = true -> exists front, s = front ++ t.
Proof.
  unfold JS.endsWith. intros H. apply andb_true_iff in H as [H1 H2].
  apply Nat.leb_le in H1.
  apply TextAnchorFacts.startsWith_firstn in H2.
  exists (firstn (length s - length t) s).
  rewrite <- (firstn_skipn (length s - length t) s) at 1. f_equal.
  rewrite <- H2 at 2. symmetry. apply firstn_all2.
  rewrite length_skipn. lia.
Qed.

(** ** [split] and [pop] *)

Lemma split_nonempty (sep : ascii) (s : jsstring) : JSLib.split sep s <> [].
Proof.
  destruct s as [|c s]; simpl; [discriminate|].
  destruct (Ascii.eqb c sep); [discriminate|].
  destruct (JSLib.split sep s); discriminate.
Qed.

Lemma split_without (sep : ascii) (s : jsstring) :
  without sep s -> JSLib.split sep s = [s].
Proof.
  unfold without. induction s as [|c s IH]; intros H; simpl; [reflexivity|].
  destruct (Ascii.eqb c sep) eqn:E.
  - apply Ascii.eqb_eq in E. subst. destruct H. left. reflexivity.
  - rewrite IH; [reflexivity|]. intros Hin. apply H. right. exact Hin.
Qed.

Lemma split_app (sep : ascii) (front rest : jsstring) :
  JSLib.split sep (front ++ sep :: rest) = JSLib.split sep front ++ JSLib.split sep rest.
Proof.
  induction front as [|c front IH]; simpl.
  - rewrite Ascii.eqb_refl. reflexivity.
  - destruct (Ascii.eqb c sep); [rewrite IH; reflexivity|].
    rewrite IH. pose proof (split_nonempty sep front).
    destruct (JSLib.split sep front); [congruence|reflexivity].
Qed.

Lemma pop_last {A : Type} (l : list A) (x : A) : JSLib.pop (l ++ [x]) = (Some x, l).
Proof. unfold JSLib.pop. rewrite rev_unit, rev_involutive. reflexivity. Qed.

Lemma lastPiece_without (sep : ascii) (s : jsstring) :
  without sep s -> JSLib.lastPiece sep s = Some s.
Proof. intros H. unfold JSLib.lastPiece. rewrite split_without by exact H. reflexivity. Qed.

Lemma lastPiece_app (sep : ascii) (front ext : jsstring) :
  without sep ext -> JSLib.lastPiece sep (front ++ sep :: ext) = Some ext.
Proof.
  intros H. unfold JSLib.lastPiece.
  rewrite split_app, (split_without sep ext H), pop_last. reflexivity.
Qed.

(** Every string is cut by its last separator. *)
Lemma last_separator (sep : ascii) (s : jsstring) :
  (without sep s) \/
  (exists front ext, s = front ++ sep :: ext /\ without sep ext).
Proof.
  induction s as [|c s IH].
  - left. intros [].
  - destruct IH as [IH|(front & ext & -> & Hext)].
    + destruct (Ascii.eqb c sep) eqn:E.
      * apply Ascii.eqb_eq in E. subst. right. exists [], s. split; [reflexivity|exact IH].
      * left. intros [->|Hin]; [rewrite Ascii.eqb_refl in E; discriminate|exact (IH Hin)].
    + right. exists (c :: front), ext. split; [reflexivity|exact Hext].
Qed.

Lemma lastPiece_Some (sep : ascii) (s : jsstring) :
  exists piece front,
    JSLib.lastPiece sep s = Some piece /\ s = front ++ piece /\ without sep piece.
Proof.
  destruct (last_separator sep s) as [H|(front & ext & -> & H)].
  - exists s, []. split; [apply lastPiece_without; exact H|]. split; [reflexivity|exact H].
  - exists ext, (front ++ [sep]). split; [apply lastPiece_app; exact H|].
    split; [rewrite <- app_assoc; reflexivity|exact H].
Qed.

(** A tail without the separator belongs to the last piece. *)
Lemma lastPiece_tail (sep : ascii) (front tail : jsstring) :
  without sep tail ->
  exists piece, JSLib.lastPiece sep (front ++ tail) = Some (piece ++ tail).
Proof.
  intros Ht. destruct (last_separator sep front) as [H|(f & e & -> & H)].
  - exists front. apply lastPiece_without. intros Hin.
    apply in_app_or in Hin as [Hin|Hin]; [exact (H Hin)|exact (Ht Hin)].
  - exists e. rewrite <- app_assoc. simpl. apply lastPiece_app. intros Hin.
    apply in_app_or in Hin as [Hin|Hin]; [exact (H Hin)|exact (Ht Hin)].
Qed.

(** ** [join] *)

Lemma join_cons (sep x y : jsstring) (rest : list jsstring) :
  JSLib.join sep (x :: y :: rest) = x ++ sep ++ JSLib.join sep (y :: rest).
Proof. reflexivity. Qed.


(** Cutting a joined array of pieces without the separator gives the
    pieces back. *)
Lemma split_join (sep : ascii) (l : list jsstring) :
  l <> [] -> Forall (without sep) l ->
  JSLib.split sep (JSLib.join [sep] l) = l.
Proof.
  intros Hne Hall. induction l as [|x l IH]; [congruence|].
  inversion Hall as [|? ? Hx Hl]; subst.
  destruct l as [|y l].
  - apply split_without, Hx.
  - rewrite join_cons. cbn [app]. rewrite split_app, (split_without sep x Hx), IH;
      [reflexivity|discriminate|exact Hl].
Qed.

(** ** Lower case *)

Lemma toLowerCaseUnit_idempotent (c : ascii) :
  JSLib.toLowerCaseUnit (JSLib.toLowerCaseUnit c) = JSLib.toLowerCaseUnit c.
Proof. destruct c as [[] [] [] [] [] [] [] []]; vm_compute; reflexivity. Qed.

Lemma toLowerCaseUnit_dot (c : ascii) :
  Ascii.eqb (JSLib.toLowerCaseUnit c) "."%char = Ascii.eqb c "."%char.
Proof. destruct c as [[] [] [] [] [] [] [] []]; vm_compute; reflexivity. Qed.

Lemma toLowerCaseUnit_slash (c : ascii) :
  Ascii.eqb (JSLib.toLowerCaseUnit c) "/"%char = Ascii.eqb c "/"%char.
Proof. destruct c as [[] [] [] [] [] [] [] []]; vm_compute; reflexivity. Qed.

Lemma toLowerCase_idempotent (s : jsstring) :
  JSLib.toLowerCase (JSLib.toLowerCase s) = JSLib.toLowerCase s.
Proof.
  unfold JSLib.toLowerCase. rewrite map_map. apply map_ext.
  apply toLowerCaseUnit_idempotent.
Qed.

(** Lower case commutes with cutting at a separator that it leaves alone. *)
Lemma split_toLowerCase (sep : ascii) (s : jsstring) :
  (forall c, Ascii.eqb (JSLib.toLowerCaseUnit c) sep = Ascii.eqb c sep) ->
  JSLib.split sep (JSLib.toLowerCase s) = map JSLib.toLowerCase (JSLib.split sep s).
Proof.
  intros Hsep. induction s as [|c s IH]; simpl; [reflexivity|].
  rewrite Hsep. destruct (Ascii.eqb c sep); simpl; [rewrite IH; reflexivity|].
  unfold JSLib.toLowerCase in *. rewrite IH.
  destruct (JSLib.split sep s); reflexivity.
Qed.

Lemma pop_map {A B : Type} (f : A -> B) (l : list A) :
  fst (JSLib.pop (map f l)) = option_map f (fst (JSLib.pop l)).
Proof.
  unfold JSLib.pop. rewrite <- map_rev. destruct (rev l); reflexivity.
Qed.

Lemma lowerLastPiece_toLowerCase (sep : ascii) (s : jsstring) :
  (forall c, Ascii.eqb (JSLib.toLowerCaseUnit c) sep = Ascii.eqb c sep) ->
  lowerLastPiece sep (JSLib.toLowerCase s) = lowerLastPiece sep s.
Proof.
  intros Hsep. unfold lowerLastPiece, JSLib.lastPiece.
  rewrite split_toLowerCase, pop_map by exact Hsep.
  destruct (fst (JSLib.pop (JSLib.split sep s))); simpl; [|reflexivity].
  apply toLowerCase_idempotent.
Qed.

(** A string whose lower case has no slash has none. *)
Lemma without_slash_lower (s t : jsstring) :
  JSLib.toLowerCase s = t -> without "/"%char t -> without "/"%char s.
Proof.
  intros <- H Hin. apply H. unfold JSLib.toLowerCase.
  change "/"%char with (JSLib.toLowerCaseUnit "/"%char). apply in_map. exact Hin.
Qed.

(** ** Storage *)

Lemma getItem_setItem (key value : jsstring) (st : JSLib.Storage) :
  JSLib.getItem key (JSLib.setItem key value st) = Some value.
Proof. apply (lookup_insert_eq (M := gmap jsstring)). Qed.

Lemma getItem_setItem_other (key key' value : jsstring) (st : JSLib.Storage) :
  key <> key' -> JSLib.getItem key' (JSLib.setItem key value st) = JSLib.getItem key' st.
Proof. intros H. apply (lookup_insert_ne (M := gmap jsstring)). exact H. Qed.

Lemma getItem_removeItem (key : jsstring) (st : JSLib.Storage) :
  JSLib.getItem key (JSLib.removeItem key st) = None.
Proof. apply (lookup_delete_eq (M := gmap jsstring)). Qed.

Lemma getItem_removeItem_other (key key' : jsstring) (st : JSLib.Storage) :
  key <> key' -> JSLib.getItem key' (JSLib.removeItem key st) = JSLib.getItem key' st.
Proof. intros H. apply (lookup_delete_ne (M := gmap jsstring)). exact H. Qed.


(** ** Timers *)

Lemma clearInterval_absent (h : positive) (t : JSLib.Timers) :
  ~ In h (JSLib.active t) -> JSLib.active (JSLib.clearInterval h t) = JSLib.active t.
Proof.
  unfold JSLib.clearInterval. cbn [JSLib.active]. intros H.
  induction (JSLib.active t) as [|x l IH]; simpl; [reflexivity|].
  destruct (Pos.eqb_spec x h) as [->|Hne]; simpl.
  - destruct H. left. reflexivity.
  - rewrite IH; [reflexivity|]. intros Hin. apply H. right. exact Hin.
Qed.

End NamesFacts.

(** * Facts about the workspace *)

Module WorkspaceFacts.
Import Navigation Workspace WorkspaceSpec HistoryFacts NamesFacts.

Section WithHandles.
Context {Handle : Type} (nameOf : Handle -> jsstring).
Implicit Types s : State Handle.
Implicit Types a : App Handle.

(** ** What the steps of a handler leave alone *)

Lemma saveTempChanges_fields (content : jsstring) s :
  app (saveTempChanges content s) = app s /\
  isDirty (saveTempChanges content s) = isDirty s /\
  isRichMode (saveTempChanges content s) = isRichMode s /\
  editorView (saveTempChanges content s) = editorView s /\
  originalContent (saveTempChanges content s) = originalContent s.
Proof.
  unfold saveTempChanges.
  destruct (negb (truthyKey (getFilePathKey s)) || negb (isDirty s)); repeat split.
Qed.

Lemma saveIfDirty_fields (content : jsstring) s :
  app (saveIfDirty content s) = app s /\
  isDirty (saveIfDirty content s) = isDirty s /\
  isRichMode (saveIfDirty content s) = isRichMode s /\
  editorView (saveIfDirty content s) = editorView s /\
  originalContent (saveIfDirty content s) = originalContent s.
Proof.
  unfold saveIfDirty.
  destruct (isDirty s && notNull (currentFileHandle (app s))).
  - apply saveTempChanges_fields.
  - repeat split.
Qed.

Lemma saveIfDirty_app (content : jsstring) s : app (saveIfDirty content s) = app s.
Proof. apply saveIfDirty_fields. Qed.

Lemma initEditor_fields (initialContent filename : jsstring) (milkdown : bool) s :
  app (initEditor initialContent filename milkdown s) = app s /\
  localStorage (initEditor initialContent filename milkdown s) = localStorage s /\
  isRichMode (initEditor initialContent filename milkdown s) = isRichMode s /\
  isDirty (initEditor initialContent filename milkdown s) = false /\
  originalContent (initEditor initialContent filename milkdown s) = initialContent.
Proof.
  unfold initEditor. cbv zeta. cbn [isRichMode setEditorView setOriginalContent].
  destruct (FileNames.isMarkdownFile filename && isRichMode s && milkdown); repeat split.
Qed.








(** ** Keys of the temporary storage *)

Lemma prefix_injective (k k' : jsstring) :
  TEMP_STORAGE_PREFIX ++ k = TEMP_STORAGE_PREFIX ++ k' -> k = k'.
Proof. apply app_inv_head. Qed.

Lemma theme_is_no_temp_key (k : jsstring) : TEMP_STORAGE_PREFIX ++ k <> str "theme".
Proof. discriminate. Qed.




(** ** Paths *)

Lemma dirOf_last (p : list (PathItem Handle)) (item : PathItem Handle) :
  dirOf (p ++ [item]) = Some (handle item).
Proof. unfold dirOf. rewrite rev_unit. reflexivity. Qed.

Lemma index_last {A : Type} (l : list A) (x : A) :
  JS.index (l ++ [x]) (Z.of_nat (length (l ++ [x])) - 1) = Some x.
Proof.
  rewrite length_app. simpl.
  replace (Z.of_nat (length l + 1) - 1) with (Z.of_nat (length l)) by lia.
  apply index_app_last.
Qed.

Lemma index_last_inv {A : Type} (l : list A) (x : A) :
  JS.index l (Z.of_nat (length l) - 1) = Some x -> exists front, l = front ++ [x].
Proof.
  destruct l as [|y l] using rev_ind; intros H.
  - unfold JS.index in H. simpl in H. discriminate.
  - rewrite index_last in H. injection H as ->. exists l. reflexivity.
Qed.




Lemma pop_snd {A : Type} (l : list A) (x : A) : snd (JSLib.pop (l ++ [x])) = l.
Proof. rewrite pop_last. reflexivity. Qed.

(** Cutting a path after the item [index]. *)
Lemma slice_path {A : Type} (p : list A) (index : Z) :
  0 <= index < Z.of_nat (length p) ->
  exists front item rest,
    p = front ++ item :: rest /\ Z.of_nat (length front) = index /\
    JS.slice p 0 (index + 1) = front ++ [item].
Proof.
  intros Hi. rewrite slice_prefix by lia.
  destruct (nth_error p (Z.to_nat index)) as [item|] eqn:E;
    [|apply nth_error_None in E; lia].
  apply nth_error_split in E as (front & rest & -> & Hl).
  exists front, item, rest. split; [reflexivity|]. split; [lia|].
  replace (Z.to_nat (index + 1)) with (length front + 1)%nat by lia.
  rewrite firstn_app, firstn_all2 by lia.
  replace (length front + 1 - length front)%nat with 1%nat by lia. reflexivity.
Qed.

(** ** The history *)




Lemma addToHistory_fields a :
  currentPath (addToHistory a) = currentPath a /\
  currentDirHandle (addToHistory a) = currentDirHandle a /\
  currentFileHandle (addToHistory a) = currentFileHandle a /\
  currentFilename (addToHistory a) = currentFilename a.
Proof. repeat split. Qed.




Lemma samePlace_refl a : samePlace a a.
Proof. repeat split. Qed.

Lemma samePlace_trans a a' a'' : samePlace a a' -> samePlace a' a'' -> samePlace a a''.
Proof.
  unfold samePlace. intros (E1 & E2 & E3 & E4) (F1 & F2 & F3 & F4).
  rewrite F1, F2, F3, F4. auto.
Qed.





(** ** The handlers keep the invariant and do not throw *)















End WithHandles.

End WorkspaceFacts.

(** * Properties of the file-name helpers and of the autosave timer *)

Module NamesExtras.
Import FileNames WorkspaceSpec NamesFacts.

(** X11.  Only what follows the last dot of a file name decides whether
    the file is markdown, and it does so whatever the case of its
    letters; a name without a dot is taken as its own extension. *)
Theorem markdown_decided_by_last_extension (front ext : jsstring) :
  without "."%char ext ->
  isMarkdownFile (front ++ "."%char :: ext) = isMarkdownFile ext /\
  (isMarkdownFile ext = true <->
   JSLib.toLowerCase ext = str "md" \/ JSLib.toLowerCase ext = str "markdown").
Proof.
  intros H. unfold isMarkdownFile, lowerLastPiece.
  rewrite (lastPiece_app _ front ext H), (lastPiece_without _ ext H).
  split; [reflexivity|].
  rewrite orb_true_iff, !strictEquals_eq. reflexivity.
Qed.

Lemma markdown_decided_by_last_extension_witness :
  isMarkdownFile (str "notes.v2" ++ "."%char :: str "MD") = isMarkdownFile (str "MD") /\
  (isMarkdownFile (str "MD") = true <->
   JSLib.toLowerCase (str "MD") = str "md" \/ JSLib.toLowerCase (str "MD") = str "markdown").
Proof.
  apply (markdown_decided_by_last_extension (str "notes.v2") (str "MD")).
  unfold without. simpl. intros [H|[H|[]]]; discriminate.
Defined.

(** X12.  A file that [isMarkdownFile] accepts gets the markdown
    language from [getLanguageExtension]: the special names
    ([Jenkinsfile], names that end in [ignore]) never take a markdown
    file away. *)
Theorem markdown_file_gets_markdown_language (filename : jsstring) :
  isMarkdownFile filename = true ->
  getLanguageExtension filename = Markdown.
Proof.
  unfold isMarkdownFile, getLanguageExtension. cbv zeta.
  unfold lowerLastPiece at 1 2.
  destruct (lastPiece_Some "."%char filename) as (ext & front & Hext & Hf & _).
  rewrite Hext. intros Hmd.
  assert (exists x c, JSLib.toLowerCase ext = x ++ [c] /\ c <> "e"%char /\
                      without "/"%char (x ++ [c]) /\
                      get (x ++ [c]) langMap = Some Markdown) as (x & c & Hlow & Hc & Hns & Hget).
  { apply orb_true_iff in Hmd as [E|E]; apply strictEquals_eq in E.
    - exists (str "m"), "d"%char. rewrite E. repeat split; try discriminate.
      unfold without. simpl. intros [H|[H|[]]]; discriminate.
    - exists (str "markdow"), "n"%char. rewrite E. repeat split; try discriminate.
      unfold without. simpl. intuition discriminate. }
  pose proof (without_slash_lower ext _ Hlow Hns) as Hslash.
  destruct (lastPiece_tail "/"%char front ext Hslash) as [piece Hbase].
  rewrite <- Hf in Hbase. unfold lowerLastPiece. rewrite Hbase, Hext.
  unfold JSLib.toLowerCase at 1 2 3. rewrite map_app.
  fold (JSLib.toLowerCase piece). fold (JSLib.toLowerCase ext).
  rewrite Hlow, Hget.
  set (b := JSLib.toLowerCase piece ++ x ++ [c]).
  assert (forall t, b <> t ++ [ "e"%char ]) as Hb.
  { intros t E. unfold b in E. rewrite !app_assoc in E.
    apply app_inj_tail in E as [_ E]. congruence. }
  assert (JSLib.strictEquals b (str "jenkinsfile") = false) as ->.
  { apply strictEquals_neq. apply (Hb (str "jenkinsfil")). }
  assert (JSLib.strictEquals b (str ".gitignore") = false) as ->.
  { apply strictEquals_neq. apply (Hb (str ".gitignor")). }
  assert (JS.endsWith b (str "ignore") = false) as ->.
  { destruct (JS.endsWith b (str "ignore")) eqn:E; [|reflexivity].
    apply endsWith_app in E as [t E]. destruct (Hb (t ++ str "ignor")).
    rewrite <- app_assoc. exact E. }
  reflexivity.
Qed.

Lemma markdown_file_gets_markdown_language_witness :
  getLanguageExtension (str "docs/README.Markdown") = Markdown.
Proof.
  apply (markdown_file_gets_markdown_language (str "docs/README.Markdown")).
  reflexivity.
Defined.

(** X13.  The case of the letters of a file name does not matter to
    either helper: two names with the same lower case get the same
    language and the same answer of [isMarkdownFile]. *)
Theorem file_name_case_is_ignored (filename filename' : jsstring) :
  JSLib.toLowerCase filename = JSLib.toLowerCase filename' ->
  getLanguageExtension filename = getLanguageExtension filename' /\
  isMarkdownFile filename = isMarkdownFile filename'.
Proof.
  intros H.
  assert (forall sep,
            (forall c, Ascii.eqb (JSLib.toLowerCaseUnit c) sep = Ascii.eqb c sep) ->
            lowerLastPiece sep filename = lowerLastPiece sep filename') as Hp.
  { intros sep Hsep.
    rewrite <- (lowerLastPiece_toLowerCase sep filename Hsep),
            <- (lowerLastPiece_toLowerCase sep filename' Hsep), H.
    reflexivity. }
  unfold getLanguageExtension, isMarkdownFile. cbv zeta.
  rewrite (Hp "."%char toLowerCaseUnit_dot), (Hp "/"%char toLowerCaseUnit_slash).
  split; reflexivity.
Qed.

Lemma file_name_case_is_ignored_witness :
  getLanguageExtension (str "Main.PY") = getLanguageExtension (str "main.py") /\
  isMarkdownFile (str "Main.PY") = isMarkdownFile (str "main.py").
Proof.
  apply (file_name_case_is_ignored (str "Main.PY") (str "main.py")).
  reflexivity.
Defined.

(** The invariant of the autosave timer in a window that had the timers
    [t0] when the module was loaded. *)
Lemma autosave_invariant (t0 : JSLib.Timers) (toggles : list bool) :
  fresh t0 ->
  let s := fold_left (fun s enabled => Autosave.toggleAutosave enabled s) toggles
             (Autosave.init t0) in
  fresh (Autosave.timers s) /\
  (JSLib.nextHandle t0 <= JSLib.nextHandle (Autosave.timers s))%positive /\
  match Autosave.autosaveInterval s with
  | Some h =>
      Autosave.autosaveEnabled s = true /\
      (JSLib.nextHandle t0 <= h)%positive /\
      JSLib.active (Autosave.timers s) = h :: JSLib.active t0
  | None =>
      (toggles <> [] -> Autosave.autosaveEnabled s = false) /\
      JSLib.active (Autosave.timers s) = JSLib.active t0
  end.
Proof.
  intros H0. induction toggles as [|enabled toggles IH] using rev_ind.
  - simpl. split; [exact H0|]. split; [lia|]. split; [congruence|reflexivity].
  - rewrite fold_left_app. cbn [fold_left]. cbv zeta in *.
    set (s := fold_left _ toggles _) in *. clearbody s.
    destruct IH as (Hfresh & Hnext & Hown).
    assert (forall h, In h (JSLib.active t0) -> (h < JSLib.nextHandle t0)%positive) as Hold
      by (apply List.Forall_forall; exact H0).
    assert (forall h, (JSLib.nextHandle t0 <= h)%positive ->
              List.filter (fun x => negb (Pos.eqb x h)) (JSLib.active t0) =
              JSLib.active t0) as Hclear.
    { intros h Hh.
      apply (clearInterval_absent h
               {| JSLib.active := JSLib.active t0; JSLib.nextHandle := 1 |}).
      cbn [JSLib.active]. intros Hin. apply Hold in Hin. lia. }
    unfold Autosave.toggleAutosave, Autosave.startAutosave, Autosave.stopAutosave.
    destruct s as [en [h|] [act next]]; cbn [Autosave.autosaveInterval Autosave.timers
      Autosave.autosaveEnabled JSLib.active JSLib.nextHandle] in *.
    + destruct Hown as (_ & Hh & ->).
      assert (forall x, In x (JSLib.active t0) -> (x < next)%positive) as Hlt.
      { intros x Hx. apply Hold in Hx. lia. }
      destruct enabled; cbn.
      * rewrite Pos.eqb_refl. cbn [negb]. rewrite Hclear by exact Hh.
        split; [|split; [lia|split; [reflexivity|split; [lia|reflexivity]]]].
        unfold fresh. cbn. constructor; [lia|].
        apply List.Forall_forall. intros x Hx. apply Hlt in Hx. lia.
      * rewrite Pos.eqb_refl. cbn [negb]. rewrite Hclear by exact Hh.
        split; [|split; [lia|split; [reflexivity|reflexivity]]].
        unfold fresh. cbn. rewrite Pos.eqb_refl. cbn [negb]. rewrite Hclear by exact Hh.
        apply List.Forall_forall. exact Hlt.
    + destruct Hown as (_ & ->).
      destruct enabled; cbn.
      * split; [|split; [lia|split; [reflexivity|split; [lia|reflexivity]]]].
        unfold fresh in *. cbn in *. constructor; [lia|].
        apply List.Forall_forall. intros x Hx. apply Hold in Hx. lia.
      * split; [exact Hfresh|]. split; [lia|]. split; reflexivity.
Qed.

(** X14.  However often autosave is switched on and off, the page never
    has more than one autosave timer running: the timers of the window
    are the one kept in [autosaveInterval], if any, and the timers that
    were there when the page was loaded, none of which is cleared; and a
    timer is running exactly when the last switch was to on. *)
Theorem at_most_one_autosave_timer (t0 : JSLib.Timers) (toggles : list bool)
    (enabled : bool) :
  fresh t0 ->
  let s := fold_left (fun s enabled => Autosave.toggleAutosave enabled s)
             (toggles ++ [enabled]) (Autosave.init t0) in
  Autosave.autosaveEnabled s = enabled /\
  (if enabled
   then exists h, Autosave.autosaveInterval s = Some h /\
                  ~ In h (JSLib.active t0) /\
                  JSLib.active (Autosave.timers s) = h :: JSLib.active t0
   else Autosave.autosaveInterval s = None /\
        JSLib.active (Autosave.timers s) = JSLib.active t0).
Proof.
  intros H0. cbv zeta.
  pose proof (autosave_invariant t0 (toggles ++ [enabled]) H0) as Hinv.
  cbv zeta in Hinv. destruct Hinv as (_ & _ & Hown).
  assert (Autosave.autosaveEnabled
            (fold_left (fun s e => Autosave.toggleAutosave e s) (toggles ++ [enabled])
               (Autosave.init t0)) = enabled) as Hen.
  { rewrite fold_left_app. cbn [fold_left].
    generalize (fold_left (fun s e => Autosave.toggleAutosave e s) toggles
                  (Autosave.init t0)).
    intros s0.
    unfold Autosave.toggleAutosave, Autosave.startAutosave, Autosave.stopAutosave.
    destruct enabled; cbn; [reflexivity|].
    destruct (Autosave.autosaveInterval s0); reflexivity. }
  split; [exact Hen|].
  destruct (Autosave.autosaveInterval _) as [h|] eqn:E.
  - destruct Hown as (Htrue & Hh & Hact). rewrite Htrue in Hen. subst enabled.
    exists h. split; [reflexivity|]. split; [|exact Hact].
    intros Hin. unfold fresh in H0. rewrite List.Forall_forall in H0.
    apply H0 in Hin. lia.
  - destruct Hown as (Hfalse & Hact). rewrite Hfalse in Hen.
    + subst enabled. split; [reflexivity|exact Hact].
    + destruct toggles; discriminate.
Qed.

Lemma at_most_one_autosave_timer_witness :
  let s := fold_left (fun s enabled => Autosave.toggleAutosave enabled s)
             ([true; true; false] ++ [true])
             (Autosave.init {| JSLib.active := [2%positive]; JSLib.nextHandle := 3 |}) in
  exists h, Autosave.autosaveInterval s = Some h /\
            ~ In h [2%positive] /\
            JSLib.active (Autosave.timers s) = [h; 2%positive].
Proof.
  apply (at_most_one_autosave_timer
           {| JSLib.active := [2%positive]; JSLib.nextHandle := 3 |}
           [true; true; false] true).
  unfold fresh. cbn. constructor; [lia|constructor].
Defined.

End NamesExtras.

(** * Properties of the workspace *)

Module WorkspaceExtras.
Import Navigation Workspace WorkspaceSpec HistoryFacts NamesFacts WorkspaceFacts.

Section WithHandles.
Context {Handle : Type} (nameOf : Handle -> jsstring).
Implicit Types s : State Handle.


(** X16.  The unsaved text of a file is kept under the key of that file
    alone: after [saveTempChanges] on a dirty open file, [loadTempChanges]
    gives the text back for its key, the entries of all other keys
    and the [theme] setting are as before, and [clearTempChanges] for the
    key removes that entry and no other. *)
Theorem temp_changes_kept_per_file (content key : jsstring) s :
  getFilePathKey s = Some key -> key <> [] -> isDirty s = true ->
  let s' := saveTempChanges content s in
  loadTempChanges (Some key) s' = Some content /\
  hasTempChanges (Some key) s' = true /\
  (forall key', key' <> key ->
     loadTempChanges (Some key') s' = loadTempChanges (Some key') s) /\
  JSLib.getItem (str "theme") (localStorage s') =
  JSLib.getItem (str "theme") (localStorage s) /\
  loadTempChanges (Some key) (clearTempChanges (Some key) s') = None /\
  (forall key', key' <> key ->
     loadTempChanges (Some key') (clearTempChanges (Some key) s') =
     loadTempChanges (Some key') s).
Proof.
  intros Hk Hne Hd. cbv zeta.
  assert (saveTempChanges content s =
          setLocalStorage
            (JSLib.setItem (TEMP_STORAGE_PREFIX ++ key) content (localStorage s)) s) as ->.
  { unfold saveTempChanges. rewrite Hk, Hd. cbn. destruct key; [congruence|reflexivity]. }
  unfold loadTempChanges, hasTempChanges, clearTempChanges.
  cbn [localStorage setLocalStorage JSLib.toString].
  assert (forall key', key' <> key ->
            TEMP_STORAGE_PREFIX ++ key <> TEMP_STORAGE_PREFIX ++ key') as Hother.
  { intros key' Hd' E. apply prefix_injective in E. congruence. }
  repeat split.
  - apply getItem_setItem.
  - rewrite getItem_setItem. reflexivity.
  - intros key' Hd'. apply getItem_setItem_other, Hother, Hd'.
  - apply getItem_setItem_other, theme_is_no_temp_key.
  - apply getItem_removeItem.
  - intros key' Hd'.
    rewrite getItem_removeItem_other by (apply Hother, Hd').
    apply getItem_setItem_other, Hother, Hd'.
Qed.

(** X17.  After every change of the document the dirty flag tells
    whether the text differs from [originalContent]; when the text is
    back at the original, the stored unsaved text of the open file is
    removed, and otherwise the storage is left alone. *)
Theorem dirty_flag_follows_original (currentContent : jsstring) s :
  let s' := onDocChanged currentContent s in
  (isDirty s' = true <-> currentContent <> originalContent s) /\
  originalContent s' = originalContent s /\
  (currentContent = originalContent s -> isDirty s = true ->
   forall key, getFilePathKey s = Some key -> key <> [] ->
     hasTempChanges (Some key) s' = false) /\
  (currentContent <> originalContent s \/ isDirty s = false ->
   localStorage s' = localStorage s).
Proof.
  cbv zeta. unfold onDocChanged.
  destruct (JSLib.strictEquals currentContent (originalContent s)) eqn:E.
  - apply strictEquals_eq in E.
    destruct (isDirty s) eqn:Hd; [|repeat split; congruence].
    change (getFilePathKey (setDirty false s)) with (getFilePathKey s).
    assert (forall s', isDirty s' = false -> originalContent s' = originalContent s ->
              (isDirty s' = true <-> currentContent <> originalContent s) /\
              originalContent s' = originalContent s) as Hflag.
    { intros s' H1 H2. rewrite H1. repeat split; congruence. }
    destruct (getFilePathKey s) as [[|c key]|] eqn:Hk; cbn [truthyKey JS.truthy].
    + destruct (Hflag (setDirty false s)) as [F1 F2]; [reflexivity|reflexivity|].
      split; [exact F1|]. split; [exact F2|]. split.
      * intros _ _ key' H. congruence.
      * intros [H|H]; congruence.
    + destruct (Hflag (clearTempChanges (Some (c :: key)) (setDirty false s)))
        as [F1 F2]; [reflexivity|reflexivity|].
      split; [exact F1|]. split; [exact F2|]. split.
      * intros _ _ key' H _. injection H as <-.
        unfold hasTempChanges, clearTempChanges.
        cbn [localStorage setLocalStorage JSLib.toString].
        rewrite getItem_removeItem. reflexivity.
      * intros [H|H]; congruence.
    + destruct (Hflag (setDirty false s)) as [F1 F2]; [reflexivity|reflexivity|].
      split; [exact F1|]. split; [exact F2|]. split.
      * intros _ _ key H. discriminate.
      * intros [H|H]; congruence.
  - apply strictEquals_neq in E.
    destruct (isDirty s) eqn:Hd; cbn; repeat split; congruence.
Qed.





(** X21.  With two or more items in the path, the folder-up button does
    what a click on the breadcrumb of the parent does. *)
Theorem folder_up_is_parent_breadcrumb (supported : bool) (picked : option Handle)
    (content : jsstring) (milkdown : bool) s :
  (2 <= length (currentPath (app s)))%nat ->
  goFolderUp nameOf supported picked content milkdown s =
  navigateToPathIndex (Z.of_nat (length (currentPath (app s))) - 2) content milkdown s.
Proof.
  intros H2. unfold goFolderUp, navigateToPathIndex. cbv zeta.
  assert (app (saveIfDirty content s) = app s) as Ea by apply saveIfDirty_app.
  set (s1 := saveIfDirty content s) in *.
  destruct (currentPath (app s)) as [|x p] eqn:Ep using rev_ind; [simpl in H2; lia|].
  clear IHp. destruct p as [|y p] using rev_ind; [simpl in H2; lia|]. clear IHp.
  rewrite Ea, Ep.
  replace (length ((p ++ [y]) ++ [x]) =? 0)%nat with false
    by (rewrite !length_app; simpl; symmetry; apply Nat.eqb_neq; lia).
  replace (length ((p ++ [y]) ++ [x]) =? 1)%nat with false
    by (rewrite !length_app; simpl; symmetry; apply Nat.eqb_neq; lia).
  replace (Z.of_nat (length ((p ++ [y]) ++ [x])) - 2 >=?
           Z.of_nat (length ((p ++ [y]) ++ [x]))) with false
    by (rewrite Z.geb_leb; symmetry; apply Z.leb_gt; lia).
  rewrite pop_snd.
  replace (JS.slice ((p ++ [y]) ++ [x]) 0 (Z.of_nat (length ((p ++ [y]) ++ [x])) - 2 + 1))
    with (p ++ [y]); [reflexivity|].
  rewrite slice_prefix by lia.
  replace (Z.to_nat (Z.of_nat (length ((p ++ [y]) ++ [x])) - 2 + 1))
    with (length (p ++ [y])) by (rewrite !length_app; simpl; lia).
  rewrite firstn_app, firstn_all, Nat.sub_diag. cbn [firstn]. rewrite app_nil_r. reflexivity.
Qed.

(** X22.  The folder-up button undoes a click on a directory: from a
    place inside a folder, clicking a directory of the picker and then
    the folder-up button leads to the same path and the same directory
    handle, with no file open. *)
Theorem folder_up_undoes_directory_click (dirHandle : Handle) (supported : bool)
    (picked : option Handle) (content content' : jsstring) (milkdown milkdown' : bool) s :
  currentPath (app s) <> [] ->
  currentDirHandle (app s) = dirOf (currentPath (app s)) ->
  exists s',
    goFolderUp nameOf supported picked content' milkdown'
      (navigateToDirectory nameOf dirHandle content milkdown s) = Normal s' /\
    currentPath (app s') = currentPath (app s) /\
    currentDirHandle (app s') = currentDirHandle (app s) /\
    currentFileHandle (app s') = None /\
    currentFilename (app s') = [].
Proof.
  intros Hne Hdir.
  set (s1 := navigateToDirectory nameOf dirHandle content milkdown s).
  assert (currentPath (app s1) =
          currentPath (app s) ++ [{| name := nameOf dirHandle; handle := dirHandle |}]) as Hp1.
  { unfold s1, navigateToDirectory. cbv zeta. cbn [app setApp].
    rewrite (proj1 (initEditor_fields _ _ _ _)). cbn. rewrite saveIfDirty_app. reflexivity. }
  unfold goFolderUp. cbv zeta.
  assert (app (saveIfDirty content' s1) = app s1) as Ea by apply saveIfDirty_app.
  set (s2 := saveIfDirty content' s1) in *.
  destruct (currentPath (app s)) as [|y p] eqn:Ep using rev_ind; [congruence|]. clear IHp.
  rewrite Ea, Hp1.
  replace (length ((p ++ [y]) ++ [{| name := nameOf dirHandle; handle := dirHandle |}]) =? 0)%nat
    with false by (rewrite !length_app; simpl; symmetry; apply Nat.eqb_neq; lia).
  replace (length ((p ++ [y]) ++ [{| name := nameOf dirHandle; handle := dirHandle |}]) =? 1)%nat
    with false by (rewrite !length_app; simpl; symmetry; apply Nat.eqb_neq; lia).
  cbn [app setApp setCurrentPath currentPath]. rewrite pop_snd, index_last.
  eexists. split; [reflexivity|]. cbn [app setApp].
  rewrite (proj1 (initEditor_fields _ _ _ _)). cbn.
  rewrite Hdir, dirOf_last. repeat split.
Qed.



(** X25.  Switching between the rich and the source editor of a markdown
    file starts the change tracking afresh: the mode is flipped, the
    text of the editor becomes [originalContent], and the dirty flag is
    cleared whatever it was; the storage and the place stay, and with a
    file open [saveFile] then does nothing until the text changes. *)
Theorem rich_toggle_resets_change_tracking (content : jsstring) (milkdown : bool) s :
  FileNames.isMarkdownFile (currentFilename (app s)) = true ->
  let s' := toggleRichMode content milkdown s in
  isRichMode s' = negb (isRichMode s) /\
  isDirty s' = false /\
  originalContent s' = content /\
  localStorage s' = localStorage s /\
  app s' = app s /\
  (currentFileHandle (app s) <> None ->
   forall supported picked written content',
     saveFile nameOf supported picked written content' s' = s').
Proof.
  intros Hmd. cbv zeta. unfold toggleRichMode. rewrite Hmd. cbn [negb]. cbv zeta.
  destruct (initEditor_fields content (currentFilename (app (setRichMode (negb (isRichMode s)) s)))
              milkdown (setRichMode (negb (isRichMode s)) s)) as (I1 & I2 & I3 & I4 & I5).
  split; [rewrite I3; reflexivity|]. split; [exact I4|]. split; [exact I5|].
  split; [rewrite I2; reflexivity|]. split; [rewrite I1; reflexivity|].
  intros Hfile supported picked written content'. unfold saveFile.
  rewrite I4, I1. cbn [negb app setRichMode andb].
  destruct (currentFileHandle (app s)); [|congruence].
  cbn [notNull]. destruct (negb supported); reflexivity.
Qed.

(** X26.  A save that succeeds leaves nothing unsaved: when there is
    something to save and a file to write to (the open file, or the one
    the user picks), after [saveFile] the dirty flag is cleared, the
    saved text is [originalContent], no unsaved text is stored under the
    key of the file, and the stored text of other files is as before. *)
Theorem successful_save_cleans (picked : option Handle) (content : jsstring) s :
  isDirty s = true \/ currentFileHandle (app s) = None ->
  currentFileHandle (app s) <> None \/ picked <> None ->
  let s' := saveFile nameOf true picked true content s in
  isDirty s' = false /\
  originalContent s' = content /\
  currentFileHandle (app s') <> None /\
  (forall key, getFilePathKey s' = Some key -> key <> [] ->
     hasTempChanges (Some key) s' = false) /\
  (forall key', getFilePathKey s' <> Some key' ->
     loadTempChanges (Some key') s' = loadTempChanges (Some key') s).
Proof.
  intros Hsave Hfile. cbv zeta. unfold saveFile. cbn [negb].
  assert (negb (isDirty s) && notNull (currentFileHandle (app s)) = false) as ->.
  { destruct Hsave as [-> | ->]; [reflexivity|]. apply andb_false_r. }
  assert (exists s0,
            match currentFileHandle (app s) with
            | Some _ => Some s
            | None =>
                match picked with
                | Some fileHandle =>
                    Some (setCurrentFilename (nameOf fileHandle)
                            (setCurrentFileHandle (Some fileHandle) s))
                | None => None
                end
            end = Some s0 /\
            currentFileHandle (app s0) <> None /\
            localStorage s0 = localStorage s) as (s0 & -> & Hopen & Hst).
  { destruct (currentFileHandle (app s)) eqn:E.
    - exists s. rewrite E. repeat split. discriminate.
    - destruct picked as [h|]; [|destruct Hfile; congruence].
      eexists. split; [reflexivity|]. split; [discriminate|reflexivity]. }
  cbn [negb]. cbv zeta.
  set (s1 := setOriginalContent content (setDirty false s0)).
  assert (getFilePathKey s1 = getFilePathKey s0) as Hk1 by reflexivity.
  destruct (getFilePathKey s0) as [key|] eqn:Hk.
  2: { unfold getFilePathKey in Hk. destruct (currentFileHandle (app s0)); congruence. }
  rewrite Hk1. cbn [truthyKey].
  destruct key as [|c key]; cbn [JS.truthy].
  - split; [reflexivity|]. split; [reflexivity|]. split; [exact Hopen|]. split.
    + intros key' Hk' Hne. rewrite Hk1 in Hk'. congruence.
    + intros key' _. unfold loadTempChanges. cbn. rewrite Hst. reflexivity.
  - assert (getFilePathKey (clearTempChanges (Some (c :: key)) s1) = Some (c :: key)) as Hk2
      by exact Hk1.
    split; [reflexivity|]. split; [reflexivity|]. split; [exact Hopen|]. split.
    + intros key' Hk' _. pose proof (eq_trans (eq_sym Hk') Hk2) as E. injection E as ->.
      unfold hasTempChanges, clearTempChanges.
      cbn [localStorage setLocalStorage JSLib.toString]. rewrite getItem_removeItem.
      reflexivity.
    + intros key' Hk'.
      assert (c :: key <> key') as Hne
        by (intros E; apply Hk'; rewrite <- E; exact Hk2).
      unfold loadTempChanges, clearTempChanges.
      cbn [localStorage setLocalStorage JSLib.toString s1 setOriginalContent setDirty].
      rewrite getItem_removeItem_other, Hst; [reflexivity|].
      intros E. apply prefix_injective in E. congruence.
Qed.

(** X27.  Files with different paths never share stored text: when the
    names of the folders and of the file have no slash, the key of the
    open file determines those names. *)
Theorem path_keys_distinguish_files (key : jsstring) s s' :
  getFilePathKey s = Some key -> getFilePathKey s' = Some key ->
  Forall (without "/"%char) (map name (currentPath (app s)) ++ [currentFilename (app s)]) ->
  Forall (without "/"%char)
    (map name (currentPath (app s')) ++ [currentFilename (app s')]) ->
  map name (currentPath (app s)) = map name (currentPath (app s')) /\
  currentFilename (app s) = currentFilename (app s').
Proof.
  unfold getFilePathKey, JS.push. intros Hk Hk' Hs Hs'.
  destruct (currentFileHandle (app s)); [|discriminate].
  destruct (currentFileHandle (app s')); [|discriminate].
  injection Hk as Hk. injection Hk' as Hk'.
  apply (f_equal (JSLib.split "/"%char)) in Hk, Hk'.
  change (str "/") with ["/"%char] in Hk, Hk'.
  rewrite split_join in Hk by (try exact Hs; intros E; apply app_eq_nil in E as [_ E];
                               discriminate).
  rewrite split_join in Hk' by (try exact Hs'; intros E; apply app_eq_nil in E as [_ E];
                                discriminate).
  rewrite <- Hk' in Hk. apply app_inj_tail in Hk. exact Hk.
Qed.

(** X28.  A click on a breadcrumb cuts the path after its item: the
    path keeps the items up to [index], the item at [index] gives the
    directory handle, no file is open and the editor is empty and clean.
    An index beyond the path does nothing.  The index -1, which no
    breadcrumb carries, empties the path and then throws, leaving the
    directory handle and the history as they were. *)
Theorem breadcrumb_click_cuts_path (index : Z) (content : jsstring) (milkdown : bool) s :
  (Z.of_nat (length (currentPath (app s))) <= index ->
   navigateToPathIndex index content milkdown s = Normal s) /\
  (0 <= index < Z.of_nat (length (currentPath (app s))) ->
   exists item s',
     JS.index (currentPath (app s)) index = Some item /\
     navigateToPathIndex index content milkdown s = Normal s' /\
     currentPath (app s') = firstn (Z.to_nat (index + 1)) (currentPath (app s)) /\
     currentDirHandle (app s') = Some (handle item) /\
     currentFileHandle (app s') = None /\
     currentFilename (app s') = [] /\
     isDirty s' = false /\
     originalContent s' = []) /\
  (index = -1 -> currentPath (app s) <> [] ->
   exists s',
     navigateToPathIndex index content milkdown s = Throw s' /\
     currentPath (app s') = [] /\
     currentDirHandle (app s') = currentDirHandle (app s) /\
     navigationHistory (app s') = navigationHistory (app s) /\
     historyIndex (app s') = historyIndex (app s)).
Proof.
  assert (app (saveIfDirty content s) = app s) as Ea by apply saveIfDirty_app.
  split; [|split].
  - intros Hi. unfold navigateToPathIndex.
    replace (index >=? Z.of_nat (length (currentPath (app s)))) with true
      by (rewrite Z.geb_leb; symmetry; apply Z.leb_le; lia).
    reflexivity.
  - intros Hi. unfold navigateToPathIndex.
    replace (index >=? Z.of_nat (length (currentPath (app s)))) with false
      by (rewrite Z.geb_leb; symmetry; apply Z.leb_gt; lia).
    cbv zeta. set (s1 := saveIfDirty content s) in *.
    destruct (slice_path (currentPath (app s1)) index)
      as (front & item & rest & Hp & Hl & Hs); [rewrite Ea; lia|].
    cbn [app setApp setCurrentPath currentPath]. rewrite Hs, index_last.
    exists item. eexists. split; [|split; [reflexivity|]].
    + rewrite <- Ea, Hp, <- Hl. unfold JS.index.
      replace (Z.of_nat (length front) <? 0) with false by (symmetry; apply Z.ltb_ge; lia).
      rewrite Nat2Z.id, nth_error_app2, Nat.sub_diag by lia. reflexivity.
    + cbn [app setApp].
      destruct (initEditor_fields [] (str "untitled") milkdown
                  (setCurrentFilename []
                     (setCurrentFileHandle None
                        (setCurrentDirHandle (Some (handle item))
                           (setCurrentPath (front ++ [item]) s1)))))
        as (I1 & _ & _ & I4 & I5).
      rewrite I1. cbn [isDirty originalContent setApp]. rewrite I4, I5.
      split; [|repeat split].
      cbn. rewrite <- Hs, Ea. apply slice_prefix. lia.
  - intros -> Hne. unfold navigateToPathIndex.
    replace (-1 >=? Z.of_nat (length (currentPath (app s)))) with false
      by (rewrite Z.geb_leb; symmetry; apply Z.leb_gt; lia).
    cbv zeta. set (s1 := saveIfDirty content s) in *.
    assert (JS.slice (currentPath (app s1)) 0 (-1 + 1) = []) as ->.
    { rewrite slice_prefix by lia. reflexivity. }
    cbn [app setApp setCurrentPath currentPath]. cbn [length].
    eexists. split; [reflexivity|]. unfold s1 in *.
    split; [reflexivity|]. unfold setCurrentPath.
    cbn [app setApp currentDirHandle navigationHistory historyIndex]. rewrite Ea.
    repeat split.
Qed.

(** X29.  [newFile] stores nothing and records nothing: whatever the
    answers, [localStorage], the history, the pointer, the path and the
    directory handle are as before, so that (unlike the navigation
    handlers) it does not keep the text of a dirty file.  If the user
    declines, nothing changes at all; otherwise no file is open, the name
    is [untitled], and the editor is empty and clean. *)
Theorem new_file_stores_nothing (nonEmpty confirmed milkdown : bool) s :
  let s' := newFile nonEmpty confirmed milkdown s in
  localStorage s' = localStorage s /\
  samePlace (app s) (app s') /\
  (editorView s && nonEmpty && negb confirmed = true -> s' = s) /\
  (editorView s && nonEmpty && negb confirmed = false ->
   currentFileHandle (app s') = None /\
   currentFilename (app s') = str "untitled" /\
   isDirty s' = false /\
   originalContent s' = []).
Proof.
  cbv zeta. unfold newFile.
  destruct (editorView s && nonEmpty && negb confirmed).
  - split; [reflexivity|]. split; [apply samePlace_refl|]. split; [reflexivity|discriminate].
  - cbv zeta.
    destruct (initEditor_fields [] (str "untitled") milkdown
                (setCurrentFilename (str "untitled") (setCurrentFileHandle None s)))
      as (I1 & I2 & _ & I4 & I5).
    rewrite I1, I2, I4, I5. split; [reflexivity|]. split; [repeat split|].
    split; [discriminate|]. intros _. repeat split.
Qed.

End WithHandles.

(** ** The properties at work on the sample workspace *)

Lemma temp_changes_kept_per_file_witness :
  loadTempChanges (Some (str "notes/main.js"))
    (saveTempChanges (str "let x = 2;") Samples.editing) = Some (str "let x = 2;").
Proof.
  apply (temp_changes_kept_per_file (str "let x = 2;") (str "notes/main.js") Samples.editing).
  - reflexivity.
  - discriminate.
  - reflexivity.
Defined.

Lemma dirty_flag_follows_original_witness :
  isDirty (onDocChanged (str "let x = 1;") Samples.editing) = true <->
  str "let x = 1;" <> originalContent Samples.editing.
Proof.
  apply (dirty_flag_follows_original (str "let x = 1;") Samples.editing).
Defined.



Lemma folder_up_is_parent_breadcrumb_witness :
  goFolderUp Samples.nameOf true None [] true Samples.deep =
  navigateToPathIndex (Z.of_nat (length (currentPath (app Samples.deep))) - 2) [] true
    Samples.deep.
Proof.
  apply (folder_up_is_parent_breadcrumb Samples.nameOf true None [] true Samples.deep).
  vm_compute. lia.
Defined.

Lemma folder_up_undoes_directory_click_witness :
  exists s',
    goFolderUp Samples.nameOf true None [] true
      (navigateToDirectory Samples.nameOf 1%nat [] true Samples.inFolder) = Normal s' /\
    currentPath (app s') = currentPath (app Samples.inFolder) /\
    currentDirHandle (app s') = currentDirHandle (app Samples.inFolder) /\
    currentFileHandle (app s') = None /\
    currentFilename (app s') = [].
Proof.
  apply (folder_up_undoes_directory_click Samples.nameOf 1%nat true None [] [] true true
           Samples.inFolder).
  - discriminate.
  - reflexivity.
Defined.




Lemma rich_toggle_resets_change_tracking_witness :
  isRichMode (toggleRichMode (str "# Todo list") true Samples.writing) = false /\
  isDirty Samples.writing = true /\
  isDirty (toggleRichMode (str "# Todo list") true Samples.writing) = false.
Proof.
  destruct (rich_toggle_resets_change_tracking Samples.nameOf (str "# Todo list") true
              Samples.writing eq_refl) as (H1 & H2 & _).
  split; [exact H1|]. split; [reflexivity|exact H2].
Defined.

Lemma successful_save_cleans_witness :
  isDirty (saveFile Samples.nameOf true None true (str "let x = 2;") Samples.editing) = false /\
  originalContent (saveFile Samples.nameOf true None true (str "let x = 2;") Samples.editing) =
  str "let x = 2;".
Proof.
  destruct (successful_save_cleans Samples.nameOf None (str "let x = 2;") Samples.editing)
    as (H1 & H2 & _).
  - left. reflexivity.
  - left. vm_compute. discriminate.
  - split; assumption.
Defined.

Lemma path_keys_distinguish_files_witness :
  map name (currentPath (app Samples.editing)) = map name (currentPath (app Samples.opened)) /\
  currentFilename (app Samples.editing) = currentFilename (app Samples.opened).
Proof.
  apply (path_keys_distinguish_files (str "notes/main.js") Samples.editing Samples.opened).
  - reflexivity.
  - reflexivity.
  - vm_compute. repeat constructor; unfold without; simpl; intuition discriminate.
  - vm_compute. repeat constructor; unfold without; simpl; intuition discriminate.
Defined.

Lemma breadcrumb_click_cuts_path_witness :
  exists item s',
    JS.index (currentPath (app Samples.deep)) 0 = Some item /\
    navigateToPathIndex 0 [] true Samples.deep = Normal s' /\
    currentPath (app s') = firstn (Z.to_nat (0 + 1)) (currentPath (app Samples.deep)) /\
    currentDirHandle (app s') = Some (handle item) /\
    currentFileHandle (app s') = None /\
    currentFilename (app s') = [] /\
    isDirty s' = false /\
    originalContent s' = [].
Proof.
  apply (proj1 (proj2 (breadcrumb_click_cuts_path 0 [] true Samples.deep))).
  vm_compute. split; [discriminate|reflexivity].
Defined.

Lemma new_file_stores_nothing_witness :
  currentFileHandle (app (newFile true true true Samples.editing)) = None /\
  currentFilename (app (newFile true true true Samples.editing)) = str "untitled" /\
  isDirty (newFile true true true Samples.editing) = false /\
  originalContent (newFile true true true Samples.editing) = [].
Proof.
  apply (new_file_stores_nothing true true true Samples.editing).
  reflexivity.
Defined.

End WorkspaceExtras.
